(** * sdcadm: the error classes and the agent-update procedure

  A shallow embedding of the error classes (the module the procedures
  require as [../errors]) and of the [UpdateAgentV1] procedure, followed by
  the properties of them that the specification states.

  Conventions of the embedding.
  - A JavaScript [throw] that nothing catches is the [Throw] outcome; a
    function that returns normally is [Ok].
  - Strings are [string]; [util.format] with [%s] on a string is the
    string itself, on [undefined] it is the text "undefined".
  - [x[i]] on an array is [nth_error], [undefined] being [None];
    [a.filter(p)[0]] is [nth_error (filter p a) 0].
  - Logging ([log.debug]) and the [progress] sink have no effect on control
    flow and are left out. *)

From Stdlib Require Import String Ascii List ZArith Lia Bool Arith PeanoNat.
From Stdlib Require Import DecimalString Permutation.
Import ListNotations.
Open Scope string_scope.

(** ** Values shared by both files *)

Module Js.

(** What an uncaught exception is: a [TypeError] raised by the runtime on
    a property read of [undefined], or an [AssertionError] of assert-plus,
    tagged with the name given to the failed assertion. *)
Inductive Thrown : Type :=
| TypeError
| AssertionError (what : string).

Inductive Outcome (A : Type) : Type :=
| Ok (a : A)
| Throw (t : Thrown).
Arguments Ok {A} a.
Arguments Throw {A} t.

Definition bind {A B : Type} (c : Outcome A) (k : A -> Outcome B) : Outcome B :=
  match c with
  | Ok a => k a
  | Throw t => Throw t
  end.

(** The scalar values a field of a response body can hold. *)
Inductive Scalar : Type :=
| JUndefined
| JString (s : string)
| JNumber (z : Z).

(** [format('%s', v)] *)
Definition fmt_opt (v : option string) : string :=
  match v with
  | Some s => s
  | None => "undefined"
  end.

(** [format('%d', n)] on a non-negative integer *)
Definition fmt_nat (n : nat) : string := NilZero.string_of_uint (Nat.to_uint n).

Definition nl : string := String "010"%char EmptyString.

(** The double-quote character as a string. *)
Definition dq : string := String "034"%char EmptyString.

(** JavaScript truthiness of a string-or-undefined value. *)
Definition truthy (v : option string) : bool :=
  match v with
  | Some s => negb (s =? "")
  | None => false
  end.

(** [s.split(sep)] for a one-character separator: the fields between the
    occurrences of [sep], at least one. *)
Fixpoint split (sep : ascii) (s : string) : list string :=
  match s with
  | EmptyString => [EmptyString]
  | String c s' =>
      if Ascii.eqb c sep then EmptyString :: split sep s'
      else match split sep s' with
           | h :: t => String c h :: t
           | [] => [String c EmptyString]
           end
  end.

End Js.
Export Js.

Notation "x <- c ;; k" := (bind c (fun x => k))
(at level 61, c at next level, right associativity).

(** ** The error classes *)

Module Errors.

(** One entry of [body.errors]. *)
Record FieldError : Type := {
  fe_field : option string;
  fe_code : option string;
  fe_message : option string
}.

(** The value of [body.errors]: a falsy value (the field is absent, or
    [null]), an array, whose entries are objects or, for [None], [null], or
    another truthy value, which has no [forEach]. *)
Inductive ErrorsField : Type :=
| ErrorsFalsy
| ErrorsArray (entries : list (option FieldError))
| ErrorsOther.

(** The [body] of an error returned by a node-sdc-clients client. *)
Record Body : Type := {
  b_code : Scalar;
  b_message : Scalar;
  b_errors : ErrorsField
}.

(** The objects that travel as errors: the raw error of an API client
    (only its [body] is ever read) and the instances of [SdcAdmError]
    with their message and the properties the constructor copies onto them.
    The cause is no part of the instance: the constructor leaves it out of
    the keys it copies and hands it to [WError], applied to an object that
    inherits from [VError] and not from [WError]. *)
#[warnings="-register-all"]
Inductive JsError : Type :=
| ClientError (body : option Body)
| MkSdcAdmError (code : string) (message : string) (exitStatus : option Z).

(** An argument of a constructor. *)
Inductive JsValue : Type :=
| VUndefined
| VString (s : string)
| VNumber (z : Z)
| VObject (e : JsError).

Definition err_code (e : JsError) : option string :=
  match e with
  | ClientError _ => None
  | MkSdcAdmError c _ _ => Some c
  end.

Definition err_message (e : JsError) : option string :=
  match e with
  | ClientError _ => None
  | MkSdcAdmError _ m _ => Some m
  end.

Definition err_exitStatus (e : JsError) : option Z :=
  match e with
  | ClientError _ => None
  | MkSdcAdmError _ _ x => x
  end.

(** *** assert-plus *)

Definition assert_string (v : JsValue) (what : string) : Outcome string :=
  match v with
  | VString s => Ok s
  | _ => Throw (AssertionError what)
  end.

Definition assert_optionalObject (v : JsValue) (what : string)
  : Outcome (option JsError) :=
  match v with
  | VUndefined => Ok None
  | VObject e => Ok (Some e)
  | _ => Throw (AssertionError what)
  end.

Definition assert_optionalNumber (v : JsValue) (what : string) : Outcome unit :=
  match v with
  | VUndefined | VNumber _ => Ok tt
  | _ => Throw (AssertionError what)
  end.

Definition assert_object (v : JsValue) (what : string) : Outcome JsError :=
  match v with
  | VObject e => Ok e
  | _ => Throw (AssertionError what)
  end.

Definition assert_scalar_string (v : Scalar) (what : string) : Outcome string :=
  match v with
  | JString s => Ok s
  | _ => Throw (AssertionError what)
  end.

Definition assert_scalar_optionalString (v : Scalar) (what : string)
  : Outcome (option string) :=
  match v with
  | JUndefined => Ok None
  | JString s => Ok (Some s)
  | JNumber _ => Throw (AssertionError what)
  end.

(** *** The classes *)

(** The [options] object of [SdcAdmError]; [exitStatus] is the one extra
    key the subclasses add. *)
Record Options : Type := {
  o_cause : JsValue;
  o_message : JsValue;
  o_code : JsValue;
  o_statusCode : JsValue;
  o_exitStatus : option Z
}.

(** [function SdcAdmError(options)]: the assertions in source order, then
    [WError.apply(this, [cause,] '%s', message)], which sets the message,
    and the copy of the extra keys [code] and [exitStatus] onto the
    instance. *)
Definition SdcAdmError (options : Options) : Outcome JsError :=
  message <- assert_string (o_message options) "options.message" ;;
  code <- assert_string (o_code options) "options.code" ;;
  _ <- assert_optionalObject (o_cause options) "options.cause" ;;
  _ <- assert_optionalNumber (o_statusCode options) "options.statusCode" ;;
  Ok (MkSdcAdmError code message (o_exitStatus options)).

(** [function InternalError(options)] *)
Definition InternalError (options : Options) : Outcome JsError :=
  _ <- assert_optionalObject (o_cause options) "options.cause" ;;
  _ <- assert_string (o_message options) "options.message" ;;
  SdcAdmError {| o_cause := o_cause options;
                 o_message := o_message options;
                 o_code := VString "InternalError";
                 o_statusCode := o_statusCode options;
                 o_exitStatus := Some 1%Z |}.

(** [if (message === undefined) { message = cause; cause = undefined; }] *)
Definition shift_args (cause message : JsValue) : JsValue * JsValue :=
  match message with
  | VUndefined => (VUndefined, cause)
  | _ => (cause, message)
  end.

(** [function UsageError(cause, message)] *)
Definition UsageError (cause message : JsValue) : Outcome JsError :=
  let '(cause, message) := shift_args cause message in
  m <- assert_string message "" ;;
  SdcAdmError {| o_cause := cause;
                 o_message := VString m;
                 o_code := VString "Usage";
                 o_statusCode := VUndefined;
                 o_exitStatus := Some 2%Z |}.

(** [function UpdateError(cause, message)] *)
Definition UpdateError (cause message : JsValue) : Outcome JsError :=
  let '(cause, message) := shift_args cause message in
  m <- assert_string message "" ;;
  SdcAdmError {| o_cause := cause;
                 o_message := VString m;
                 o_code := VString "Update";
                 o_statusCode := VUndefined;
                 o_exitStatus := Some 2%Z |}.

(** [cause.body]: a [TypeError] follows when it is [undefined], since
    [cause.body.code] is read next. *)
Definition body_of (cause : JsError) : Outcome Body :=
  match cause with
  | ClientError (Some b) => Ok b
  | _ => Throw TypeError
  end.

(** The body of the [forEach] over [cause.body.errors]. *)
Definition field_line (e : FieldError) : string :=
  nl ++ "    " ++ fmt_opt (fe_field e) ++ ": " ++ fmt_opt (fe_code e)
     ++ (if truthy (fe_message e) then ": " ++ fmt_opt (fe_message e) else "").

(** [cause.body.errors.forEach(...)] from the message [msg] on: reading
    [e.field] of a [null] entry throws. *)
Fixpoint forEach_field (entries : list (option FieldError)) (msg : string)
  : Outcome string :=
  match entries with
  | [] => Ok msg
  | None :: _ => Throw TypeError
  | Some e :: rest => forEach_field rest (msg ++ field_line e)
  end.

(** [if (cause.body.errors) { cause.body.errors.forEach(...) }]: the
    message after it. *)
Definition field_lines (es : ErrorsField) (msg : string) : Outcome string :=
  match es with
  | ErrorsFalsy => Ok msg
  | ErrorsArray entries => forEach_field entries msg
  | ErrorsOther => Throw TypeError
  end.

Definition codeExtra (code : option string) : string :=
  if truthy code then " (" ++ fmt_opt code ++ ")" else "".

(** [function SDCClientError(cause, clientName)] *)
Definition SDCClientError (cause clientName : JsValue) : Outcome JsError :=
  c <- assert_object cause "cause" ;;
  body <- body_of c ;;
  code <- assert_scalar_optionalString (b_code body) "cause.body.code" ;;
  message <- assert_scalar_string (b_message body) "cause.body.message" ;;
  name <- assert_string clientName "clientName" ;;
  msg <- field_lines (b_errors body) message ;;
  SdcAdmError {| o_cause := cause;
                 o_message := VString (name ++ " client error" ++ codeExtra code
                                            ++ ": " ++ msg);
                 o_code := VString "SDCClient";
                 o_statusCode := VUndefined;
                 o_exitStatus := Some 1%Z |}.

(** One line of the digest of [MultiError]. *)
Definition digest_line (err : JsError) : string :=
  "    error (" ++ fmt_opt (err_code err) ++ "): " ++ fmt_opt (err_message err).

Definition digest (errs : list JsError) : string :=
  String.concat nl
    (("multiple (" ++ fmt_nat (length errs) ++ ") errors") :: map digest_line errs).

Definition first_child (errs : list JsError) : JsValue :=
  match nth_error errs 0 with
  | Some e => VObject e
  | None => VUndefined
  end.

(** [function MultiError(errs)] *)
Definition MultiError (errs : list JsError) : Outcome JsError :=
  SdcAdmError {| o_cause := first_child errs;
                 o_message := VString (digest errs);
                 o_code := VString "MultiError";
                 o_statusCode := VUndefined;
                 o_exitStatus := Some 1%Z |}.

End Errors.
Export Errors.

(** ** Plain versions *)

Module Semver.

(** The semver library is not part of the repository: what it answers to
    [satisfies] and [ltr] is taken as a parameter, among the answers of the
    collaborators.  This module holds the versions of the plain form
    [MAJOR.MINOR.PATCH] and their order, in which the statements about
    such versions are phrased. *)
Definition Version : Type := (N * N * N)%type.

Definition MAX_SAFE_INTEGER : N := 9007199254740991%N.

Definition digit_of (c : ascii) : option N :=
  let n := N_of_ascii c in
  if andb (48 <=? n)%N (n <=? 57)%N then Some (n - 48)%N else None.

Fixpoint digits (s : string) (acc : N) : option N :=
  match s with
  | EmptyString => Some acc
  | String c s' =>
      match digit_of c with
      | Some d => digits s' (10 * acc + d)%N
      | None => None
      end
  end.

(** A numeric identifier: non-empty, digits only, no leading zero, and
    not above [Number.MAX_SAFE_INTEGER]. *)
Definition numeric (s : string) : option N :=
  match s with
  | EmptyString => None
  | String "0"%char EmptyString => Some 0%N
  | String "0"%char _ => None
  | _ =>
      match digits s 0%N with
      | Some n => if (n <=? MAX_SAFE_INTEGER)%N then Some n else None
      | None => None
      end
  end.

Definition parse (s : string) : option Version :=
  match split "."%char s with
  | [a; b; c] =>
      match numeric a, numeric b, numeric c with
      | Some x, Some y, Some z => Some (x, y, z)
      | _, _, _ => None
      end
  | _ => None
  end.

Definition eqb (v w : Version) : bool :=
  let '(a, b, c) := v in
  let '(x, y, z) := w in
  andb (a =? x)%N (andb (b =? y)%N (c =? z)%N).

Definition ltb (v w : Version) : bool :=
  let '(a, b, c) := v in
  let '(x, y, z) := w in
  orb (a <? x)%N
    (andb (a =? x)%N (orb (b <? y)%N (andb (b =? y)%N (c <? z)%N))).

End Semver.

(** ** The UpdateAgentV1 procedure *)

Module UpdateAgentV1.

(** *** Data *)

Record Image : Type := {
  uuid : string;
  img_name : string;
  img_version : string
}.

(** An instance as [sdcadm.listInsts] and [change.insts] hold it; a
    missing [version] or [image] is [None]. *)
Record Inst : Type := {
  service : string;
  server : string;
  version : option string;
  image : option Image
}.

Record Change : Type := {
  c_service : string;
  c_image : Image;
  insts : list Inst
}.

(** *** What the collaborators answer *)

Inductive ListInstsResult : Type :=
| ListInstsErr (err : JsError)
| ListInstsOk (instances : list Inst).

Record PostRes : Type := { res_id : string }.

Inductive PostResult : Type :=
| PostErr (er2 : JsError)
| PostOk (res : PostRes).

Record EventError : Type := { ee_message : option string }.
Record TaskEvent : Type := { ev_error : option EventError }.
Record HistoryEntry : Type := { event : option TaskEvent }.
Record Task : Type := { status : string; history : list HistoryEntry }.

Inductive TaskResult : Type :=
| TaskErr (err : JsError)
| TaskOk (task : Task).

Record Agent : Type := { name : string; image_uuid : string }.
Record Server : Type := { agents : list Agent }.

Inductive ServerResult : Type :=
| ServerErr (err : JsError)
| ServerOk (srv : Server).

(** The answers one Change receives.  The work queue numbers its entries
    from 1; [post n] is the answer to the install-agent request of entry
    [n], [getTask n k] and [getServer n k] the answer to the [k]-th query
    that entry's poll loop makes.  [semver_satisfies v r] and
    [semver_ltr v r] are what the semver library answers to
    [semver.satisfies(v, r)], which returns a boolean, and to
    [semver.ltr(v, r)], which returns a boolean or throws. *)
Record World : Type := {
  listInsts : ListInstsResult;
  post : nat -> PostResult;
  getTask : nat -> nat -> TaskResult;
  getServer : nat -> nat -> ServerResult;
  semver_satisfies : string -> string -> bool;
  semver_ltr : string -> string -> Outcome bool
}.

(** The calls made on the collaborators and the timers armed, in order;
    [EvPost n s i] is the request [POST /servers/s/install-agent] with
    [image_uuid: i] made for the queue entry [n]. *)
Inductive Event : Type :=
| EvListInsts
| EvPost (entry : nat) (server_uuid : string) (img_uuid : string)
| EvGetTask (entry : nat) (taskid : string)
| EvGetServer (entry : nat) (server_uuid : string)
| EvTimer (entry : nat) (ms : nat).

(** *** Constants *)

Definition MIN_CNAPI_VERSION : string := "20150407T172714Z".
Definition CN_CONCUR : nat := 10.
Definition limit : nat := 60.
Definition interval : nat := 5000.

(** *** Helpers for the JavaScript idioms *)

(** A property read on a value that may be [undefined]. *)
Definition deref {A : Type} (o : option A) : Outcome A :=
  match o with
  | Some a => Ok a
  | None => Throw TypeError
  end.

(** [parts[parts.length - 2]] *)
Definition second_to_last (parts : list string) : option string :=
  if (length parts <? 2)%nat then None
  else nth_error parts (length parts - 2).

(** [a > b] on a string and a string-or-undefined: with [undefined] the
    comparison is numeric on [NaN] and is false. *)
Definition js_gt (a : string) (b : option string) : bool :=
  match b with
  | Some s => String.ltb s a
  | None => false
  end.

(** [new UpdateError(message)] with a string argument. *)
Definition newUpdateError (message : string) : Outcome JsError :=
  UpdateError (VString message) VUndefined.

(** *** checkMinCNAPIVersion *)

Inductive Next : Type :=
| NextOk
| NextErr (err : JsError).

(** The callback of [sdcadm.listInsts]: what is handed to [next] and the
    value assigned to [cnAgentInsts]. *)
Definition checkMinCNAPIVersion (r : ListInstsResult) : Outcome (Next * list Inst) :=
  match r with
  | ListInstsErr err => Ok (NextErr err, [])
  | ListInstsOk instances =>
      let cnapiInsts := filter (fun i => service i =? "cnapi") instances in
      let cnAgentInsts := filter (fun i => service i =? "cn-agent") instances in
      i0 <- deref (nth_error cnapiInsts 0) ;;
      v <- deref (version i0) ;;
      let parts := split "-"%char v in
      let curImg := second_to_last parts in
      if js_gt MIN_CNAPI_VERSION curImg then
        e <- newUpdateError
               ("image for cnapi is too old for `sdcadm update agents` "
                ++ "(min image build date is " ++ dq ++ MIN_CNAPI_VERSION ++ dq
                ++ " current image build date is" ++ dq ++ fmt_opt curImg ++ dq
                ++ ")") ;;
        Ok (NextErr e, cnAgentInsts)
      else Ok (NextOk, cnAgentInsts)
  end.

(** *** The two poll loops *)

Inductive PollStep : Type :=
| Again
| Done (er : option JsError).

(** The callback of [sdcadm.cnapi.getTask] inside [_waitTask], [counter]
    being its value after the increment. *)
Definition _waitTask_cb (taskid : string) (counter : nat) (r : TaskResult)
  : Outcome PollStep :=
  match r with
  | TaskErr err =>
      e <- SDCClientError (VObject err) (VString "cnapi") ;;
      Ok (Done (Some e))
  | TaskOk task =>
      if status task =? "failure" then
        h0 <- deref (nth_error (history task) 0) ;;
        ev <- deref (event h0) ;;
        let msg := "Task " ++ taskid ++ " failed" in
        let msg := match ev_error ev with
                   | Some er => msg ++ " with error: " ++ fmt_opt (ee_message er)
                   | None => msg
                   end in
        e <- newUpdateError msg ;;
        Ok (Done (Some e))
      else if status task =? "complete" then Ok (Done None)
      else if (counter <? limit)%nat then Ok Again
      else
        e <- newUpdateError ("Timeout(5m) waiting for task " ++ taskid) ;;
        Ok (Done (Some e))
  end.

(** The callback of [sdcadm.cnapi.getServer] inside [_waitServer]. *)
Definition _waitServer_cb (change : Change) (server_uuid : string) (counter : nat)
  (r : ServerResult) : Outcome PollStep :=
  match r with
  | ServerErr err =>
      e <- SDCClientError (VObject err) (VString "cnapi") ;;
      Ok (Done (Some e))
  | ServerOk srv =>
      theAgent <- deref (nth_error
                           (filter (fun a => name a =? "cn-agent") (agents srv)) 0) ;;
      if image_uuid theAgent =? uuid (c_image change) then Ok (Done None)
      else if (counter <? limit)%nat then Ok Again
      else
        e <- newUpdateError ("Timeout(5m) waiting for cn-agent update on server "
                             ++ server_uuid) ;;
        Ok (Done (Some e))
  end.

(** One run of a poll loop: what reached [_cb] (or the exception that
    escaped), how many queries were made, and the timers armed. *)
Record PollRun : Type := {
  outcome : Outcome (option JsError);
  queries : nat;
  timers : list nat
}.

(** [waitUntilTaskCompletes(taskid, _cb)], [q k] being the answer to the
    [k]-th query.  [fuel] bounds the unfolding of the loop; the loop itself
    has no such bound other than [limit]. *)
Fixpoint _waitTask (fuel : nat) (taskid : string) (q : nat -> TaskResult)
  (counter : nat) (armed : list nat) : option PollRun :=
  match fuel with
  | O => None
  | S fuel' =>
      let counter := counter + 1 in
      match _waitTask_cb taskid counter (q counter) with
      | Ok Again => _waitTask fuel' taskid q counter (armed ++ [interval])
      | Ok (Done er) => Some {| outcome := Ok er; queries := counter; timers := armed |}
      | Throw t => Some {| outcome := Throw t; queries := counter; timers := armed |}
      end
  end.

Definition waitUntilTaskCompletes (fuel : nat) (taskid : string)
  (q : nat -> TaskResult) : option PollRun :=
  _waitTask fuel taskid q 0 [].

(** [waitUntilAgentsChange(server_uuid, _cb)] *)
Fixpoint _waitServer (fuel : nat) (change : Change) (server_uuid : string)
  (q : nat -> ServerResult) (counter : nat) (armed : list nat) : option PollRun :=
  match fuel with
  | O => None
  | S fuel' =>
      let counter := counter + 1 in
      match _waitServer_cb change server_uuid counter (q counter) with
      | Ok Again => _waitServer fuel' change server_uuid q counter (armed ++ [interval])
      | Ok (Done er) => Some {| outcome := Ok er; queries := counter; timers := armed |}
      | Throw t => Some {| outcome := Throw t; queries := counter; timers := armed |}
      end
  end.

Definition waitUntilAgentsChange (fuel : nat) (change : Change) (server_uuid : string)
  (q : nat -> ServerResult) : option PollRun :=
  _waitServer fuel change server_uuid q 0 [].

(** *** upAgent, the worker of the queue *)

(** What [upAgent] has done when it first returns: pushed one error onto
    [errs] and called [cb()], or sent the install-agent request. *)
Inductive Started : Type :=
| Recorded (e : JsError)
| Dispatched.

(** The suspended rest of an [upAgent] call: which answer it waits for.
    [counter] counts the queries made so far, the pending one included. *)
Inductive Chain : Type :=
| AwaitPost (arg : Inst)
| AwaitTask (arg : Inst) (taskid : string) (counter : nat)
| AwaitServer (arg : Inst) (counter : nat).

(** What a resumed chain does: wait again, or finish by pushing [pushed]
    (if any) onto [errs] and calling [cb(cbarg)]. *)
Inductive ChainStep : Type :=
| Continue (c : Chain) (evs : list Event)
| Finish (pushed : option JsError) (cbarg : option JsError).

(** [!cnAgentInstance.version] *)
Definition falsy (v : option string) : bool := negb (truthy v).

Section FanOut.

Variable change : Change.
Variable cnAgentInsts : list Inst.
Variable w : World.

(** [semver.satisfies('1.4.0', v) || semver.ltr('1.4.0', v)] *)
Definition version_gate (v : string) : Outcome bool :=
  if semver_satisfies w "1.4.0" v then Ok true
  else semver_ltr w "1.4.0" v.

Definition cnAgentInstance (arg : Inst) : option Inst :=
  if service arg =? "cn-agent" then Some arg
  else nth_error (filter (fun i => server i =? server arg) cnAgentInsts) 0.

(** [upAgent(arg, cb)] up to its first return. *)
Definition upAgent (arg : Inst) : Outcome Started :=
  match image arg with
  | None =>
      e <- newUpdateError ("Unknown image for " ++ service arg ++ " in server "
                           ++ server arg) ;;
      Ok (Recorded e)
  | Some _ =>
      inst <- deref (cnAgentInstance arg) ;;
      if falsy (version inst) then
        e <- newUpdateError ("Unknown version for cn-agent in server "
                             ++ server arg) ;;
        Ok (Recorded e)
      else
        pass <- version_gate (fmt_opt (version inst)) ;;
        if negb pass then
          e <- newUpdateError
                 ("Invalid cn-agent version in server " ++ server arg
                  ++ ". Minimal version to run agent updates is 1.4.0 "
                  ++ "(current version is " ++ fmt_opt (version inst) ++ ")") ;;
          Ok (Recorded e)
        else Ok Dispatched
  end.

(** [cnapiCb(er2, res)], the callback of the install-agent request of the
    queue entry [n]. *)
Definition cnapiCb (n : nat) (arg : Inst) (r : PostResult) : Outcome ChainStep :=
  match r with
  | PostErr er2 =>
      e <- SDCClientError (VObject er2) (VString "cnapi") ;;
      Ok (Finish None (Some e))
  | PostOk res =>
      if service arg =? "cn-agent"
      then Ok (Continue (AwaitServer arg 1) [EvGetServer n (server arg)])
      else Ok (Continue (AwaitTask arg (res_id res) 1) [EvGetTask n (res_id res)])
  end.

(** The answer a suspended chain waits for arrives. *)
Definition resume (n : nat) (c : Chain) : Outcome ChainStep :=
  match c with
  | AwaitPost arg => cnapiCb n arg (post w n)
  | AwaitTask arg taskid counter =>
      ps <- _waitTask_cb taskid counter (getTask w n counter) ;;
      Ok (match ps with
          | Again => Continue (AwaitTask arg taskid (counter + 1))
                       [EvTimer n interval; EvGetTask n taskid]
          | Done er3 => Finish er3 None
          end)
  | AwaitServer arg counter =>
      ps <- _waitServer_cb change (server arg) counter (getServer w n counter) ;;
      Ok (match ps with
          | Again => Continue (AwaitServer arg (counter + 1))
                       [EvTimer n interval; EvGetServer n (server arg)]
          | Done er3 => Finish er3 None
          end)
  end.

(** *** vasync.queue *)

(** Modelled from the spec: the work queue of vasync, which is not part of
    the repository's sources.  Section 4.3: a worker function and a
    concurrency limit; items wait in line in FIFO order; at most
    [concurrency] worker invocations are in progress; the argument a worker
    hands to its [cb] goes to the per-item callback, of which this program
    registers none; ['end'] is emitted once the queue is closed and every
    item is done.  An uncaught exception ends everything. *)
Record Queue : Type := mkQueue {
  queued : list (nat * Inst);
  pending : list (nat * Chain);
  errs : list JsError;
  cbargs : list JsError;
  log : list Event;
  thrown : option Thrown
}.

Definition opt_list {A : Type} (o : option A) : list A :=
  match o with
  | Some a => [a]
  | None => []
  end.

(** Start waiting items while a slot is free.  An item whose worker
    returns at once frees its slot at once. *)
Fixpoint dispatchLoop (concurrency : nat) (todo : list (nat * Inst)) (q : Queue)
  : Queue :=
  match todo with
  | [] => mkQueue [] (pending q) (errs q) (cbargs q) (log q) (thrown q)
  | (n, arg) :: rest =>
      if (length (pending q) <? concurrency)%nat then
        match upAgent arg with
        | Throw t =>
            mkQueue rest (pending q) (errs q) (cbargs q) (log q) (Some t)
        | Ok (Recorded e) =>
            dispatchLoop concurrency rest
              (mkQueue rest (pending q) (errs q ++ [e]) (cbargs q) (log q) (thrown q))
        | Ok Dispatched =>
            dispatchLoop concurrency rest
              (mkQueue rest (pending q ++ [(n, AwaitPost arg)]) (errs q) (cbargs q)
                       (log q ++ [EvPost n (server arg) (uuid (c_image change))])
                       (thrown q))
        end
      else mkQueue todo (pending q) (errs q) (cbargs q) (log q) (thrown q)
  end.

Definition dispatchNext (concurrency : nat) (q : Queue) : Queue :=
  dispatchLoop concurrency (queued q) q.

Definition remove_nth {A : Type} (k : nat) (l : list A) : list A :=
  firstn k l ++ skipn (S k) l.

Definition replace_nth {A : Type} (k : nat) (a : A) (l : list A) : list A :=
  firstn k l ++ a :: skipn (S k) l.

(** Nothing more can happen: an exception escaped, or no chain is waiting. *)
Definition idle (q : Queue) : bool :=
  match thrown q, pending q with
  | Some _, _ => true
  | None, [] => true
  | None, _ :: _ => false
  end.

(** The answer awaited by the [choice]-th pending chain (modulo their
    number) arrives. *)
Definition step (concurrency : nat) (choice : nat) (q : Queue) : Queue :=
  if idle q then q
  else
    let k := choice mod length (pending q) in
    match nth_error (pending q) k with
    | None => q
    | Some (n, c) =>
        match resume n c with
        | Throw t =>
            mkQueue (queued q) (pending q) (errs q) (cbargs q) (log q) (Some t)
        | Ok (Continue c' evs) =>
            mkQueue (queued q) (replace_nth k (n, c') (pending q)) (errs q)
                    (cbargs q) (log q ++ evs) (thrown q)
        | Ok (Finish pushed cbarg) =>
            dispatchNext concurrency
              (mkQueue (queued q) (remove_nth k (pending q))
                       (errs q ++ opt_list pushed) (cbargs q ++ opt_list cbarg)
                       (log q) (thrown q))
        end
    end.

(** [sched t] picks the chain whose answer arrives at the [t]-th step. *)
Fixpoint run (concurrency : nat) (fuel : nat) (sched : nat -> nat) (t : nat)
  (q : Queue) : Queue :=
  match fuel with
  | O => q
  | S fuel' =>
      if idle q then q
      else run concurrency fuel' sched (S t) (step concurrency (sched t) q)
  end.

(** [queue.push(change.insts)] on a fresh queue. *)
Definition push (concurrency : nat) (errs0 : list JsError) (items : list Inst) : Queue :=
  dispatchNext concurrency
    (mkQueue (combine (seq 1 (length items)) items) [] errs0 [] [] None).

(** The state of the queue of [updateAgentOnServers] after [fuel] steps. *)
Definition fanOut (fuel : nat) (sched : nat -> nat) (errs0 : list JsError) : Queue :=
  run CN_CONCUR fuel sched 0 (push CN_CONCUR errs0 (insts change)).

End FanOut.

(** *** The 'end' handler, the pipeline and execute *)

(** What [execute] or one of its stages comes to: its continuation called
    with an error or without, an uncaught exception, or still at work when
    the fuel of the model ran out. *)
Inductive Result : Type :=
| Callback (err : option JsError)
| Uncaught (t : Thrown)
| Unfinished.

(** [function done()], the handler of the queue's ['end'] event. *)
Definition done (errs : list JsError) : Outcome Next :=
  match errs with
  | [] => Ok NextOk
  | _ :: _ => e <- MultiError errs ;; Ok (NextErr e)
  end.

Definition result_of_next (n : Outcome Next) : Result :=
  match n with
  | Ok NextOk => Callback None
  | Ok (NextErr e) => Callback (Some e)
  | Throw t => Uncaught t
  end.

Definition queue_result (q : Queue) : Result :=
  match thrown q with
  | Some t => Uncaught t
  | None =>
      match pending q, queued q with
      | [], [] => result_of_next (done (errs q))
      | _, _ => Unfinished
      end
  end.

(** The outcome of one stage together with the procedure's [errs] array
    and the calls made. *)
Record Stage : Type := mkStage {
  result : Result;
  errs_after : list JsError;
  calls : list Event
}.

(** [updateAgentOnServers(_, next)] *)
Definition updateAgentOnServers (change : Change) (cnAgentInsts : list Inst)
  (w : World) (fuel : nat) (sched : nat -> nat) (errs0 : list JsError) : Stage :=
  let q := fanOut change cnAgentInsts w fuel sched errs0 in
  mkStage (queue_result q) (errs q) (log q).

(** [updateAgent(change, nextSvc)]: the [vasync.pipeline] of the two
    stages, the second running only if the first called [next()] without
    an error (section 4.5, step 1: fail fast, do not dispatch any work). *)
Definition updateAgent (change : Change) (w : World) (fuel : nat)
  (sched : nat -> nat) (errs0 : list JsError) : Stage :=
  match checkMinCNAPIVersion (listInsts w) with
  | Throw t => mkStage (Uncaught t) errs0 [EvListInsts]
  | Ok (NextErr e, _) => mkStage (Callback (Some e)) errs0 [EvListInsts]
  | Ok (NextOk, cnAgentInsts) =>
      let s := updateAgentOnServers change cnAgentInsts w fuel sched errs0 in
      mkStage (result s) (errs_after s) (EvListInsts :: calls s)
  end.

(** The whole run of [execute]: its outcome, and for each Change that was
    started the calls it made, tagged with the Change's position. *)
Record Execution : Type := mkExecution {
  final : Result;
  errs_final : list JsError;
  trace : list (nat * Event)
}.

(** Modelled from the spec: [vasync.forEachPipeline], which is not part of
    the repository's sources.  Section 4.5, step 5: the inputs are
    processed one at a time, strictly in order, and the callback receives
    the first error encountered, or success.  This is
    [vasync.forEachPipeline({inputs, func: updateAgent}, callback)] from the
    [k]-th input on. *)
Fixpoint forEachPipeline (worlds : nat -> World) (fuel : nat)
  (scheds : nat -> nat -> nat) (k : nat) (changes : list Change)
  (errs0 : list JsError) : Execution :=
  match changes with
  | [] => mkExecution (Callback None) errs0 []
  | c :: rest =>
      let s := updateAgent c (worlds k) fuel (scheds k) errs0 in
      let here := map (pair k) (calls s) in
      match result s with
      | Callback None =>
          let e := forEachPipeline worlds fuel scheds (S k) rest (errs_after s) in
          mkExecution (final e) (errs_final e) (here ++ trace e)
      | r => mkExecution r (errs_after s) here
      end
  end.

(** [UpdateAgentV1.prototype.execute]; [var errs = []] starts empty. *)
Definition execute (changes : list Change) (worlds : nat -> World) (fuel : nat)
  (scheds : nat -> nat -> nat) : Execution :=
  forEachPipeline worlds fuel scheds 0 changes [].

End UpdateAgentV1.

(** * Vocabulary of the statements *)

Module Vocabulary.
Import UpdateAgentV1.

Definition scalar_string (v : Scalar) : option string :=
  match v with
  | JString s => Some s
  | _ => None
  end.

(** The entries of [body.errors] when the loop over them can run: none
    for a falsy value, those of an array without a [null] entry. *)
Fixpoint all_objects (entries : list (option FieldError)) : option (list FieldError) :=
  match entries with
  | [] => Some []
  | None :: _ => None
  | Some e :: rest =>
      match all_objects rest with
      | Some l => Some (e :: l)
      | None => None
      end
  end.

Definition listed (es : ErrorsField) : option (list FieldError) :=
  match es with
  | ErrorsFalsy => Some []
  | ErrorsArray entries => all_objects entries
  | ErrorsOther => None
  end.

(** A body from which [SDCClientError] can be built: a string message, a
    code that is absent or a string, and errors that are absent or an
    array of objects. *)
Definition well_shaped (b : Body) : Prop :=
  (exists m, b_message b = JString m) /\
  (b_code b = JUndefined \/ exists c, b_code b = JString c) /\
  (exists l, listed (b_errors b) = Some l).




(** A poll loop over the results [cb k] of its [k]-th callback: the common
    shape of [_waitTask] and [_waitServer]. *)
Fixpoint poll_loop (cb : nat -> Outcome PollStep) (fuel counter : nat)
  (armed : list nat) : option PollRun :=
  match fuel with
  | O => None
  | S fuel' =>
      let counter := counter + 1 in
      match cb counter with
      | Ok Again => poll_loop cb fuel' counter (armed ++ [interval])
      | Ok (Done er) => Some {| outcome := Ok er; queries := counter; timers := armed |}
      | Throw t => Some {| outcome := Throw t; queries := counter; timers := armed |}
      end
  end.

(** What a callback result means for the loop: nothing yet, or its end. *)
Definition settle (s : Outcome PollStep) : option (Outcome (option JsError)) :=
  match s with
  | Ok Again => None
  | Ok (Done er) => Some (Ok er)
  | Throw t => Some (Throw t)
  end.

(** A task answer that is neither an error nor a terminal status. *)
Definition task_pending (r : TaskResult) : bool :=
  match r with
  | TaskOk task => negb (status task =? "failure") && negb (status task =? "complete")
  | TaskErr _ => false
  end.

Definition cn_agent_entries (srv : Server) : list Agent :=
  filter (fun a => name a =? "cn-agent") (agents srv).

(** A server answer whose cn-agent entry does not yet show the target image. *)
Definition server_pending (change : Change) (r : ServerResult) : bool :=
  match r with
  | ServerOk srv =>
      match cn_agent_entries srv with
      | a :: _ => negb (image_uuid a =? uuid (c_image change))
      | [] => false
      end
  | ServerErr _ => false
  end.

Definition timeout_task (taskid : string) : JsError :=
  MkSdcAdmError "Update" ("Timeout(5m) waiting for task " ++ taskid) (Some 2%Z).

Definition timeout_server (server_uuid : string) : JsError :=
  MkSdcAdmError "Update"
    ("Timeout(5m) waiting for cn-agent update on server " ++ server_uuid)
    (Some 2%Z).

(** The text appended to 'Task <id> failed'. *)
Definition failure_detail (ev : TaskEvent) : string :=
  match ev_error ev with
  | Some er => " with error: " ++ fmt_opt (ee_message er)
  | None => ""
  end.

(** An answer of [getServer] that the poll step can handle. *)
Definition server_answer_ok (r : ServerResult) : Prop :=
  match r with
  | ServerOk srv => cn_agent_entries srv <> []
  | ServerErr (ClientError (Some b)) => well_shaped b
  | ServerErr _ => False
  end.

(** The queue entries of a Change: its instances numbered from 1. *)
Definition entries (items : list Inst) : list (nat * Inst) :=
  combine (seq 1 (length items)) items.

(** An upper bound on the answers a chain still waits for. *)
Definition cost (c : Chain) : nat :=
  match c with
  | AwaitPost _ => S (S limit)
  | AwaitTask _ _ k => S (limit - k)
  | AwaitServer _ k => S (limit - k)
  end.

Definition pending_cost (l : list (nat * Chain)) : nat :=
  list_sum (map (fun p => cost (snd p)) l).

Definition measure (q : Queue) : nat :=
  pending_cost (pending q) + S (S limit) * length (queued q).

(** Every install-agent request in the log was made for a started entry
    that passed the checks of [upAgent]. *)
Definition posts_from (cnAgentInsts : list Inst) (w : World)
  (started : list (nat * Inst)) (q : Queue) : Prop :=
  forall m s i, In (EvPost m s i) (log q) ->
    exists a, In (m, a) started /\ upAgent cnAgentInsts w a = Ok Dispatched /\
              s = server a.

(** Unless an exception escaped, the error of every started entry that
    failed a check of [upAgent] is in [errs]. *)
Definition recorded_from (cnAgentInsts : list Inst) (w : World)
  (started : list (nat * Inst)) (q : Queue) : Prop :=
  thrown q = None ->
  forall m a e, In (m, a) started -> upAgent cnAgentInsts w a = Ok (Recorded e) ->
    In e (errs q).

(** The install-agent request of every started entry that passed the
    checks of [upAgent] is in the log. *)
Definition dispatched_from (change : Change) (cnAgentInsts : list Inst)
  (w : World) (started : list (nat * Inst)) (q : Queue) : Prop :=
  forall m a, In (m, a) started -> upAgent cnAgentInsts w a = Ok Dispatched ->
    In (EvPost m (server a) (uuid (c_image change))) (log q).

(** The invariant of the work queue over the entries [all], with
    concurrency [c]: the waiting entries are a tail of [all]; at most [c]
    chains are pending; entries wait only while [c] chains are pending. *)
Definition Inv (change : Change) (cnAgentInsts : list Inst) (w : World)
  (c : nat) (all : list (nat * Inst)) (q : Queue) : Prop :=
  exists started,
    all = (started ++ queued q)%list /\
    length (pending q) <= c /\
    (thrown q = None -> queued q <> [] -> c <= length (pending q)) /\
    posts_from cnAgentInsts w started q /\
    recorded_from cnAgentInsts w started q /\
    dispatched_from change cnAgentInsts w started q.

(** The calls of the [k]-th Change, tagged with [k]. *)
Definition tagged (k : nat) (s : Stage) : list (nat * Event) :=
  map (pair k) (calls s).

(** The stage of the [k]-th Change when [errs] is empty at its start. *)
Definition own (worlds : nat -> World) (fuel : nat) (scheds : nat -> nat -> nat)
  (k : nat) (c : Change) : Stage :=
  updateAgent c (worlds k) fuel (scheds k) [].

(** The calls of the Changes [cs], the first of which has position [from],
    one Change after the other. *)
Fixpoint own_calls (worlds : nat -> World) (fuel : nat) (scheds : nat -> nat -> nat)
  (from : nat) (cs : list Change) : list (nat * Event) :=
  match cs with
  | [] => []
  | c :: rest =>
      (tagged from (own worlds fuel scheds from c)
         ++ own_calls worlds fuel scheds (S from) rest)%list
  end.


(** Calls tagged with the position of their Change appear in the order
    of the positions. *)
Definition in_order (l : list (nat * Event)) : Prop :=
  forall i j a b, i < j -> nth_error l i = Some a -> nth_error l j = Some b ->
    fst a <= fst b.

End Vocabulary.
Import UpdateAgentV1.
Import Vocabulary.

(** * Sample inputs *)

Module Samples.

Definition eleven_nodes : Change :=
  let img := {| uuid := "img-1"; img_name := "vm-agent"; img_version := "2.0.0" |} in
  {| c_service := "vm-agent"; c_image := img;
     insts := map (fun s => {| service := "cn-agent"; server := s;
                               version := Some "1.4.0"; image := Some img |})
                ["n1"; "n2"; "n3"; "n4"; "n5"; "n6"; "n7"; "n8"; "n9"; "n10"; "n11"] |}.

(** A table of answers of semver: on two plain versions those of the
    library, for which a plain version used as a range denotes that
    version alone.  The samples hold plain versions only; what the table
    holds for any other string is of no account. *)
Definition plain_satisfies (v r : string) : bool :=
  match Semver.parse v, Semver.parse r with
  | Some pv, Some pr => Semver.eqb pv pr
  | _, _ => false
  end.

Definition plain_ltr (v r : string) : Outcome bool :=
  match Semver.parse v, Semver.parse r with
  | Some pv, Some pr => Ok (Semver.ltb pv pr)
  | _, _ => Throw TypeError
  end.

Definition quiet_world : World :=
  {| listInsts := ListInstsOk [];
     post := fun _ => PostOk {| res_id := "t" |};
     getTask := fun _ _ => TaskOk {| status := "running"; history := [] |};
     getServer := fun _ _ => ServerOk {| agents := [] |};
     semver_satisfies := plain_satisfies;
     semver_ltr := plain_ltr |}.

Definition img1 : Image :=
  {| uuid := "img-1"; img_name := "cn-agent"; img_version := "2.0.0" |}.

(** The two nodes of the scenario of the specification. *)
Definition node_a : Inst :=
  {| service := "cn-agent"; server := "node-a"; version := Some "1.4.0";
     image := Some img1 |}.

Definition node_b : Inst :=
  {| service := "cn-agent"; server := "node-b"; version := Some "1.2.0";
     image := Some img1 |}.

Definition two_nodes : Change :=
  {| c_service := "cn-agent"; c_image := img1; insts := [node_a; node_b] |}.

Definition cnapi_new : Inst :=
  {| service := "cnapi"; server := "headnode";
     version := Some "master-20150501T000000Z-gabcdef0"; image := None |}.


(** A world in which every server shows the new image at the second query. *)
Definition good_world : World :=
  {| listInsts := ListInstsOk [cnapi_new; node_a; node_b];
     post := fun _ => PostOk {| res_id := "t1" |};
     getTask := fun _ _ => TaskOk {| status := "complete"; history := [] |};
     getServer := fun _ k =>
       ServerOk {| agents := [{| name := "cn-agent";
                                 image_uuid := if (2 <=? k)%nat then "img-1"
                                               else "img-0" |}] |};
     semver_satisfies := plain_satisfies;
     semver_ltr := plain_ltr |}.


(** A world in which the install-agent request is answered with an error. *)
Definition refused : JsError :=
  ClientError (Some {| b_code := JString "InternalError";
                       b_message := JString "connect ECONNREFUSED";
                       b_errors := ErrorsFalsy |}).

Definition refusing_world : World :=
  {| listInsts := ListInstsOk [cnapi_new; node_a];
     post := fun _ => PostErr refused;
     getTask := getTask good_world;
     getServer := getServer good_world;
     semver_satisfies := plain_satisfies;
     semver_ltr := plain_ltr |}.

Definition one_node : Change :=
  {| c_service := "cn-agent"; c_image := img1; insts := [node_a] |}.



End Samples.
Import Samples.

(** * Further code of the repository

  The helpers of the error module and of common.js, the summary of the
  procedure, the nfs-volumes subcommand and the yes/no prompt.  In the
  subcommand and in the prompt what is written is part of what is
  observed, so the messages are kept, as events in the order they are
  written. *)

(** ** Helpers of the error classes *)

Module ErrorHelpers.

Definition LF : ascii := "010"%char.
Definition CR : ascii := "013"%char.

(** [c] in front of the first field. *)
Definition cons_head (c : ascii) (l : list string) : list string :=
  match l with
  | h :: t => String c h :: t
  | [] => [String c EmptyString]
  end.

(** [s.split(/\r?\n/g)]: the fields between line ends, a line end being a
    line feed or a carriage return followed by a line feed. *)
Fixpoint split_lines (s : string) : list string :=
  match s with
  | EmptyString => [EmptyString]
  | String c s' =>
      if Ascii.eqb c LF then EmptyString :: split_lines s'
      else match s' with
           | String d s'' =>
               if andb (Ascii.eqb c CR) (Ascii.eqb d LF)
               then EmptyString :: split_lines s''
               else cons_head c (split_lines s')
           | EmptyString => cons_head c (split_lines s')
           end
  end.

(** [if (!indent) indent = '    '] *)
Definition indentation (indent : option string) : string :=
  if truthy indent then fmt_opt indent else "    ".

(** [function _indent(s, indent)] *)
Definition _indent (s : string) (indent : option string) : string :=
  let indent := indentation indent in
  indent ++ String.concat (nl ++ indent) (split_lines s).

(** JavaScript truthiness of an argument. *)
Definition truthy_value (v : JsValue) : bool :=
  match v with
  | VUndefined => false
  | VString s => negb (s =? "")
  | VNumber z => negb (z =? 0)%Z
  | VObject _ => true
  end.

(** [function sdcClientCb()], the function [sdcClientErrWrap(cb, clientName)]
    returns, applied to [arguments]: the arguments [cb] is applied to. *)
Definition sdcClientErrWrap (clientName : JsValue) (arguments : list JsValue)
  : Outcome (list JsValue) :=
  match arguments with
  | a0 :: rest =>
      if truthy_value a0 then
        e <- SDCClientError a0 clientName ;;
        Ok (VObject e :: rest)
      else Ok arguments
  | [] => Ok arguments
  end.

End ErrorHelpers.

(** ** The summary of the procedure *)

Module Summary.

(** [function UpdateAgentV1(options)]: [options.changes] must be an array
    of objects; the value of [this.changes]. *)
Definition UpdateAgentV1 (changes : option (list Change)) : Outcome (list Change) :=
  match changes with
  | Some l => Ok l
  | None => Throw (AssertionError "options.changes")
  end.

(** [UpdateAgentV1.prototype.summarize] *)
Definition summarize (changes : list Change) : Outcome string :=
  c0 <- deref (nth_error changes 0) ;;
  let img := c_image c0 in
  let out := ["update " ++ dq ++ c_service c0 ++ dq ++ " service to image "
              ++ uuid img ++ " (" ++ img_name img ++ "@" ++ img_version img ++ ")"] in
  Ok (String.concat nl out).

End Summary.

(** ** Helpers of common.js *)

Module Common.

(** [function indent(s, indentation)] *)
Definition indent (s : string) (indentation : option string) : string :=
  let indentation := ErrorHelpers.indentation indentation in
  indentation ++ String.concat (nl ++ indentation) (ErrorHelpers.split_lines s).

Definition MAX_SAFE_INTEGER : Z := 9007199254740991%Z.

(** [String(n)] for a safe integer, one between [-(2^53 - 1)] and
    [2^53 - 1]: its decimal digits, after the sign if it is negative.
    Other numbers are printed in ways that are not modelled (rounded, or
    with an exponent), and have no text here. *)
Definition String_of (n : Z) : option string :=
  if (Z.abs n <=? MAX_SAFE_INTEGER)%Z
  then Some (NilZero.string_of_int (Z.to_int n))
  else None.

(** [function zeroPad(n, width)]; [fuel] bounds the unfolding of the
    [while] loop, [None] meaning that it was used up, or that [n] is a
    number whose text is not modelled. *)
Fixpoint zeroPad_loop (fuel : nat) (s : string) (width : Z) : option string :=
  if (Z.of_nat (String.length s) <? width)%Z then
    match fuel with
    | O => None
    | S fuel' => zeroPad_loop fuel' ("0" ++ s) width
    end
  else Some s.

Definition zeroPad (fuel : nat) (n : Z) (width : Z) : option string :=
  match String_of n with
  | Some s => zeroPad_loop fuel s width
  | None => None
  end.

(** An object as the list of its own properties, in insertion order. *)
Definition Obj (V : Type) : Type := list (string * V).

(** [o[k]] *)
Fixpoint get {V : Type} (k : string) (o : Obj V) : option V :=
  match o with
  | [] => None
  | (k', v) :: rest => if k' =? k then Some v else get k rest
  end.

(** [o[k] = v] *)
Fixpoint set {V : Type} (k : string) (v : V) (o : Obj V) : Obj V :=
  match o with
  | [] => [(k, v)]
  | (k', v') :: rest =>
      if k' =? k then (k, v) :: rest else (k', v') :: set k v rest
  end.

(** [Object.keys(o)] *)
Definition keys {V : Type} (o : Obj V) : list string := map fst o.

(** [function objCopy(obj, target)]: the target after the copy, which is
    also the value returned. *)
Definition objCopy {V : Type} (obj : Obj V) (target : option (Obj V)) : Obj V :=
  let target := match target with Some t => t | None => [] end in
  fold_left (fun t k => match get k obj with
                        | Some v => set k v t
                        | None => t
                        end)
            (keys obj) target.

End Common.

(** ** The nfs-volumes subcommand *)

Module NfsVolumes.
Import Common.

(** *** Data *)

(** A value of the metadata of the SAPI application. *)
Inductive MetaVal : Type :=
| MBool (b : bool)
| MStr (s : string).

Record App : Type := {
  app_uuid : string;
  metadata : Obj MetaVal
}.

(** The options of the subcommand; an option that was not given is [false]. *)
Record Opts : Type := {
  help : bool;
  force : bool;
  disable : bool
}.

(** An error handed to a continuation: [new Error(message)], an error
    object received from a collaborator or built by an error class, or the
    error [vasync.forEachParallel] builds from the errors of its
    operations. *)
Inductive Failure : Type :=
| Plain (message : string)
| Passed (e : JsError)
| Several (errors : list JsError).

Record ImageInfo : Type := { i_version : option string }.
Record VmInfo : Type := { v_uuid : option string }.

(** One element of [results.successes]. *)
Record SvcImages : Type := {
  serviceName : string;
  images : list ImageInfo;
  vms : list VmInfo
}.

Record VersionInfo : Type := {
  vi_serviceName : string;
  vi_version : option string;
  vi_vmUuid : option string
}.

Record ServerInfo : Type := {
  s_uuid : string;
  boot_platform : string
}.

(** What [sdcadm.getImgsForSvcVms] calls back with for one service. *)
Inductive SvcAnswer : Type :=
| SvcErr (getErr : JsError)
| SvcOk (imgs : list ImageInfo) (vms : list VmInfo).

Inductive ServersAnswer : Type :=
| ServersErr (e : JsError)
| ServersOk (servers : list ServerInfo).

(** The two arguments [sapiClient.updateApplication] calls back with. *)
Record UpdateAnswer : Type := {
  sapiErr : option JsError;
  updatedSdcApp : option App
}.

Record World : Type := {
  sdc : App;
  getImgsForSvcVms : string -> SvcAnswer;
  completion : nat -> nat;
  serversAnswer : ServersAnswer;
  updateAnswer : UpdateAnswer
}.

(** What the subcommand does that can be seen from outside, in order. *)
Inductive Event : Type :=
| Progress (msg : string)
| GetImages (names : list string)
| ListServers
| UpdateApplication (uuid : string) (flag : string) (value : bool)
| Help (subcmd : string).

(** How the subcommand ends: the help was shown, or [cb] was called. *)
Inductive Ended : Type :=
| Helped
| Called (err : option Failure).

(** *** Helpers for the JavaScript idioms *)

(** [String(b)] *)
Definition string_of_bool (b : bool) : string := if b then "true" else "false".

(** [/pat/.test(s)] for a pattern without special characters. *)
Definition test (pat s : string) : bool :=
  match String.index 0 pat s with
  | Some _ => true
  | None => false
  end.

(** [a.join(sep)] *)
Definition join (sep : string) (a : list string) : string := String.concat sep a.

(** *** The tables *)

Definition FEATURE_NAME_TO_SAPI_FLAG : Obj string :=
  [("docker", "experimental_docker_nfs_shared_volumes");
   ("docker-automount", "experimental_docker_automount_nfs_shared_volumes");
   ("cloudapi", "experimental_cloudapi_nfs_shared_volumes")].

Definition VALID_FEATURE_NAMES : list string :=
  ["docker"; "docker-automount"; "cloudapi"].

(** [function validFeatureName(featureName)] *)
Definition validFeatureName (featureName : string) : bool :=
  existsb (String.eqb featureName) VALID_FEATURE_NAMES.

(** [function validateArgs(args)]: the error returned, if any. *)
Definition validateArgs (args : option (list string)) : Outcome (option JsError) :=
  match args with
  | None =>
      e <- UsageError (VString "one argument is required") VUndefined ;; Ok (Some e)
  | Some l =>
      if (length l <? 1)%nat then
        e <- UsageError (VString "one argument is required") VUndefined ;; Ok (Some e)
      else if (1 <? length l)%nat then
        e <- UsageError (VString ("too many args: " ++ join "," l)) VUndefined ;;
        Ok (Some e)
      else
        a0 <- match nth_error l 0 with
              | Some a => Ok a
              | None => Throw (AssertionError "featureName")
              end ;;
        if negb (validFeatureName a0) then
          e <- UsageError (VString ("invalid feature name: " ++ a0)) VUndefined ;;
          Ok (Some e)
        else Ok None
  end.

(** The keys of [imageDeps] for a feature, in the order they are added;
    every one of its functions is [/tritonnfs/.test(version)].  Only these
    keys are ever looked up, since a result carries the name of the
    service it was asked for. *)
Definition imageDeps (featureName : string) : list string :=
  if orb (featureName =? "docker") (featureName =? "cloudapi") then
    (["vmapi"; "workflow"; "volapi"]
       ++ (if featureName =? "docker" then ["docker"] else ["cloudapi"]))%list
  else [].

Definition checkVersion (version : string) : bool := test "tritonnfs" version.

Definition platformVersionDep (featureName : string) : option string :=
  if featureName =? "docker-automount" then Some "20160613T123039Z" else None.

Definition featureDeps (featureName : string) : option (list string) :=
  if featureName =? "docker-automount" then Some ["docker"] else None.

(** *** getImagesVersions *)

(** The loop of [flattenResults] over the images of one result, from the
    index [length result.images - length imgs] on. *)
Fixpoint flatten_one (name : string) (imgs : list ImageInfo) (vs : list VmInfo)
  : Outcome (list VersionInfo) :=
  match imgs with
  | [] => Ok []
  | image :: imgs' =>
      vm <- deref (nth_error vs 0) ;;
      rest <- flatten_one name imgs' (tl vs) ;;
      Ok ({| vi_serviceName := name; vi_version := i_version image;
             vi_vmUuid := v_uuid vm |} :: rest)
  end.

Fixpoint flattenResults (successes : list SvcImages) : Outcome (list VersionInfo) :=
  match successes with
  | [] => Ok []
  | r :: rest =>
      here <- flatten_one (serviceName r) (images r) (vms r) ;;
      more <- flattenResults rest ;;
      Ok (here ++ more)%list
  end.

(** [function onImagesVersions(err, results)]: the two arguments of
    [callback]. *)
Definition onImagesVersions (err : option Failure) (successes : list SvcImages)
  : Outcome (option Failure * list VersionInfo) :=
  match err with
  | Some e => Ok (Some e, [])
  | None =>
      infos <- flattenResults successes ;;
      Ok (None, infos)
  end.

(** The order in which [n] operations started together call back: the
    choice number [k] picks one of those still running. *)
Fixpoint completion_order {A : Type} (choice : nat -> nat) (n k : nat)
  (running : list A) : list A :=
  match n with
  | O => []
  | S n' =>
      let i := (choice k mod length running)%nat in
      match nth_error running i with
      | Some x => x :: completion_order choice n' (S k) (remove_nth i running)
      | None => []
      end
  end.

(** [vasync.forEachParallel] over [doGetCoreServiceImageVersion]: every
    operation is started, in the order of the inputs; when all have
    called back, the final callback gets an error if one of them failed,
    and the results of those that did not, in the order they came in. *)
Definition forEachParallel (inputs : list string) (w : World)
  : option Failure * list SvcImages :=
  let errors :=
    flat_map (fun coreServiceName =>
                match getImgsForSvcVms w coreServiceName with
                | SvcErr getErr => [getErr]
                | SvcOk _ _ => []
                end) inputs in
  let successes :=
    flat_map (fun coreServiceName =>
                match getImgsForSvcVms w coreServiceName with
                | SvcErr _ => []
                | SvcOk imgs vs =>
                    [{| serviceName := coreServiceName; images := imgs; vms := vs |}]
                end)
             (completion_order (completion w) (length inputs) 0 inputs) in
  (if (0 <? length errors)%nat then Some (Several errors) else None, successes).

(** [function getImagesVersions(coreServicesNames, options, callback)] *)
Definition getImagesVersions (coreServicesNames : list string) (w : World)
  : Outcome (option Failure * list VersionInfo) :=
  let r := forEachParallel coreServicesNames w in
  onImagesVersions (fst r) (snd r).

(** *** The stages of the pipeline *)

(** What a stage did and what it handed to [next]. *)
Record Stage : Type := mkStage {
  events : list Event;
  failed : option Failure
}.

Definition passes (evs : list Event) : Outcome Stage := Ok (mkStage evs None).

(** [function checkFeatureDeps(ctx, next)] *)
Definition checkFeatureDeps (opts : Opts) (featureName : string) (w : World)
  : Outcome Stage :=
  if force opts then passes []
  else if disable opts then passes []
  else match featureDeps featureName with
       | None => passes []
       | Some deps =>
           let missingFeatureDeps :=
             filter (fun featureDepName =>
                       match get featureDepName FEATURE_NAME_TO_SAPI_FLAG with
                       | Some depSapiFlagName =>
                           match get depSapiFlagName (metadata (sdc w)) with
                           | Some (MStr "true") => false
                           | _ => true
                           end
                       | None => true
                       end) deps in
           if (0 <? length missingFeatureDeps)%nat then
             Ok (mkStage [] (Some (Plain ("Missing feature deps: "
                                          ++ join ", " missingFeatureDeps))))
           else passes []
       end.

(** [function renderVersionInfo(versionInfo)] *)
Definition renderVersionInfo (v : VersionInfo) : string :=
  "VM " ++ fmt_opt (vi_vmUuid v) ++ " for service " ++ vi_serviceName v
        ++ " at version " ++ fmt_opt (vi_version v).

(** [function filterOutdated(versionInfo)] of the image check: the
    progress it reports and the value the filter gets, which is
    [undefined], that is [false], since the function returns nothing. *)
Definition filterOutdated (featureName : string) (v : VersionInfo)
  : Outcome (list Event * bool) :=
  version <- match vi_version v with
             | Some s => Ok s
             | None => Throw (AssertionError "version")
             end ;;
  vmUuid <- match vi_vmUuid v with
            | Some s => Ok s
            | None => Throw (AssertionError "vmUuid")
            end ;;
  if existsb (String.eqb (vi_serviceName v)) (imageDeps featureName) then
    if checkVersion version then
      Ok ([Progress ("VM " ++ vmUuid ++ " for service " ++ vi_serviceName v
                     ++ " at version " ++ version
                     ++ " matches dependencies requirements")], false)
    else
      Ok ([Progress ("VM " ++ vmUuid ++ " for service " ++ vi_serviceName v
                     ++ " at version " ++ version
                     ++ " does not match dependencies requirements")], false)
  else Throw (AssertionError ("imageDeps[" ++ vi_serviceName v ++ "]")).

(** [imagesVersions.filter(filterOutdated)] with the progress reported. *)
Fixpoint filter_outdated (featureName : string) (vs : list VersionInfo)
  : Outcome (list Event * list VersionInfo) :=
  match vs with
  | [] => Ok ([], [])
  | v :: rest =>
      r <- filterOutdated featureName v ;;
      rs <- filter_outdated featureName rest ;;
      Ok ((fst r ++ fst rs)%list, if snd r then v :: snd rs else snd rs)
  end.

(** [function getDependenciesImageVersions(ctx, next)] *)
Definition getDependenciesImageVersions (opts : Opts) (featureName : string)
  (w : World) : Outcome Stage :=
  let imgDepsNames := imageDeps featureName in
  if force opts then passes []
  else if disable opts then passes []
  else if (length imgDepsNames =? 0)%nat then
    passes [Progress ("Feature " ++ featureName ++ " has no image dependencies")]
  else
    let before :=
      [Progress ("Getting versions for image dependencies: "
                 ++ join ", " imgDepsNames);
       GetImages imgDepsNames] in
    got <- getImagesVersions imgDepsNames w ;;
    match fst got with
    | Some getImgVersErr => Ok (mkStage before (Some getImgVersErr))
    | None =>
        r <- filter_outdated featureName (snd got) ;;
        let outdatedVersions := snd r in
        let evs := (before ++ Progress "Checking dependencies are up to date"
                           :: fst r)%list in
        if (0 <? length outdatedVersions)%nat then
          Ok (mkStage evs
                (Some (Plain ("Found outdated core services: "
                              ++ join ", " (map renderVersionInfo outdatedVersions)))))
        else passes evs
    end.

(** [function renderServerInfo(server)] *)
Definition renderServerInfo (s : ServerInfo) : string :=
  "uuid " ++ s_uuid s ++ " boot platform version " ++ boot_platform s.

(** [function checkPlatformDep(ctx, next)] *)
Definition checkPlatformDep (opts : Opts) (featureName : string) (w : World)
  : Outcome Stage :=
  if force opts then passes []
  else if disable opts then passes []
  else
    match platformVersionDep featureName with
    | None =>
        passes [Progress "Checking platform version dependencies";
                Progress ("Enabling " ++ featureName ++ " has no platform dependency")]
    | Some dep =>
        let before := [Progress "Checking platform version dependencies";
                       Progress "Getting servers list"; ListServers] in
        match serversAnswer w with
        | ServersErr listServersErr =>
            Ok (mkStage before (Some (Passed listServersErr)))
        | ServersOk servers =>
            let outdatedServers :=
              filter (fun server => String.ltb (boot_platform server) dep) servers in
            if (0 <? length outdatedServers)%nat then
              Ok (mkStage before
                    (Some (Plain ("Found outdated servers: "
                                  ++ join "," (map renderServerInfo outdatedServers)))))
            else
              passes (before ++ [Progress "All servers match platform version requirements"])%list
        end
    end.

(** [self.sdcadm.sdc.metadata[sapiFlagName] !== desiredSapiFlagValue] *)
Definition differs (v : option MetaVal) (desired : bool) : bool :=
  match v with
  | Some (MBool b) => negb (Bool.eqb b desired)
  | _ => true
  end.

(** [function updateSdcFlagInSapi(flagName, desiredValue, options, callback)]:
    the two arguments of [callback]. *)
Definition updateSdcFlagInSapi (flagName : string) (a : UpdateAnswer)
  : Outcome (option JsError * option MetaVal) :=
  app <- deref (updatedSdcApp a) ;;
  Ok (sapiErr a, get flagName (metadata app)).

(** [function updateDockerNfSharedVolumesFlag(ctx, next)]: the stage and
    the value of [ctx.didSomething] after it. *)
Definition updateDockerNfSharedVolumesFlag (opts : Opts) (sapiFlagName : string)
  (w : World) : Outcome (Stage * bool) :=
  let desiredSapiFlagValue := negb (disable opts) in
  let desired := string_of_bool desiredSapiFlagValue in
  let checking := Progress ("Checking if " ++ sapiFlagName ++ "=" ++ desired
                            ++ " in SDC app...") in
  if differs (get sapiFlagName (metadata (sdc w))) desiredSapiFlagValue then
    let before :=
      [checking;
       Progress ("Setting " ++ sapiFlagName ++ " to " ++ desired ++ " in SDC app...");
       UpdateApplication (app_uuid (sdc w)) sapiFlagName desiredSapiFlagValue] in
    r <- updateSdcFlagInSapi sapiFlagName (updateAnswer w) ;;
    match fst r with
    | Some err => Ok (mkStage before (Some (Passed err)), true)
    | None =>
        if negb (differs (snd r) desiredSapiFlagValue) then
          Ok (mkStage (before ++ [Progress (sapiFlagName ++ " set to " ++ desired
                                            ++ " on SDC app")])%list None, true)
        else
          let errMsg := "Could not set " ++ sapiFlagName ++ " to " ++ desired
                        ++ " on SDC app" in
          Ok (mkStage (before ++ [Progress errMsg])%list (Some (Plain errMsg)), true)
    end
  else
    Ok (mkStage [checking;
                 Progress (sapiFlagName ++ " already set to " ++ desired
                           ++ ", nothing to do")] None, false).

(** [function done(ctx, next)] *)
Definition done (opts : Opts) (featureName : string) (didSomething : bool)
  : list Event :=
  if didSomething then
    if disable opts
    then [Progress ("Disabled " ++ featureName ++ " NFS volumes support")]
    else [Progress ("Enabled " ++ featureName ++ " NFS volumes support")]
  else
    if disable opts
    then [Progress (featureName ++ " NFS volumes support already disabled")]
    else [Progress (featureName ++ " NFS volumes support already enabled")].

(** What the subcommand did and how it ended. *)
Record Run : Type := mkRun {
  trace : list Event;
  ended : Ended
}.

(** One stage of [vasync.pipeline] followed by the rest: the rest runs
    only if the stage handed no error to [next]. *)
Definition and_then (s : Outcome Stage) (rest : Outcome Run) : Outcome Run :=
  st <- s ;;
  match failed st with
  | Some err => Ok (mkRun (events st) (Called (Some err)))
  | None =>
      r <- rest ;;
      Ok (mkRun (events st ++ trace r)%list (ended r))
  end.

(** [function do_nfs_volumes(subcmd, opts, args, cb)] *)
Definition do_nfs_volumes (subcmd : string) (opts : Opts)
  (args : option (list string)) (w : World) : Outcome Run :=
  if help opts then Ok (mkRun [Help subcmd] Helped)
  else
    argsErr <- validateArgs args ;;
    match argsErr with
    | Some e => Ok (mkRun [] (Called (Some (Passed e))))
    | None =>
        featureName <- deref (nth_error (match args with Some l => l | None => [] end) 0) ;;
        let sapiFlagName := fmt_opt (get featureName FEATURE_NAME_TO_SAPI_FLAG) in
        and_then (checkFeatureDeps opts featureName w)
          (and_then (getDependenciesImageVersions opts featureName w)
             (and_then (checkPlatformDep opts featureName w)
                (u <- updateDockerNfSharedVolumesFlag opts sapiFlagName w ;;
                 and_then (Ok (fst u))
                   (Ok (mkRun (done opts featureName (snd u)) (Called None))))))
    end.

End NfsVolumes.

(** ** common.js: promptYesNo *)

Module Prompt.

(** What [cb] is called with: a string, or [false] after Ctrl-C. *)
Inductive Answer : Type :=
| AString (s : string)
| AFalse.

(** What the prompt writes, in order: [stdout.write(s)] and
    [stdin.write(s)]. *)
Inductive Written : Type :=
| Stdout (s : string)
| Stdin (s : string).

Definition CR : string := String "013"%char EmptyString.
Definition EOT : string := String "004"%char EmptyString.
Definition ETX : string := String "003"%char EmptyString.

Definition lower (c : ascii) : ascii :=
  let n := nat_of_ascii c in
  if andb (65 <=? n)%nat (n <=? 90)%nat then ascii_of_nat (n + 32) else c.

(** [s.toLowerCase()] on the letters A-Z; no other character can turn
    into a letter of the answers compared with. *)
Fixpoint toLowerCase (s : string) : string :=
  match s with
  | EmptyString => EmptyString
  | String c s' => String (lower c) (toLowerCase s')
  end.

Definition please : string :=
  "Please enter " ++ dq ++ "y" ++ dq ++ ", " ++ dq ++ "yes" ++ dq ++ ", "
    ++ dq ++ "n" ++ dq ++ " or " ++ dq ++ "no" ++ dq ++ "." ++ nl.

(** [function onData(ch)] for the chunks as they arrive, from the value
    [input] has; the terminal is the one of the process, or the streams
    were passed in.  A wrong answer prompts again, which writes [msg] and
    starts from an empty [input]; once [cb] is called the listener is
    gone and the chunks left are not read. *)
Fixpoint onData (msg : string) (default : option string) (input : string)
  (chunks : list string) : list Written * option Answer :=
  match chunks with
  | [] => ([], None)
  | ch :: rest =>
      if orb (ch =? nl) (orb (ch =? CR) (ch =? EOT)) then
        let answer := toLowerCase input in
        if andb (answer =? "") (truthy default) then
          ([Stdin nl], Some (AString (fmt_opt default)))
        else if orb (answer =? "yes") (answer =? "y") then
          ([Stdin nl], Some (AString "y"))
        else if orb (answer =? "no") (answer =? "n") then
          ([Stdin nl], Some (AString "n"))
        else
          let r := onData msg default "" rest in
          (Stdin nl :: Stdout please :: Stdout msg :: fst r, snd r)
      else if ch =? ETX then
        ([Stdin nl], Some AFalse)
      else
        let r := onData msg default (input ++ ch) rest in
        (Stdout ch :: fst r, snd r)
  end.

(** [function promptYesNo(opts_, cb)] *)
Definition promptYesNo (msg : string) (default : option string)
  (chunks : list string) : list Written * option Answer :=
  let r := onData msg default "" chunks in
  (Stdout msg :: fst r, snd r).

End Prompt.

(** ** Vocabulary of the further statements *)

Module Vocabulary2.
Import ErrorHelpers Common.

(** The character [c] does not occur in [s]. *)
Fixpoint no_char (c : ascii) (s : string) : bool :=
  match s with
  | EmptyString => true
  | String d s' => andb (negb (Ascii.eqb d c)) (no_char c s')
  end.

(** Neither a line feed nor a carriage return occurs in [s]. *)
Definition one_line (s : string) : bool := andb (no_char LF s) (no_char CR s).

(** [k] zeros. *)
Fixpoint zeros (k : nat) : string :=
  match k with
  | O => EmptyString
  | S k' => String "0"%char (zeros k')
  end.

End Vocabulary2.

(** ** Vocabulary of the statements about the fan-out *)

Module Vocabulary3.

(** A chain run on its own until it finishes: what it pushes onto [errs],
    or the exception that escapes; [None] when [fuel] answers did not
    finish it. *)
Fixpoint chain_result (change : Change) (w : World) (fuel : nat) (n : nat)
  (c : Chain) : option (Outcome (list JsError)) :=
  match fuel with
  | O => None
  | S fuel' =>
      match resume change w n c with
      | Throw t => Some (Throw t)
      | Ok (Finish pushed _) => Some (Ok (opt_list pushed))
      | Ok (Continue c' _) => chain_result change w fuel' n c'
      end
  end.

(** A queue entry handled on its own: its worker and then its chain. *)
Definition entry_result (change : Change) (cnAgentInsts : list Inst) (w : World)
  (p : nat * Inst) : option (Outcome (list JsError)) :=
  match upAgent cnAgentInsts w (snd p) with
  | Throw t => Some (Throw t)
  | Ok (Recorded e) => Some (Ok [e])
  | Ok Dispatched => chain_result change w (S (S limit)) (fst p) (AwaitPost (snd p))
  end.

(** The errors an entry records when nothing is thrown. *)
Definition entry_errs (change : Change) (cnAgentInsts : list Inst) (w : World)
  (p : nat * Inst) : list JsError :=
  match entry_result change cnAgentInsts w p with
  | Some (Ok l) => l
  | _ => []
  end.

(** No exception escapes from the entry handled on its own. *)
Definition entry_safe (change : Change) (cnAgentInsts : list Inst) (w : World)
  (p : nat * Inst) : Prop :=
  exists l, entry_result change cnAgentInsts w p = Some (Ok l).

(** The errors a pending chain will still record. *)
Definition chain_errs (change : Change) (w : World) (p : nat * Chain)
  : list JsError :=
  match chain_result change w (cost (snd p)) (fst p) (snd p) with
  | Some (Ok l) => l
  | _ => []
  end.

Definition chain_safe (change : Change) (w : World) (p : nat * Chain) : Prop :=
  exists l, chain_result change w (cost (snd p)) (fst p) (snd p) = Some (Ok l).

(** The entries for which an install-agent request is logged, in order. *)
Fixpoint post_entries (l : list Event) : list nat :=
  match l with
  | [] => []
  | EvPost n _ _ :: rest => n :: post_entries rest
  | _ :: rest => post_entries rest
  end.

Definition is_dispatched (cnAgentInsts : list Inst) (w : World)
  (p : nat * Inst) : bool :=
  match upAgent cnAgentInsts w (snd p) with
  | Ok Dispatched => true
  | _ => false
  end.

(** What a poll run means for the chain that made it. *)
Definition pushed_by (o : Outcome (option JsError)) : Outcome (list JsError) :=
  match o with
  | Ok er => Ok (opt_list er)
  | Throw t => Throw t
  end.

(** The errors recorded so far together with those the pending chains
    and the waiting entries will still record. *)
Definition owed (change : Change) (cnAgentInsts : list Inst) (w : World)
  (q : Queue) : list JsError :=
  (errs q ++ flat_map (chain_errs change w) (pending q)
          ++ flat_map (entry_errs change cnAgentInsts w) (queued q))%list.

(** Nothing was thrown, and nothing will be. *)
Definition sound (change : Change) (cnAgentInsts : list Inst) (w : World)
  (q : Queue) : Prop :=
  thrown q = None /\
  Forall (entry_safe change cnAgentInsts w) (queued q) /\
  Forall (chain_safe change w) (pending q).

(** The install-agent requests logged are those of the started entries
    that passed the checks of [upAgent], in the order of the entries. *)
Definition posts_in_order (cnAgentInsts : list Inst) (w : World)
  (all : list (nat * Inst)) (q : Queue) : Prop :=
  exists started,
    all = (started ++ queued q)%list /\
    post_entries (log q) = map fst (filter (is_dispatched cnAgentInsts w) started).

End Vocabulary3.

(** ** Vocabulary of the statements about the nfs-volumes subcommand *)

Module NfsVocabulary.
Import Common NfsVolumes.

(** The entries one result contributes when every image has its VM. *)
Definition pair_up (r : SvcImages) : list VersionInfo :=
  map (fun p => {| vi_serviceName := serviceName r;
                   vi_version := i_version (fst p);
                   vi_vmUuid := v_uuid (snd p) |})
      (combine (images r) (vms r)).

Definition enough_vms (r : SvcImages) : bool :=
  (length (images r) <=? length (vms r))%nat.

Definition is_some {A : Type} (o : option A) : bool :=
  match o with
  | Some _ => true
  | None => false
  end.

(** An answer without error in which every image has a version and a VM
    with a uuid. *)
Definition complete (a : SvcAnswer) : bool :=
  match a with
  | SvcErr _ => false
  | SvcOk imgs vs =>
      andb (length imgs <=? length vs)%nat
           (andb (forallb (fun i => is_some (i_version i)) imgs)
                 (forallb (fun v => is_some (v_uuid v)) (firstn (length imgs) vs)))
  end.

(** The service was answered without error. *)
Definition answered (w : World) (name : string) : bool :=
  match getImgsForSvcVms w name with
  | SvcErr _ => false
  | SvcOk _ _ => true
  end.

(** The service was answered with a VM for every image. *)
Definition paired (w : World) (name : string) : bool :=
  match getImgsForSvcVms w name with
  | SvcErr _ => false
  | SvcOk imgs vs => (length imgs <=? length vs)%nat
  end.

(** The entries of one service: its images with their VMs. *)
Definition svc_entries (w : World) (name : string) : list VersionInfo :=
  match getImgsForSvcVms w name with
  | SvcErr _ => []
  | SvcOk imgs vs =>
      pair_up {| serviceName := name; images := imgs; vms := vs |}
  end.

(** The errors [getImgsForSvcVms] answered, in the order of the services
    asked for. *)
Definition lookup_errors (w : World) (names : list string) : list JsError :=
  flat_map (fun name => match getImgsForSvcVms w name with
                        | SvcErr getErr => [getErr]
                        | SvcOk _ _ => []
                        end) names.

(** The services in the order their answers came in. *)
Definition arrival (w : World) (names : list string) : list string :=
  completion_order (completion w) (length names) 0 names.

(** The event is a question to IMGAPI/VMAPI or to CNAPI. *)
Definition asks (ev : Event) : bool :=
  match ev with
  | GetImages _ | ListServers => true
  | _ => false
  end.

Definition is_update (ev : Event) : bool :=
  match ev with
  | UpdateApplication _ _ _ => true
  | _ => false
  end.

(** The server boots a platform older than the one docker-automount
    needs. *)
Definition outdated (s : ServerInfo) : bool :=
  String.ltb (boot_platform s) "20160613T123039Z".

(** The three checks of the pipeline hand no error to [next]. *)
Definition checks_pass (opts : Opts) (featureName : string) (w : World) : Prop :=
  exists e1 e2 e3,
    checkFeatureDeps opts featureName w = Ok (mkStage e1 None) /\
    getDependenciesImageVersions opts featureName w = Ok (mkStage e2 None) /\
    checkPlatformDep opts featureName w = Ok (mkStage e3 None).

Definition docker_flag : string := "experimental_docker_nfs_shared_volumes".

End NfsVocabulary.

(** ** Sample worlds of the nfs-volumes subcommand *)

Module NfsSamples.
Import NfsVolumes.

Definition plain_opts : Opts := {| help := false; force := false; disable := false |}.
Definition forced : Opts := {| help := false; force := true; disable := false |}.

Definition fresh_app : App := {| app_uuid := "app-1"; metadata := [] |}.

Definition docker_on : App :=
  {| app_uuid := "app-1";
     metadata := [("experimental_docker_nfs_shared_volumes", MBool true)] |}.

(** Every service runs one VM from a master image. *)
Definition master_images (name : string) : SvcAnswer :=
  SvcOk [{| i_version := Some "master-20170101T000000Z-g1234567" |}]
        [{| v_uuid := Some ("vm-" ++ name) |}].

Definition old_server : ServerInfo :=
  {| s_uuid := "cn-1"; boot_platform := "20160101T000000Z" |}.
Definition new_server : ServerInfo :=
  {| s_uuid := "cn-2"; boot_platform := "20170101T000000Z" |}.

Definition nfs_world (app : App) (u : UpdateAnswer) : World :=
  {| sdc := app;
     getImgsForSvcVms := master_images;
     completion := fun k => k;
     serversAnswer := ServersOk [old_server; new_server];
     updateAnswer := u |}.

Definition updated : UpdateAnswer :=
  {| sapiErr := None; updatedSdcApp := Some docker_on |}.

Definition sapi_down : UpdateAnswer :=
  {| sapiErr := Some (ClientError None); updatedSdcApp := None |}.

End NfsSamples.

(** ** Vocabulary of the statements about the prompt *)

Module PromptVocabulary.
Import Prompt.

(** The chunk ends the answer. *)
Definition ends_line (ch : string) : bool :=
  orb (ch =? nl) (orb (ch =? CR) (ch =? EOT)).

(** The chunk is echoed and added to the answer. *)
Definition plain (ch : string) : bool :=
  andb (negb (ends_line ch)) (negb (ch =? ETX)).

(** The answer typed is none of those accepted. *)
Definition rejected (default : option string) (answer : string) : bool :=
  negb (orb (andb (answer =? "") (truthy default))
            (orb (orb (answer =? "yes") (answer =? "y"))
                 (orb (answer =? "no") (answer =? "n")))).

End PromptVocabulary.

(** * Facts about strings *)

Section StringFacts.

Lemma append_empty_r (s : string) : s ++ "" = s.
Proof.
  induction s as [| c s IH]; simpl; [reflexivity | now rewrite IH].
Qed.

Lemma append_assoc (s t u : string) : (s ++ t) ++ u = s ++ (t ++ u).
Proof.
  induction s as [| c s IH]; simpl; [reflexivity | now rewrite IH].
Qed.

End StringFacts.

(** * Properties of the error classes *)

Section ErrorClasses.

Lemma SdcAdmError_ok (cause : JsValue) (m c : string) (x : option Z) :
  (cause = VUndefined \/ exists e, cause = VObject e) ->
  SdcAdmError {| o_cause := cause; o_message := VString m; o_code := VString c;
                 o_statusCode := VUndefined; o_exitStatus := x |}
  = Ok (MkSdcAdmError c m x).
Proof.
  intros [-> | [e ->]]; reflexivity.
Qed.

Lemma newUpdateError_ok (m : string) :
  UpdateAgentV1.newUpdateError m
  = Ok (MkSdcAdmError "Update" m (Some 2%Z)).
Proof. reflexivity. Qed.

Lemma MultiError_ok (errs : list JsError) :
  MultiError errs
  = Ok (MkSdcAdmError "MultiError" (digest errs) (Some 1%Z)).
Proof.
  destruct errs as [| e errs]; reflexivity.
Qed.

Lemma forEach_field_listed (entries : list (option FieldError))
  (l : list FieldError) :
  all_objects entries = Some l ->
  forall msg,
    forEach_field entries msg = Ok (msg ++ String.concat "" (map field_line l)).
Proof.
  revert l. induction entries as [| [e |] rest IH]; intros l H msg.
  - injection H as <-. cbn. now rewrite append_empty_r.
  - cbn [all_objects] in H.
    destruct (all_objects rest) as [l' |]; [| discriminate].
    injection H as <-. cbn [forEach_field]. rewrite (IH l' eq_refl).
    rewrite append_assoc. do 2 f_equal.
    destruct l' as [| e' l'']; cbn; [now rewrite append_empty_r | reflexivity].
  - discriminate.
Qed.

Lemma field_lines_listed (es : ErrorsField) (l : list FieldError) (msg : string) :
  listed es = Some l ->
  field_lines es msg = Ok (msg ++ String.concat "" (map field_line l)).
Proof.
  destruct es as [| entries |]; cbn [listed field_lines].
  - intros [= <-]. cbn. now rewrite append_empty_r.
  - intros H. now apply forEach_field_listed.
  - discriminate.
Qed.

Lemma forEach_field_Ok (entries : list (option FieldError)) :
  forall msg r, forEach_field entries msg = Ok r ->
    exists l, all_objects entries = Some l.
Proof.
  induction entries as [| [e |] rest IH]; intros msg r H.
  - now exists [].
  - cbn [forEach_field] in H. destruct (IH _ _ H) as (l & Hl).
    exists (e :: l). cbn [all_objects]. now rewrite Hl.
  - discriminate.
Qed.

Lemma field_lines_Ok (es : ErrorsField) (msg r : string) :
  field_lines es msg = Ok r -> exists l, listed es = Some l.
Proof.
  destruct es as [| entries |]; cbn [field_lines listed].
  - intros _. now exists [].
  - apply forEach_field_Ok.
  - discriminate.
Qed.

Lemma SDCClientError_ok (b : Body) (m n : string) (l : list FieldError) :
  b_message b = JString m ->
  (b_code b = JUndefined \/ exists c, b_code b = JString c) ->
  listed (b_errors b) = Some l ->
  SDCClientError (VObject (ClientError (Some b))) (VString n)
  = Ok (MkSdcAdmError "SDCClient"
          (n ++ " client error" ++ codeExtra (scalar_string (b_code b)) ++ ": "
             ++ m ++ String.concat "" (map field_line l))
          (Some 1%Z)).
Proof.
  intros Hm Hc Hl. unfold SDCClientError. simpl. rewrite Hm.
  destruct Hc as [-> | [c ->]]; simpl;
    rewrite (field_lines_listed _ _ m Hl); reflexivity.
Qed.

Lemma SDCClientError_well_shaped (b : Body) (n : string) :
  well_shaped b ->
  exists e, SDCClientError (VObject (ClientError (Some b))) (VString n) = Ok e /\
            err_code e = Some "SDCClient" /\ err_exitStatus e = Some 1%Z.
Proof.
  intros ((m & Hm) & Hc & (l & Hl)).
  rewrite (SDCClientError_ok b m n l Hm Hc Hl). eexists.
  split; [reflexivity |]. split; reflexivity.
Qed.

(** C3, as stated, fails: an [InternalError] carries the code
    'InternalError', not 'Internal'. *)
Lemma InternalError_code_is_not_Internal :
  exists e,
    InternalError {| o_cause := VUndefined; o_message := VString "boom";
                     o_code := VUndefined; o_statusCode := VUndefined;
                     o_exitStatus := None |} = Ok e /\
    err_code e = Some "InternalError" /\
    err_code e <> Some "Internal".
Proof.
  eexists. split; [reflexivity |]. split; [reflexivity | discriminate].
Qed.

(** C3, amended: every constructed error carries the code and exit status
    of its class -- 'InternalError' and 1 for [InternalError], 'Usage' and
    2 for [UsageError], 'Update' and 2 for [UpdateError], 'SDCClient' and 1
    for [SDCClientError], 'MultiError' and 1 for [MultiError] -- together
    with a string message: the one it was given, for [MultiError] the
    digest of its children. *)
Theorem error_classes_code_and_exitStatus :
  (forall o e, InternalError o = Ok e ->
     err_code e = Some "InternalError" /\ err_exitStatus e = Some 1%Z /\
     o_message o = VString (fmt_opt (err_message e))) /\
  (forall cause message e, UsageError cause message = Ok e ->
     err_code e = Some "Usage" /\ err_exitStatus e = Some 2%Z /\
     snd (shift_args cause message) = VString (fmt_opt (err_message e))) /\
  (forall cause message e, UpdateError cause message = Ok e ->
     err_code e = Some "Update" /\ err_exitStatus e = Some 2%Z /\
     snd (shift_args cause message) = VString (fmt_opt (err_message e))) /\
  (forall cause clientName e, SDCClientError cause clientName = Ok e ->
     err_code e = Some "SDCClient" /\ err_exitStatus e = Some 1%Z /\
     exists m, err_message e = Some m) /\
  (forall errs, exists e, MultiError errs = Ok e /\
     err_code e = Some "MultiError" /\ err_exitStatus e = Some 1%Z /\
     err_message e = Some (digest errs)).
Proof.
  split; [| split; [| split; [| split]]].
  - intros [c m co sc ex] e; unfold InternalError, SdcAdmError; simpl.
    destruct c, m, sc; simpl; try discriminate;
      intros H; inversion H; repeat split.
  - intros cause message e; unfold UsageError, SdcAdmError.
    destruct message, cause; simpl; try discriminate;
      intros H; inversion H; repeat split.
  - intros cause message e; unfold UpdateError, SdcAdmError.
    destruct message, cause; simpl; try discriminate;
      intros H; inversion H; repeat split.
  - intros cause n e H. unfold SDCClientError in H.
    destruct cause as [| | | c]; simpl in H; try discriminate.
    destruct c as [[b |] |]; simpl in H; try discriminate.
    destruct (b_code b), (b_message b), n; simpl in H; try discriminate;
      destruct (field_lines (b_errors b) _); simpl in H; try discriminate;
      inversion H; simpl; repeat split; eauto.
  - intros errs. rewrite MultiError_ok. eexists. split; [reflexivity |].
    repeat split.
Qed.

Lemma error_classes_code_and_exitStatus_witness :
  err_code (MkSdcAdmError "Update" "poll timed out" (Some 2%Z)) = Some "Update" /\
  err_exitStatus (MkSdcAdmError "Update" "poll timed out" (Some 2%Z)) = Some 2%Z.
Proof.
  pose proof (proj1 (proj2 (proj2 error_classes_code_and_exitStatus))
                (VString "poll timed out") VUndefined
                (MkSdcAdmError "Update" "poll timed out" (Some 2%Z))
                eq_refl) as H.
  exact (conj (proj1 H) (proj1 (proj2 H))).
Defined.

(** C8, as stated, fails: a cause whose body has a string message but a
    numeric code is refused by the assertion on [cause.body.code]. *)
Lemma SDCClientError_numeric_code_throws :
  SDCClientError
    (VObject (ClientError (Some {| b_code := JNumber 500; b_message := JString "boom";
                                   b_errors := ErrorsFalsy |})))
    (VString "cnapi")
  = Throw (AssertionError "cause.body.code").
Proof. reflexivity. Qed.

(** C8, amended: constructing an [SDCClientError] from a cause whose body
    has no string [message] throws an assertion error and yields no error
    value; from a cause whose body has a string [message], a [code] that
    is absent or a string, and [errors] that are absent or an array of
    objects, with a string client name, it succeeds, and the message is
    the client name, " client error", the code in parentheses when it is
    a non-empty string, ": ", the remote message and one line per entry
    of [body.errors]. *)
Theorem SDCClientError_precondition :
  (forall b n, scalar_string (b_message b) = None ->
     exists what, SDCClientError (VObject (ClientError (Some b))) n
                  = Throw (AssertionError what)) /\
  (forall b m n l, b_message b = JString m ->
     (b_code b = JUndefined \/ exists c, b_code b = JString c) ->
     listed (b_errors b) = Some l ->
     exists e, SDCClientError (VObject (ClientError (Some b))) (VString n) = Ok e /\
       err_code e = Some "SDCClient" /\
       err_exitStatus e = Some 1%Z /\
       err_message e =
         Some (n ++ " client error" ++ codeExtra (scalar_string (b_code b)) ++ ": "
                 ++ m ++ String.concat "" (map field_line l))).
Proof.
  split.
  - intros b n Hm. unfold SDCClientError. simpl.
    destruct (b_code b); simpl; eauto;
      destruct (b_message b); simpl; eauto; discriminate.
  - intros b m n l Hm Hc Hl. rewrite (SDCClientError_ok b m n l Hm Hc Hl).
    eexists. split; [reflexivity |]. repeat split.
Qed.

Lemma SDCClientError_precondition_witness :
  exists e,
    SDCClientError
      (VObject (ClientError (Some {| b_code := JString "ResourceNotFound";
                                     b_message := JString "no such server";
                                     b_errors := ErrorsArray
                                       [Some {| fe_field := Some "uuid";
                                                fe_code := Some "Invalid";
                                                fe_message := None |}] |})))
      (VString "cnapi") = Ok e /\
    err_message e
    = Some ("cnapi client error (ResourceNotFound): no such server" ++ nl
              ++ "    uuid: Invalid").
Proof.
  destruct (proj2 SDCClientError_precondition
              {| b_code := JString "ResourceNotFound";
                 b_message := JString "no such server";
                 b_errors := ErrorsArray
                   [Some {| fe_field := Some "uuid"; fe_code := Some "Invalid";
                            fe_message := None |}] |}
              "no such server" "cnapi"
              [{| fe_field := Some "uuid"; fe_code := Some "Invalid";
                  fe_message := None |}]
              eq_refl
              (or_intror (ex_intro _ "ResourceNotFound" eq_refl)) eq_refl)
    as (e & He & _ & _ & Hm).
  exists e. split; [exact He | exact Hm].
Defined.

End ErrorClasses.

(** * Properties of the poll loops *)

Section PollLoop.

Variable cb : nat -> Outcome PollStep.
Hypothesis again_below_limit : forall k, cb k = Ok Again -> k < limit.

(** The loop stops at the first callback that does not ask for another
    round, which comes no later than the [limit]-th. *)
Lemma poll_loop_spec (fuel counter : nat) (armed : list nat) :
  counter < limit -> limit <= counter + fuel ->
  exists k o,
    poll_loop cb fuel counter armed
    = Some {| outcome := o; queries := k;
              timers := armed ++ repeat interval (k - counter - 1) |} /\
    counter < k <= limit /\
    settle (cb k) = Some o /\
    (forall j, counter < j < k -> cb j = Ok Again).
Proof.
  revert counter armed.
  induction fuel as [| fuel IH]; intros counter armed Hlt Hfuel; [lia |].
  simpl. destruct (cb (counter + 1)) as [[| er] | t] eqn:Hcb.
  - pose proof (again_below_limit _ Hcb) as Hk.
    destruct (IH (counter + 1) (armed ++ [interval])%list Hk ltac:(lia))
      as (k & o & Hrun & Hrange & Hsettle & Hprefix).
    exists k, o. rewrite Hrun. repeat split; try lia; try assumption.
    + rewrite <- app_assoc. simpl.
      replace (k - counter - 1) with (S (k - (counter + 1) - 1)) by lia.
      reflexivity.
    + intros j Hj. destruct (Nat.eq_dec j (counter + 1)) as [-> | Hne];
        [assumption | apply Hprefix; lia].
  - exists (counter + 1), (Ok er).
    replace (counter + 1 - counter - 1) with 0 by lia. simpl.
    rewrite app_nil_r, Hcb. repeat split; lia.
  - exists (counter + 1), (Throw t).
    replace (counter + 1 - counter - 1) with 0 by lia. simpl.
    rewrite app_nil_r, Hcb. repeat split; lia.
Qed.

(** Where the loop stops is determined by the answers. *)
Lemma poll_loop_first (fuel k : nat) (o : Outcome (option JsError)) :
  limit <= fuel -> 0 < k ->
  (forall j, 0 < j < k -> cb j = Ok Again) ->
  settle (cb k) = Some o ->
  poll_loop cb fuel 0 []
  = Some {| outcome := o; queries := k; timers := repeat interval (k - 1) |}.
Proof.
  intros Hfuel Hk Hprefix Hsettle.
  destruct (poll_loop_spec fuel 0 [] ltac:(unfold limit; lia) ltac:(lia))
    as (k' & o' & Hrun & Hrange & Hsettle' & Hprefix').
  assert (k' = k) as ->.
  { destruct (Nat.lt_trichotomy k' k) as [Hlt | [Heq | Hgt]]; [| assumption |].
    - rewrite (Hprefix k') in Hsettle' by lia. discriminate.
    - rewrite (Hprefix' k) in Hsettle by lia. discriminate. }
  rewrite Hrun. simpl. rewrite Nat.sub_0_r.
  congruence.
Qed.

End PollLoop.

Section PollCallbacks.

Lemma SDCClientError_code (cause clientName : JsValue) (e : JsError) :
  SDCClientError cause clientName = Ok e -> err_code e = Some "SDCClient".
Proof.
  unfold SDCClientError. intros H.
  destruct cause as [| | | c]; simpl in H; try discriminate H.
  destruct c as [[b |] |]; simpl in H; try discriminate H.
  destruct (b_code b), (b_message b), clientName; simpl in H; try discriminate H;
    destruct (field_lines (b_errors b) _); simpl in H; try discriminate H;
    inversion H; reflexivity.
Qed.

Lemma _waitTask_unfold (fuel : nat) (taskid : string) (q : nat -> TaskResult)
  (counter : nat) (armed : list nat) :
  _waitTask fuel taskid q counter armed
  = poll_loop (fun k => _waitTask_cb taskid k (q k)) fuel counter armed.
Proof.
  revert counter armed. induction fuel as [| fuel IH]; intros counter armed;
    [reflexivity |].
  simpl. destruct (_waitTask_cb taskid (counter + 1) (q (counter + 1))) as [[| er] | t];
    [apply IH | reflexivity | reflexivity].
Qed.

Lemma _waitServer_unfold (fuel : nat) (change : Change) (server_uuid : string)
  (q : nat -> ServerResult) (counter : nat) (armed : list nat) :
  _waitServer fuel change server_uuid q counter armed
  = poll_loop (fun k => _waitServer_cb change server_uuid k (q k)) fuel counter armed.
Proof.
  revert counter armed. induction fuel as [| fuel IH]; intros counter armed;
    [reflexivity |].
  simpl.
  destruct (_waitServer_cb change server_uuid (counter + 1) (q (counter + 1)))
    as [[| er] | t]; [apply IH | reflexivity | reflexivity].
Qed.

Lemma task_cb_pending (taskid : string) (k : nat) (r : TaskResult) :
  task_pending r = true ->
  _waitTask_cb taskid k r
  = if (k <? limit)%nat then Ok Again else Ok (Done (Some (timeout_task taskid))).
Proof.
  destruct r as [err | task]; simpl; [intros; discriminate |].
  destruct (status task =? "failure"); simpl; [intros; discriminate |].
  destruct (status task =? "complete"); simpl; [intros; discriminate |].
  reflexivity.
Qed.

Lemma task_cb_again (taskid : string) (k : nat) (r : TaskResult) :
  _waitTask_cb taskid k r = Ok Again -> k < limit /\ task_pending r = true.
Proof.
  destruct r as [err | task]; simpl.
  - destruct (SDCClientError _ _); simpl; intros; discriminate.
  - destruct (status task =? "failure").
    + destruct (history task) as [| h0 rest]; simpl; [intros; discriminate |].
      destruct (event h0); simpl; intros; discriminate.
    + destruct (status task =? "complete"); [intros; discriminate |].
      destruct (k <? limit)%nat eqn:Hk; [| intros; discriminate].
      intros _. split; [now apply Nat.ltb_lt | reflexivity].
Qed.

Lemma task_cb_timeout (taskid : string) (k : nat) (r : TaskResult) :
  _waitTask_cb taskid k r = Ok (Done (Some (timeout_task taskid))) -> limit <= k.
Proof.
  destruct r as [err | task]; simpl.
  - destruct (SDCClientError _ _) as [e |] eqn:He; simpl; [| intros; discriminate].
    intros H. apply SDCClientError_code in He. inversion H; subst. discriminate.
  - destruct (status task =? "failure").
    + destruct (history task) as [| h0 rest]; simpl; [intros; discriminate |].
      destruct (event h0) as [ev |]; simpl; [| intros; discriminate].
      destruct (ev_error ev); simpl; intros H; inversion H.
    + destruct (status task =? "complete"); [intros; discriminate |].
      destruct (k <? limit)%nat eqn:Hk; [intros; discriminate |].
      intros _. now apply Nat.ltb_ge.
Qed.

Lemma server_cb_pending (change : Change) (server_uuid : string) (k : nat)
  (r : ServerResult) :
  server_pending change r = true ->
  _waitServer_cb change server_uuid k r
  = if (k <? limit)%nat then Ok Again
    else Ok (Done (Some (timeout_server server_uuid))).
Proof.
  destruct r as [err | srv]; simpl; [intros; discriminate |].
  unfold cn_agent_entries.
  destruct (filter _ (agents srv)) as [| a l]; simpl; [intros; discriminate |].
  destruct (image_uuid a =? uuid (c_image change)); simpl; [intros; discriminate |].
  reflexivity.
Qed.

Lemma server_cb_again (change : Change) (server_uuid : string) (k : nat)
  (r : ServerResult) :
  _waitServer_cb change server_uuid k r = Ok Again ->
  k < limit /\ server_pending change r = true.
Proof.
  destruct r as [err | srv]; simpl.
  - destruct (SDCClientError _ _); simpl; intros; discriminate.
  - unfold cn_agent_entries.
    destruct (filter _ (agents srv)) as [| a l]; simpl; [intros; discriminate |].
    destruct (image_uuid a =? uuid (c_image change)); [intros; discriminate |].
    destruct (k <? limit)%nat eqn:Hk; [| intros; discriminate].
    intros _. split; [now apply Nat.ltb_lt | reflexivity].
Qed.

Lemma server_cb_timeout (change : Change) (server_uuid : string) (k : nat)
  (r : ServerResult) :
  _waitServer_cb change server_uuid k r
  = Ok (Done (Some (timeout_server server_uuid))) -> limit <= k.
Proof.
  destruct r as [err | srv]; simpl.
  - destruct (SDCClientError _ _) as [e |] eqn:He; simpl; [| intros; discriminate].
    intros H. apply SDCClientError_code in He. inversion H; subst. discriminate.
  - destruct (filter _ (agents srv)) as [| a l]; simpl; [intros; discriminate |].
    destruct (image_uuid a =? uuid (c_image change)); [intros; discriminate |].
    destruct (k <? limit)%nat eqn:Hk; [intros; discriminate |].
    intros _. now apply Nat.ltb_ge.
Qed.

Lemma settle_done (s : Outcome PollStep) (er : option JsError) :
  settle s = Some (Ok er) -> s = Ok (Done er).
Proof.
  destruct s as [[| er'] | t]; simpl; intros H; inversion H; reflexivity.
Qed.

End PollCallbacks.

Section PollTheorems.

Lemma task_prefix_again (taskid : string) (q : nat -> TaskResult) (k : nat) :
  k <= limit ->
  (forall j, 0 < j < k -> task_pending (q j) = true) ->
  forall j, 0 < j < k -> _waitTask_cb taskid j (q j) = Ok Again.
Proof.
  intros Hk Hpend j Hj. rewrite (task_cb_pending _ _ _ (Hpend j Hj)).
  destruct (j <? limit)%nat eqn:Hlt; [reflexivity |].
  apply Nat.ltb_ge in Hlt. lia.
Qed.

Lemma server_prefix_again (change : Change) (server_uuid : string)
  (q : nat -> ServerResult) (k : nat) :
  k <= limit ->
  (forall j, 0 < j < k -> server_pending change (q j) = true) ->
  forall j, 0 < j < k -> _waitServer_cb change server_uuid j (q j) = Ok Again.
Proof.
  intros Hk Hpend j Hj. rewrite (server_cb_pending _ _ _ _ (Hpend j Hj)).
  destruct (j <? limit)%nat eqn:Hlt; [reflexivity |].
  apply Nat.ltb_ge in Hlt. lia.
Qed.

(** C4: with [limit] rounds of fuel or more, each of the two poll loops
    ends, whatever the answers: after at least 1 and at most 60 queries,
    with a 5000 ms timer between consecutive queries.  If none of the 60
    answers is terminal, it ends at the 60th with the [UpdateError]
    'Timeout(5m) waiting for ...' naming the task or the server; and it
    ends with that error only at the 60th query. *)
Theorem poll_loops_stop_within_limit (fuel : nat) :
  limit <= fuel ->
  (forall taskid q, exists r,
     waitUntilTaskCompletes fuel taskid q = Some r /\
     1 <= queries r <= 60 /\
     timers r = repeat 5000 (queries r - 1) /\
     ((forall k, 1 <= k <= 60 -> task_pending (q k) = true) ->
      outcome r = Ok (Some (timeout_task taskid)) /\ queries r = 60) /\
     (outcome r = Ok (Some (timeout_task taskid)) -> queries r = 60)) /\
  (forall change server_uuid q, exists r,
     waitUntilAgentsChange fuel change server_uuid q = Some r /\
     1 <= queries r <= 60 /\
     timers r = repeat 5000 (queries r - 1) /\
     ((forall k, 1 <= k <= 60 -> server_pending change (q k) = true) ->
      outcome r = Ok (Some (timeout_server server_uuid)) /\ queries r = 60) /\
     (outcome r = Ok (Some (timeout_server server_uuid)) -> queries r = 60)).
Proof.
  intros Hfuel. split.
  - intros taskid q. unfold waitUntilTaskCompletes. rewrite _waitTask_unfold.
    destruct (poll_loop_spec (fun k => _waitTask_cb taskid k (q k))
                (fun k H => proj1 (task_cb_again _ _ _ H)) fuel 0 []
                ltac:(unfold limit; lia) ltac:(lia))
      as (k & o & Hrun & Hrange & Hsettle & _).
    rewrite Hrun. eexists. split; [reflexivity |]. simpl.
    unfold limit in Hrange. rewrite Nat.sub_0_r.
    split; [lia |]. split; [reflexivity |]. split.
    + intros Hpend. rewrite (task_cb_pending _ _ _ (Hpend k ltac:(lia))) in Hsettle.
      destruct (k <? limit)%nat eqn:Hlt; simpl in Hsettle; [discriminate |].
      apply Nat.ltb_ge in Hlt. unfold limit in Hlt.
      split; [congruence | lia].
    + intros ->. apply settle_done, task_cb_timeout in Hsettle.
      unfold limit in Hsettle. lia.
  - intros change server_uuid q. unfold waitUntilAgentsChange.
    rewrite _waitServer_unfold.
    destruct (poll_loop_spec (fun k => _waitServer_cb change server_uuid k (q k))
                (fun k H => proj1 (server_cb_again _ _ _ _ H)) fuel 0 []
                ltac:(unfold limit; lia) ltac:(lia))
      as (k & o & Hrun & Hrange & Hsettle & _).
    rewrite Hrun. eexists. split; [reflexivity |]. simpl.
    unfold limit in Hrange. rewrite Nat.sub_0_r.
    split; [lia |]. split; [reflexivity |]. split.
    + intros Hpend.
      rewrite (server_cb_pending _ _ _ _ (Hpend k ltac:(lia))) in Hsettle.
      destruct (k <? limit)%nat eqn:Hlt; simpl in Hsettle; [discriminate |].
      apply Nat.ltb_ge in Hlt. unfold limit in Hlt.
      split; [congruence | lia].
    + intros ->. apply settle_done, server_cb_timeout in Hsettle.
      unfold limit in Hsettle. lia.
Qed.

Lemma poll_loops_stop_within_limit_witness :
  exists r,
    waitUntilTaskCompletes 60 "t1"
      (fun _ => TaskOk {| status := "running"; history := [] |}) = Some r /\
    outcome r = Ok (Some (timeout_task "t1")) /\ queries r = 60.
Proof.
  destruct (proj1 (poll_loops_stop_within_limit 60 (le_n 60)) "t1"
              (fun _ => TaskOk {| status := "running"; history := [] |}))
    as (r & Hrun & _ & _ & Hall & _).
  exists r. split; [exact Hrun |].
  apply Hall. intros k _. reflexivity.
Defined.

(** C5, as stated, fails at two answers: a failed task with an empty
    history makes the poll throw instead of reporting the generic message,
    and a query error whose body has no string message makes it throw
    instead of reporting an [SDCClientError]. *)
Lemma task_poll_throws_on_malformed_answers :
  waitUntilTaskCompletes 60 "t1"
    (fun _ => TaskOk {| status := "failure"; history := [] |})
  = Some {| outcome := Throw TypeError; queries := 1; timers := [] |} /\
  waitUntilTaskCompletes 60 "t1"
    (fun _ => TaskErr (ClientError (Some {| b_code := JUndefined;
                                            b_message := JUndefined;
                                            b_errors := ErrorsFalsy |})))
  = Some {| outcome := Throw (AssertionError "cause.body.message");
            queries := 1; timers := [] |}.
Proof. split; reflexivity. Qed.

(** C5, amended: let the [k]-th answer ([k] at most 60) be the first that
    is not pending.  If it is a task with status 'failure' whose first
    history entry has an event, the poll fails with the [UpdateError]
    'Task <id> failed', followed by ' with error: ' and the remote text
    when that event carries an error.  If it is a task with status
    'complete', the poll ends with no error.  If it is a query error with
    a well-shaped body, the poll fails with the [SDCClientError] built
    from that error and the client name 'cnapi'. *)
Theorem task_poll_terminal_answers (fuel : nat) (taskid : string)
  (q : nat -> TaskResult) (k : nat) :
  limit <= fuel -> 0 < k <= limit ->
  (forall j, 0 < j < k -> task_pending (q j) = true) ->
  (forall task ev rest,
     q k = TaskOk task -> status task = "failure" ->
     history task = {| event := Some ev |} :: rest ->
     waitUntilTaskCompletes fuel taskid q
     = Some {| outcome := Ok (Some (MkSdcAdmError "Update"
                                      (("Task " ++ taskid ++ " failed")
                                         ++ failure_detail ev)
                                      (Some 2%Z)));
               queries := k; timers := repeat interval (k - 1) |}) /\
  (forall task,
     q k = TaskOk task -> status task = "complete" ->
     waitUntilTaskCompletes fuel taskid q
     = Some {| outcome := Ok None; queries := k;
               timers := repeat interval (k - 1) |}) /\
  (forall b, q k = TaskErr (ClientError (Some b)) -> well_shaped b ->
     exists e,
       SDCClientError (VObject (ClientError (Some b))) (VString "cnapi") = Ok e /\
       err_code e = Some "SDCClient" /\
       err_exitStatus e = Some 1%Z /\
       waitUntilTaskCompletes fuel taskid q
       = Some {| outcome := Ok (Some e); queries := k;
                 timers := repeat interval (k - 1) |}).
Proof.
  intros Hfuel Hk Hpend.
  pose proof (task_prefix_again taskid q k (proj2 Hk) Hpend) as Hprefix.
  assert (Hfirst : forall o, settle (_waitTask_cb taskid k (q k)) = Some o ->
            waitUntilTaskCompletes fuel taskid q
            = Some {| outcome := o; queries := k;
                      timers := repeat interval (k - 1) |}).
  { intros o Ho. unfold waitUntilTaskCompletes. rewrite _waitTask_unfold.
    apply (poll_loop_first (fun k => _waitTask_cb taskid k (q k))
             (fun k H => proj1 (task_cb_again _ _ _ H)));
      [assumption | lia | assumption | assumption]. }
  split; [| split].
  - intros task ev rest Hq Hst Hhist. apply Hfirst. rewrite Hq.
    unfold _waitTask_cb. rewrite Hst, Hhist. simpl.
    unfold failure_detail. destruct (ev_error ev); simpl;
      [reflexivity | now rewrite append_empty_r].
  - intros task Hq Hst. apply Hfirst. rewrite Hq.
    unfold _waitTask_cb. rewrite Hst. reflexivity.
  - intros b Hq Hb.
    destruct (SDCClientError_well_shaped b "cnapi" Hb) as (e & He & Hcode & Hexit).
    exists e. split; [exact He |]. split; [exact Hcode |]. split; [exact Hexit |].
    apply Hfirst. rewrite Hq. unfold _waitTask_cb. rewrite He. reflexivity.
Qed.

Lemma task_poll_terminal_answers_witness :
  waitUntilTaskCompletes 60 "t1"
    (fun j => if (j <? 3)%nat
              then TaskOk {| status := "running"; history := [] |}
              else TaskOk {| status := "failure";
                             history := [{| event := Some {| ev_error :=
                               Some {| ee_message := Some "disk full" |} |} |}] |})
  = Some {| outcome := Ok (Some (MkSdcAdmError "Update"
                                   "Task t1 failed with error: disk full"
                                   (Some 2%Z)));
            queries := 3; timers := [5000; 5000] |}.
Proof.
  refine (proj1 (task_poll_terminal_answers 60 "t1" _ 3 (le_n 60) _ _)
            {| status := "failure";
               history := [{| event := Some {| ev_error :=
                 Some {| ee_message := Some "disk full" |} |} |}] |}
            {| ev_error := Some {| ee_message := Some "disk full" |} |} []
            eq_refl eq_refl eq_refl).
  - unfold limit. lia.
  - intros j Hj. destruct j as [| [| [| j]]]; [reflexivity | reflexivity | reflexivity | lia].
Defined.

(** C10: when the first answer of [getServer] that is not pending is a
    successful one without an agents entry named 'cn-agent', the poll
    throws a [TypeError] and its callback is never called; hence whenever
    the callback is called, every successful answer received had such an
    entry.  If every answer is a successful one with such an entry or an
    error with a well-shaped body, the callback is called. *)
Theorem agent_poll_needs_cn_agent_entry (fuel : nat) (change : Change)
  (server_uuid : string) (q : nat -> ServerResult) :
  limit <= fuel ->
  (forall k srv, 0 < k <= limit ->
     (forall j, 0 < j < k -> server_pending change (q j) = true) ->
     q k = ServerOk srv -> cn_agent_entries srv = [] ->
     waitUntilAgentsChange fuel change server_uuid q
     = Some {| outcome := Throw TypeError; queries := k;
               timers := repeat interval (k - 1) |}) /\
  (forall r er, waitUntilAgentsChange fuel change server_uuid q = Some r ->
     outcome r = Ok er ->
     forall j srv, 0 < j <= queries r -> q j = ServerOk srv ->
       cn_agent_entries srv <> []) /\
  ((forall j, 0 < j <= limit -> server_answer_ok (q j)) ->
   exists r er, waitUntilAgentsChange fuel change server_uuid q = Some r /\
                outcome r = Ok er).
Proof.
  intros Hfuel.
  pose (cb := fun k => _waitServer_cb change server_uuid k (q k)).
  pose proof (fun k H => proj1 (server_cb_again change server_uuid k (q k) H))
    as Hbelow.
  assert (Hmissing : forall j srv, q j = ServerOk srv -> cn_agent_entries srv = [] ->
            cb j = Throw TypeError).
  { intros j srv Hq Hnone. unfold cb, _waitServer_cb. rewrite Hq.
    unfold cn_agent_entries in Hnone. rewrite Hnone. reflexivity. }
  unfold waitUntilAgentsChange. rewrite _waitServer_unfold. fold cb.
  destruct (poll_loop_spec cb Hbelow fuel 0 [] ltac:(unfold limit; lia) ltac:(lia))
    as (k' & o' & Hrun & Hrange & Hsettle & Hprefix).
  split; [| split].
  - intros k srv Hk Hpend Hq Hnone.
    apply (poll_loop_first cb Hbelow); [assumption | lia | |].
    + apply server_prefix_again; [lia | assumption].
    + rewrite (Hmissing k srv Hq Hnone). reflexivity.
  - intros r er Hr Ho j srv Hj Hq Hnone.
    rewrite Hrun in Hr. inversion Hr; subst r; clear Hr. simpl in *. subst o'.
    pose proof (Hmissing j srv Hq Hnone) as Hthrow.
    destruct (Nat.eq_dec j k') as [-> | Hne].
    + rewrite Hthrow in Hsettle. discriminate.
    + rewrite (Hprefix j) in Hthrow by lia. discriminate.
  - intros Hok. rewrite Hrun. 
    assert (exists er, o' = Ok er) as [er ->].
    { specialize (Hok k' ltac:(lia)). unfold cb, _waitServer_cb in Hsettle.
      destruct (q k') as [[[b |] | ] | srv]; simpl in Hok; try contradiction.
      - destruct Hok as ((m & Hm) & Hc & (l & Hl)).
        rewrite (SDCClientError_ok b m "cnapi" l Hm Hc Hl) in Hsettle.
        simpl in Hsettle. inversion Hsettle. eauto.
      - unfold cn_agent_entries in Hok.
        destruct (filter _ (agents srv)) as [| a l]; [contradiction |].
        simpl in Hsettle.
        destruct (image_uuid a =? uuid (c_image change)); simpl in Hsettle;
          [inversion Hsettle; eauto |].
        destruct (k' <? limit)%nat; simpl in Hsettle;
          [discriminate | inversion Hsettle; eauto]. }
    eexists. eexists. split; reflexivity.
Qed.

Lemma agent_poll_needs_cn_agent_entry_witness :
  waitUntilAgentsChange 60
    {| c_service := "cn-agent";
       c_image := {| uuid := "img-1"; img_name := "cn-agent"; img_version := "2.0.0" |};
       insts := [] |}
    "node-b"
    (fun _ => ServerOk {| agents := [{| name := "vm-agent"; image_uuid := "img-0" |}] |})
  = Some {| outcome := Throw TypeError; queries := 1; timers := [] |}.
Proof.
  refine (proj1 (agent_poll_needs_cn_agent_entry 60 _ "node-b" _ (le_n 60))
            1 {| agents := [{| name := "vm-agent"; image_uuid := "img-0" |}] |}
            _ _ eq_refl eq_refl).
  - unfold limit. lia.
  - intros j Hj. lia.
Defined.

End PollTheorems.

(** * Properties of the work queue *)

Section ListFacts.

Context {A : Type}.

Lemma nth_error_pieces (l : list A) (k : nat) (x : A) :
  nth_error l k = Some x ->
  exists l1 l2, l = (l1 ++ x :: l2)%list /\
    (forall y : A, replace_nth k y l = (l1 ++ y :: l2)%list) /\
    remove_nth k l = (l1 ++ l2)%list.
Proof.
  intros H. destruct (nth_error_split l k H) as (l1 & l2 & -> & Hlen).
  exists l1, l2. unfold replace_nth, remove_nth.
  assert (Hf : firstn k (l1 ++ x :: l2) = l1).
  { rewrite <- Hlen, firstn_app, Nat.sub_diag, firstn_all. simpl.
    apply app_nil_r. }
  assert (Hs : skipn (S k) (l1 ++ x :: l2) = l2).
  { rewrite <- Hlen, skipn_app, skipn_all2 by lia.
    replace (S (length l1) - length l1) with 1 by lia. reflexivity. }
  rewrite Hf, Hs. repeat split.
Qed.

End ListFacts.

Section QueueFacts.

Variable change : Change.
Variable cnAgentInsts : list Inst.
Variable w : World.
Variable c : nat.

Lemma pending_cost_app (l1 l2 : list (nat * Chain)) :
  pending_cost (l1 ++ l2) = pending_cost l1 + pending_cost l2.
Proof.
  unfold pending_cost. now rewrite map_app, list_sum_app.
Qed.

Lemma cost_pos (ch : Chain) : 0 < cost ch.
Proof. destruct ch; simpl; lia. Qed.

(** Starting waiting entries never adds to the work that is left. *)
Lemma dispatchLoop_measure (todo : list (nat * Inst)) (q : Queue) :
  measure (dispatchLoop change cnAgentInsts w c todo q)
  <= pending_cost (pending q) + S (S limit) * length todo.
Proof.
  revert q. induction todo as [| [n arg] rest IH]; intros q.
  - unfold measure. simpl. lia.
  - simpl. destruct (length (pending q) <? c)%nat.
    + destruct (upAgent cnAgentInsts w arg) as [[e |] | t].
      * etransitivity; [apply IH |]. simpl. lia.
      * etransitivity; [apply IH |]. simpl. rewrite pending_cost_app.
        unfold pending_cost at 2. simpl. lia.
      * unfold measure. simpl. lia.
    + unfold measure. simpl. lia.
Qed.

(** Starting waiting entries establishes the invariant. *)
Lemma dispatchLoop_Inv (all todo started : list (nat * Inst)) (q : Queue) :
  all = (started ++ todo)%list ->
  length (pending q) <= c ->
  posts_from cnAgentInsts w started q ->
  recorded_from cnAgentInsts w started q ->
  dispatched_from change cnAgentInsts w started q ->
  Inv change cnAgentInsts w c all (dispatchLoop change cnAgentInsts w c todo q).
Proof.
  revert started q.
  induction todo as [| [n arg] rest IH];
    intros started q Hall Hlen Hposts Hrec Hdis.
  - exists started. simpl. repeat split; try assumption.
    intros _ Hne. now contradiction Hne.
  - simpl. destruct (length (pending q) <? c)%nat eqn:Hfree.
    + apply Nat.ltb_lt in Hfree.
      assert (Hall' : all = ((started ++ [(n, arg)]) ++ rest)%list)
        by now rewrite <- app_assoc.
      assert (Hposts' : forall q', log q' = log q ->
                posts_from cnAgentInsts w (started ++ [(n, arg)]) q').
      { intros q' Hlog m s i Hin. rewrite Hlog in Hin.
        destruct (Hposts m s i Hin) as (a & Ha & Hd & Hs).
        exists a. split; [apply in_or_app; now left | now split]. }
      destruct (upAgent cnAgentInsts w arg) as [[e |] | t] eqn:Hup.
      * apply (IH (started ++ [(n, arg)])%list); simpl; try assumption.
        -- now apply Hposts'.
        -- intros Hth m a e' Hin Hup'. simpl in *. apply in_or_app.
           apply in_app_or in Hin. destruct Hin as [Hin | [Heq | []]].
           ++ left. now apply (Hrec Hth m a e').
           ++ right. inversion Heq; subst. rewrite Hup in Hup'.
              inversion Hup'. now left.
        -- intros m a Hin Hup'. simpl.
           apply in_app_or in Hin. destruct Hin as [Hin | [Heq | []]].
           ++ now apply Hdis.
           ++ inversion Heq; subst. rewrite Hup in Hup'. discriminate.
      * apply (IH (started ++ [(n, arg)])%list); simpl; try assumption.
        -- rewrite length_app. simpl. lia.
        -- intros m s i Hin. simpl in Hin. apply in_app_or in Hin.
           destruct Hin as [Hin | [Heq | []]].
           ++ destruct (Hposts m s i Hin) as (a & Ha & Hd & Hs).
              exists a. split; [apply in_or_app; now left | now split].
           ++ inversion Heq; subst. exists arg.
              split; [apply in_or_app; right; now left | now split].
        -- intros Hth m a e' Hin Hup'. simpl in *.
           apply in_app_or in Hin. destruct Hin as [Hin | [Heq | []]].
           ++ now apply (Hrec Hth m a e').
           ++ inversion Heq; subst. rewrite Hup in Hup'. discriminate.
        -- intros m a Hin Hup'. simpl. apply in_or_app.
           apply in_app_or in Hin. destruct Hin as [Hin | [Heq | []]].
           ++ left. now apply Hdis.
           ++ inversion Heq; subst. right. now left.
      * exists (started ++ [(n, arg)])%list. simpl.
        split; [assumption |]. split; [lia |].
        split; [intros Hth; discriminate |].
        split; [now apply Hposts' |].
        split; [intros Hth; discriminate |].
        intros m a Hin Hup'. simpl.
        apply in_app_or in Hin. destruct Hin as [Hin | [Heq | []]].
        -- now apply Hdis.
        -- inversion Heq; subst. rewrite Hup in Hup'. discriminate.
    + apply Nat.ltb_ge in Hfree. exists started. simpl.
      repeat split; try assumption. intros _ _. assumption.
Qed.

(** A resumed chain that waits again has less left to wait for, and
    makes no install-agent request. *)
Lemma resume_continue (n : nat) (ch ch' : Chain) (evs : list Event) :
  resume change w n ch = Ok (Continue ch' evs) ->
  cost ch' < cost ch /\ forall m s i, ~ In (EvPost m s i) evs.
Proof.
  intros H. destruct ch as [arg | arg taskid k | arg k]; simpl in H.
  - unfold cnapiCb in H. destruct (post w n) as [er2 | res].
    + destruct (SDCClientError _ _); simpl in H; discriminate.
    + destruct (service arg =? "cn-agent"); inversion H; subst;
        (split; [unfold cost, limit; lia | intros m s i [Hin | []]; discriminate]).
  - destruct (_waitTask_cb taskid k (getTask w n k)) as [[| er] | t] eqn:Hcb;
      simpl in H; inversion H; subst.
    apply task_cb_again in Hcb. destruct Hcb as [Hk _]. unfold cost.
    split; [lia |].
    intros m s i [Hin | [Hin | []]]; discriminate.
  - destruct (_waitServer_cb change (server arg) k (getServer w n k))
      as [[| er] | t] eqn:Hcb; simpl in H; inversion H; subst.
    apply server_cb_again in Hcb. destruct Hcb as [Hk _]. unfold cost.
    split; [lia |].
    intros m s i [Hin | [Hin | []]]; discriminate.
Qed.

Lemma idle_false (q : Queue) :
  idle q = false -> thrown q = None /\ pending q <> [].
Proof.
  unfold idle. destruct (thrown q); [discriminate |].
  destruct (pending q); [discriminate |]. intros _. split; [reflexivity | discriminate].
Qed.

(** The chain a step picks exists. *)
Lemma step_picks (choice : nat) (q : Queue) :
  pending q <> [] ->
  exists n ch, nth_error (pending q) (choice mod length (pending q)) = Some (n, ch).
Proof.
  intros Hne.
  assert (Hlt : choice mod length (pending q) < length (pending q)).
  { apply Nat.mod_upper_bound. destruct (pending q); [contradiction | discriminate]. }
  apply nth_error_Some in Hlt.
  destruct (nth_error (pending q) (choice mod length (pending q))) as [[n ch] |];
    [eauto | contradiction].
Qed.

(** A step preserves the invariant. *)
Lemma step_Inv (all : list (nat * Inst)) (choice : nat) (q : Queue) :
  Inv change cnAgentInsts w c all q ->
  Inv change cnAgentInsts w c all (step change cnAgentInsts w c choice q).
Proof.
  intros HI. unfold step. destruct (idle q) eqn:Hidle; [assumption |].
  destruct (idle_false q Hidle) as [Hth Hne].
  destruct (step_picks choice q Hne) as (n & ch & Hnth). rewrite Hnth.
  destruct (nth_error_pieces _ _ _ Hnth) as (l1 & l2 & Hl & Hrep & Hrem).
  destruct HI as (started & Hall & Hlen & Hfull & Hposts & Hrec & Hdis).
  destruct (resume change w n ch) as [[ch' evs | pushed cbarg] | t] eqn:Hres.
  - exists started. simpl. rewrite Hrep.
    assert (Hsame : length (l1 ++ (n, ch') :: l2) = length (pending q)).
    { rewrite Hl, !length_app. reflexivity. }
    rewrite Hsame. split; [assumption |]. split; [assumption |].
    split; [assumption |]. split; [| split; [assumption |]].
    + intros m s i Hin. simpl in Hin. apply in_app_or in Hin.
      destruct Hin as [Hin | Hin]; [exact (Hposts m s i Hin) |].
      now apply (proj2 (resume_continue _ _ _ _ Hres)) in Hin.
    + intros m a Hin Hup. simpl. apply in_or_app. left. now apply Hdis.
  - unfold dispatchNext. simpl.
    apply (dispatchLoop_Inv all (queued q) started); simpl; try assumption.
    + rewrite Hrem. rewrite Hl, length_app in Hlen. simpl in Hlen.
      rewrite length_app. lia.
    + intros Hth' m a e Hin Hup. simpl. apply in_or_app. left.
      now apply (Hrec Hth m a e).
  - exists started. simpl. repeat split; try assumption; intros; discriminate.
Qed.

(** A step ends the run or leaves strictly less to wait for. *)
Lemma step_progress (choice : nat) (q : Queue) :
  idle q = false ->
  idle (step change cnAgentInsts w c choice q) = true \/
  measure (step change cnAgentInsts w c choice q) < measure q.
Proof.
  intros Hidle. unfold step. rewrite Hidle.
  destruct (idle_false q Hidle) as [Hth Hne].
  destruct (step_picks choice q Hne) as (n & ch & Hnth). rewrite Hnth.
  destruct (nth_error_pieces _ _ _ Hnth) as (l1 & l2 & Hl & Hrep & Hrem).
  destruct (resume change w n ch) as [[ch' evs | pushed cbarg] | t] eqn:Hres.
  - right. unfold measure. simpl. rewrite Hrep, Hl, !pending_cost_app.
    unfold pending_cost. simpl.
    pose proof (proj1 (resume_continue _ _ _ _ Hres)). lia.
  - right. unfold dispatchNext.
    eapply Nat.le_lt_trans; [apply dispatchLoop_measure |].
    unfold measure. simpl. rewrite Hrem, Hl, !pending_cost_app.
    unfold pending_cost at 4. simpl.
    pose proof (cost_pos ch). fold (pending_cost l2). lia.
  - left. reflexivity.
Qed.

Lemma run_idle (fuel : nat) (sched : nat -> nat) (t : nat) (q : Queue) :
  idle q = true -> run change cnAgentInsts w c fuel sched t q = q.
Proof.
  intros H. destruct fuel; simpl; [reflexivity | now rewrite H].
Qed.

Lemma run_Inv (all : list (nat * Inst)) (fuel : nat) (sched : nat -> nat)
  (t : nat) (q : Queue) :
  Inv change cnAgentInsts w c all q ->
  Inv change cnAgentInsts w c all (run change cnAgentInsts w c fuel sched t q).
Proof.
  revert t q. induction fuel as [| fuel IH]; intros t q HI; simpl; [assumption |].
  destruct (idle q); [assumption |]. apply IH. now apply step_Inv.
Qed.

(** Every schedule comes to rest within [measure] steps. *)
Lemma run_rests (fuel : nat) (sched : nat -> nat) (t : nat) (q : Queue) :
  measure q <= fuel ->
  idle (run change cnAgentInsts w c fuel sched t q) = true.
Proof.
  revert t q. induction fuel as [| fuel IH]; intros t q Hm; simpl.
  - destruct (idle q) eqn:Hidle; [reflexivity |].
    destruct (idle_false q Hidle) as [_ Hne].
    unfold measure in Hm. destruct (pending q) as [| [n ch] l]; [contradiction |].
    unfold pending_cost in Hm. simpl in Hm. pose proof (cost_pos ch). lia.
  - destruct (idle q) eqn:Hidle; [assumption |].
    destruct (step_progress (sched t) q Hidle) as [Hdone | Hless].
    + now rewrite run_idle.
    + apply IH. lia.
Qed.

Lemma length_entries (items : list Inst) : length (entries items) = length items.
Proof.
  unfold entries. rewrite length_combine, length_seq. apply Nat.min_id.
Qed.

Lemma push_Inv (errs0 : list JsError) (items : list Inst) :
  Inv change cnAgentInsts w c (entries items) (push change cnAgentInsts w c errs0 items).
Proof.
  unfold push, dispatchNext. simpl.
  apply (dispatchLoop_Inv (entries items) _ []); simpl; try reflexivity; try lia.
  - intros m s i [].
  - intros _ m a e [].
  - intros m a [].
Qed.

Lemma push_measure (errs0 : list JsError) (items : list Inst) :
  measure (push change cnAgentInsts w c errs0 items) <= S (S limit) * length items.
Proof.
  unfold push, dispatchNext. simpl.
  etransitivity; [apply dispatchLoop_measure |]. simpl.
  fold (entries items). rewrite length_entries. unfold pending_cost. simpl. lia.
Qed.

End QueueFacts.

(** * Properties of the fan-out of one Change *)

Section FanOutFacts.

Variable change : Change.
Variable cnAgentInsts : list Inst.
Variable w : World.

Lemma fanOut_Inv (fuel : nat) (sched : nat -> nat) (errs0 : list JsError) :
  Inv change cnAgentInsts w CN_CONCUR (entries (insts change))
    (fanOut change cnAgentInsts w fuel sched errs0).
Proof.
  unfold fanOut. apply run_Inv, push_Inv.
Qed.

Lemma queue_result_callback (q : Queue) (r : option JsError) :
  queue_result q = Callback r ->
  thrown q = None /\ pending q = [] /\ queued q = [] /\
  r = match errs q with
      | [] => None
      | _ :: _ => Some (MkSdcAdmError "MultiError" (digest (errs q)) (Some 1%Z))
      end.
Proof.
  unfold queue_result. destruct (thrown q); [discriminate |].
  destruct (pending q); [| discriminate]. destruct (queued q); [| discriminate].
  unfold done. destruct (errs q) as [| e l] eqn:He.
  - simpl. intros H. inversion H. repeat split.
  - rewrite MultiError_ok. simpl. intros H. inversion H. repeat split.
Qed.

(** With [S (S limit)] steps for each instance, the queue drains or an
    exception escapes, whatever the schedule. *)
Lemma fanOut_drains (fuel : nat) (sched : nat -> nat) (errs0 : list JsError) :
  S (S limit) * length (insts change) <= fuel ->
  queue_result (fanOut change cnAgentInsts w fuel sched errs0) <> Unfinished.
Proof.
  intros Hfuel.
  pose proof (fanOut_Inv fuel sched errs0) as (started & _ & _ & Hfull & _).
  assert (Hidle : idle (fanOut change cnAgentInsts w fuel sched errs0) = true).
  { unfold fanOut. apply run_rests.
    etransitivity; [apply push_measure | exact Hfuel]. }
  unfold queue_result. unfold idle in Hidle.
  destruct (thrown _); [discriminate |].
  destruct (pending _); [| discriminate].
  destruct (queued _) as [| x l].
  - unfold done. destruct (errs _); [simpl; discriminate |].
    rewrite MultiError_ok. simpl. discriminate.
  - specialize (Hfull eq_refl ltac:(discriminate)). unfold CN_CONCUR in Hfull.
    simpl in Hfull. lia.
Qed.

End FanOutFacts.

Section EntryNumbers.



End EntryNumbers.

Section VersionGate.



Lemma parse_nonempty (v : string) (pv : Semver.Version) :
  Semver.parse v = Some pv -> v <> "".
Proof.
  intros H ->. discriminate.
Qed.





End VersionGate.

Section FanOutTheorems.

(** C9: in the fan-out of a Change, after any number of steps of any
    schedule, at most 10 chains are pending; the instances still waiting
    are a tail of the Change's list, in its order; and instances wait only
    while all 10 slots are taken.  The bound holds for any concurrency [c]
    the queue is created with; the procedure creates it with
    [CN_CONCUR], which is 10. *)
Theorem at_most_ten_chains_in_flight (change : Change) (cnAgentInsts : list Inst)
  (w : World) (fuel : nat) (sched : nat -> nat) (errs0 : list JsError) :
  (forall c items,
     length (pending (run change cnAgentInsts w c fuel sched 0
                        (push change cnAgentInsts w c errs0 items))) <= c) /\
  CN_CONCUR = 10 /\
  length (pending (fanOut change cnAgentInsts w fuel sched errs0)) <= 10 /\
  (exists started,
     entries (insts change)
     = (started ++ queued (fanOut change cnAgentInsts w fuel sched errs0))%list) /\
  (thrown (fanOut change cnAgentInsts w fuel sched errs0) = None ->
   queued (fanOut change cnAgentInsts w fuel sched errs0) <> [] ->
   length (pending (fanOut change cnAgentInsts w fuel sched errs0)) = 10).
Proof.
  split.
  { intros c items.
    destruct (run_Inv change cnAgentInsts w c (entries items) fuel sched 0 _
                (push_Inv change cnAgentInsts w c errs0 items))
      as (started & _ & Hlen & _). exact Hlen. }
  destruct (fanOut_Inv change cnAgentInsts w fuel sched errs0)
    as (started & Hall & Hlen & Hfull & _).
  unfold CN_CONCUR in *.
  split; [reflexivity |]. split; [exact Hlen |]. split; [now exists started |].
  intros Hth Hq. specialize (Hfull Hth Hq). lia.
Qed.

Lemma at_most_ten_chains_in_flight_witness :
  length (pending (fanOut eleven_nodes [] quiet_world 0 (fun _ => 0) [])) = 10.
Proof.
  apply (proj2 (proj2 (proj2 (proj2
           (at_most_ten_chains_in_flight eleven_nodes [] quiet_world 0
              (fun _ => 0) []))))).
  - vm_compute. reflexivity.
  - vm_compute. discriminate.
Defined.

End FanOutTheorems.

Section WorkerTheorems.




End WorkerTheorems.

Section PlanTheorems.

Variable worlds : nat -> World.
Variable fuel : nat.
Variable scheds : nat -> nat -> nat.

(** A Change that succeeds leaves [errs] empty. *)
Lemma success_leaves_errs_empty (c : Change) (w : World) (sched : nat -> nat) :
  result (updateAgent c w fuel sched []) = Callback None ->
  errs_after (updateAgent c w fuel sched []) = [].
Proof.
  unfold updateAgent.
  destruct (checkMinCNAPIVersion (listInsts w)) as [[[| e] l] | t]; simpl;
    try (intros; discriminate).
  intros H. apply queue_result_callback in H. destruct H as (_ & _ & _ & Hr).
  destruct (errs _); [reflexivity | discriminate].
Qed.

Lemma updateAgent_finishes (c : Change) (w : World) (sched : nat -> nat)
  (errs0 : list JsError) :
  S (S limit) * length (insts c) <= fuel ->
  result (updateAgent c w fuel sched errs0) <> Unfinished.
Proof.
  intros Hfuel. unfold updateAgent.
  destruct (checkMinCNAPIVersion (listInsts w)) as [[[| e] l] | t]; simpl;
    try discriminate.
  now apply fanOut_drains.
Qed.

Lemma pipeline_all_succeed (cs : list Change) (k : nat) :
  (forall j c, nth_error cs j = Some c ->
     result (own worlds fuel scheds (k + j) c) = Callback None) ->
  forEachPipeline worlds fuel scheds k cs []
  = mkExecution (Callback None) [] (own_calls worlds fuel scheds k cs).
Proof.
  revert k. induction cs as [| c rest IH]; intros k Hok; [reflexivity |].
  pose proof (Hok 0 c eq_refl) as H0. rewrite Nat.add_0_r in H0.
  cbn [forEachPipeline own_calls]. unfold own in H0. rewrite H0.
  rewrite (success_leaves_errs_empty _ _ _ H0).
  rewrite IH; [reflexivity |].
  intros j c' Hj. rewrite Nat.add_succ_comm. now apply Hok.
Qed.

Lemma pipeline_first_failure (cs : list Change) (k j : nat) (c : Change) :
  nth_error cs j = Some c ->
  (forall i c', i < j -> nth_error cs i = Some c' ->
     result (own worlds fuel scheds (k + i) c') = Callback None) ->
  result (own worlds fuel scheds (k + j) c) <> Callback None ->
  final (forEachPipeline worlds fuel scheds k cs [])
  = result (own worlds fuel scheds (k + j) c) /\
  trace (forEachPipeline worlds fuel scheds k cs [])
  = own_calls worlds fuel scheds k (firstn (S j) cs).
Proof.
  revert k j. induction cs as [| c0 rest IH]; intros k j Hnth Hbefore Hfail.
  - destruct j; discriminate.
  - destruct j as [| j].
    + inversion Hnth; subst c0. rewrite Nat.add_0_r in Hfail.
      cbn [forEachPipeline firstn own_calls]. unfold own in Hfail. unfold tagged, own.
      destruct (result (updateAgent c (worlds k) fuel (scheds k) [])) as [[e |] | t |]
        eqn:Hres; simpl; rewrite ?Nat.add_0_r, ?Hres, ?app_nil_r;
        try (split; reflexivity).
      now contradiction Hfail.
    + pose proof (Hbefore 0 c0 ltac:(lia) eq_refl) as H0.
      rewrite Nat.add_0_r in H0. unfold own in H0.
      cbn [forEachPipeline firstn own_calls]. rewrite H0.
      rewrite (success_leaves_errs_empty _ _ _ H0).
      destruct (IH (S k) j Hnth) as [Hfinal Htrace].
      * intros i c' Hi Hc'. rewrite Nat.add_succ_comm. apply Hbefore; [lia | exact Hc'].
      * now rewrite Nat.add_succ_comm.
      * cbn [final trace]. rewrite Hfinal, Htrace, Nat.add_succ_comm.
        split; reflexivity.
Qed.

Lemma own_calls_In (cs : list Change) (from t : nat) (ev : Event) :
  In (t, ev) (own_calls worlds fuel scheds from cs) ->
  exists j c, nth_error cs j = Some c /\ t = from + j /\
              In ev (calls (own worlds fuel scheds (from + j) c)).
Proof.
  revert from. induction cs as [| c rest IH]; intros from; [intros [] |].
  cbn [own_calls]. intros Hin. apply in_app_or in Hin. destruct Hin as [Hin | Hin].
  - unfold tagged in Hin. apply in_map_iff in Hin.
    destruct Hin as (ev' & Heq & Hev). inversion Heq; subst.
    exists 0, c. rewrite Nat.add_0_r. now repeat split.
  - destruct (IH (S from) Hin) as (j & c' & Hj & Ht & Hev).
    exists (S j), c'. rewrite Nat.add_succ_r. now repeat split.
Qed.

Lemma trace_tags (cs : list Change) (k : nat) (errs0 : list JsError)
  (a : nat * Event) :
  In a (trace (forEachPipeline worlds fuel scheds k cs errs0)) -> k <= fst a.
Proof.
  revert k errs0. induction cs as [| c rest IH]; intros k errs0; [intros [] |].
  cbn [forEachPipeline].
  assert (Hhere : In a (map (pair k) (calls (updateAgent c (worlds k) fuel (scheds k) errs0)))
                  -> k <= fst a).
  { intros Hin. apply in_map_iff in Hin. destruct Hin as (ev & <- & _). simpl. lia. }
  destruct (result _) as [[e |] | t |]; cbn [trace]; try exact Hhere.
  intros Hin. apply in_app_or in Hin. destruct Hin as [Hin | Hin];
    [now apply Hhere | apply IH in Hin; lia].
Qed.

Lemma in_order_app (k : nat) (here rest : list (nat * Event)) :
  (forall a, In a here -> fst a = k) ->
  (forall a, In a rest -> k <= fst a) ->
  in_order rest ->
  in_order (here ++ rest).
Proof.
  intros Hhere Hrest Hord i j a b Hij Ha Hb.
  destruct (Nat.lt_ge_cases i (length here)) as [Hi | Hi].
  - rewrite nth_error_app1 in Ha by assumption.
    apply nth_error_In in Ha. rewrite (Hhere a Ha).
    destruct (Nat.lt_ge_cases j (length here)) as [Hj | Hj].
    + rewrite nth_error_app1 in Hb by assumption.
      apply nth_error_In in Hb. rewrite (Hhere b Hb). lia.
    + rewrite nth_error_app2 in Hb by assumption.
      apply nth_error_In in Hb. now apply Hrest.
  - rewrite nth_error_app2 in Ha by assumption.
    rewrite nth_error_app2 in Hb by lia.
    apply (Hord (i - length here) (j - length here)); [lia | assumption | assumption].
Qed.

Lemma trace_in_order (cs : list Change) (k : nat) (errs0 : list JsError) :
  in_order (trace (forEachPipeline worlds fuel scheds k cs errs0)).
Proof.
  revert k errs0. induction cs as [| c rest IH]; intros k errs0.
  - intros i j a b _ Ha. destruct i; discriminate.
  - cbn [forEachPipeline].
    assert (Hhere : forall a,
              In a (map (pair k) (calls (updateAgent c (worlds k) fuel (scheds k) errs0)))
              -> fst a = k).
    { intros a Hin. apply in_map_iff in Hin. now destruct Hin as (ev & <- & _). }
    assert (Halone : in_order
              (map (pair k) (calls (updateAgent c (worlds k) fuel (scheds k) errs0)))).
    { rewrite <- (app_nil_r (map _ _)).
      apply (in_order_app k); [exact Hhere | intros a [] |].
      intros i j a b _ Ha. destruct i; discriminate. }
    destruct (result _) as [[e |] | t |]; cbn [trace]; try exact Halone.
    apply (in_order_app k); [exact Hhere | | apply IH].
    intros a Hin. apply trace_tags in Hin. lia.
Qed.

Lemma pipeline_finishes (cs : list Change) (k : nat) (errs0 : list JsError) :
  (forall c, In c cs -> S (S limit) * length (insts c) <= fuel) ->
  final (forEachPipeline worlds fuel scheds k cs errs0) <> Unfinished.
Proof.
  revert k errs0. induction cs as [| c rest IH]; intros k errs0 Hfuel;
    [discriminate |].
  cbn [forEachPipeline].
  pose proof (updateAgent_finishes c (worlds k) (scheds k) errs0
                (Hfuel c (or_introl eq_refl))) as Hc.
  destruct (result _) as [[e |] | t |]; cbn [final]; try discriminate.
  - apply IH. intros c' Hin. apply Hfuel. now right.
  - now contradiction Hc.
Qed.

(** Either every Change succeeds, or there is a first one that does not. *)
Lemma pipeline_cases (cs : list Change) (k : nat) :
  (forall j c, nth_error cs j = Some c ->
     result (own worlds fuel scheds (k + j) c) = Callback None) \/
  (exists j c,
     nth_error cs j = Some c /\
     (forall i c', i < j -> nth_error cs i = Some c' ->
        result (own worlds fuel scheds (k + i) c') = Callback None) /\
     result (own worlds fuel scheds (k + j) c) <> Callback None).
Proof.
  revert k. induction cs as [| c0 rest IH]; intros k.
  - left. intros j c Hj. destruct j; discriminate.
  - destruct (result (own worlds fuel scheds k c0)) as [[e |] | t |] eqn:H0.
    2: { destruct (IH (S k)) as [Hall | (j & c & Hj & Hbefore & Hfail)].
         - left. intros [| j] c Hj.
           + inversion Hj; subst c. now rewrite Nat.add_0_r.
           + rewrite <- Nat.add_succ_comm. now apply Hall.
         - right. exists (S j), c. split; [exact Hj |]. split.
           + intros [| i] c' Hi Hc'.
             * inversion Hc'; subst c'. now rewrite Nat.add_0_r.
             * rewrite <- Nat.add_succ_comm. apply Hbefore; [lia | exact Hc'].
           + now rewrite <- Nat.add_succ_comm. }
    all: right; exists 0, c0; split; [reflexivity |];
      (split; [intros i c' Hi; lia |]); rewrite Nat.add_0_r, H0; discriminate.
Qed.

(** C7, amended: [execute] runs the Changes of the plan one at a time, in
    the plan's order.  If every Change succeeds, the callback gets no
    error and the calls made are those of the Changes, one Change after
    the other.  If some Change does not succeed, the run ends as the first
    such Change ends -- the callback gets its error or, when an exception
    escapes from it, is not invoked at all -- and the calls made are those
    of the Changes up to and including it: no later Change is started.
    One of the two is always the case.  In every case no call of a
    Change comes before a call of an earlier Change.  With [S (S limit)]
    steps of fuel for each instance the run of [execute] comes to its
    end: the callback has been invoked, once, or an exception has
    escaped. *)
Theorem changes_run_one_at_a_time (changes : list Change) :
  ((forall j c, nth_error changes j = Some c ->
      result (own worlds fuel scheds j c) = Callback None) ->
   execute changes worlds fuel scheds
   = mkExecution (Callback None) [] (own_calls worlds fuel scheds 0 changes)) /\
  (forall j c,
     nth_error changes j = Some c ->
     (forall i c', i < j -> nth_error changes i = Some c' ->
        result (own worlds fuel scheds i c') = Callback None) ->
     result (own worlds fuel scheds j c) <> Callback None ->
     final (execute changes worlds fuel scheds) = result (own worlds fuel scheds j c) /\
     trace (execute changes worlds fuel scheds)
     = own_calls worlds fuel scheds 0 (firstn (S j) changes) /\
     forall k ev, In (k, ev) (trace (execute changes worlds fuel scheds)) -> k <= j) /\
  ((forall j c, nth_error changes j = Some c ->
      result (own worlds fuel scheds j c) = Callback None) \/
   (exists j c,
      nth_error changes j = Some c /\
      (forall i c', i < j -> nth_error changes i = Some c' ->
         result (own worlds fuel scheds i c') = Callback None) /\
      result (own worlds fuel scheds j c) <> Callback None)) /\
  in_order (trace (execute changes worlds fuel scheds)) /\
  ((forall c, In c changes -> S (S limit) * length (insts c) <= fuel) ->
   (exists err, final (execute changes worlds fuel scheds) = Callback err) \/
   (exists t, final (execute changes worlds fuel scheds) = Uncaught t)).
Proof.
  unfold execute. split; [| split; [| split; [| split]]].
  - intros Hok. now apply pipeline_all_succeed.
  - intros j c Hnth Hbefore Hfail.
    destruct (pipeline_first_failure changes 0 j c Hnth Hbefore Hfail)
      as [Hfinal Htrace].
    split; [exact Hfinal |]. split; [exact Htrace |].
    intros k ev Hin. rewrite Htrace in Hin.
    apply own_calls_In in Hin. destruct Hin as (i & c' & Hi & -> & _).
    assert (Hlen : i < length (firstn (S j) changes))
      by (apply nth_error_Some; rewrite Hi; discriminate).
    rewrite length_firstn in Hlen. simpl. lia.
  - exact (pipeline_cases changes 0).
  - apply trace_in_order.
  - intros Hfuel. pose proof (pipeline_finishes changes 0 [] Hfuel) as Hfin.
    destruct (final _) as [err | t |]; [left | right |]; eauto.
    now contradiction Hfin.
Qed.

End PlanTheorems.

(** C7, as stated, fails: when an exception escapes from a Change -- here
    the list of instances holds no cnapi instance, so reading the version
    of the first one throws -- the callback of [execute] is not invoked
    at all. *)
Lemma execute_callback_not_invoked_on_exception :
  final (execute [one_node] (fun _ => quiet_world) 200 (fun _ _ => 0))
  = Uncaught TypeError /\
  forall err,
    final (execute [one_node] (fun _ => quiet_world) 200 (fun _ _ => 0))
    <> Callback err.
Proof.
  split; [vm_compute; reflexivity |]. intros err. vm_compute. discriminate.
Qed.

Lemma changes_run_one_at_a_time_witness :
  final (execute [one_node; two_nodes] (fun _ => good_world) 200 (fun _ _ => 0))
  = result (own (fun _ => good_world) 200 (fun _ _ => 0) 1 two_nodes) /\
  trace (execute [one_node; two_nodes] (fun _ => good_world) 200 (fun _ _ => 0))
  = own_calls (fun _ => good_world) 200 (fun _ _ => 0) 0 [one_node; two_nodes].
Proof.
  destruct (proj1 (proj2 (changes_run_one_at_a_time (fun _ => good_world) 200
                            (fun _ _ => 0) [one_node; two_nodes]))
              1 two_nodes eq_refl) as (Hfinal & Htrace & _).
  - intros i c' Hi Hc'. destruct i as [| i]; [| lia].
    inversion Hc'; subst c'. vm_compute. reflexivity.
  - vm_compute. discriminate.
  - split; [exact Hfinal | exact Htrace].
Defined.

Section PipelineTheorems.




(** What ends a chain: an error of a poll loop is pushed onto [errs] and
    [cb] is called without argument. *)
Lemma poll_error_is_pushed (change : Change) (w : World) (n : nat) (ch : Chain)
  (pushed cbarg : option JsError) :
  (forall arg, ch <> AwaitPost arg) ->
  resume change w n ch = Ok (Finish pushed cbarg) -> cbarg = None.
Proof.
  intros Hch. destruct ch as [arg | arg taskid k | arg k]; simpl.
  - now contradiction (Hch arg).
  - destruct (_waitTask_cb taskid k (getTask w n k)) as [[| er] | t]; simpl;
      intros H; inversion H; reflexivity.
  - destruct (_waitServer_cb change (server arg) k (getServer w n k))
      as [[| er] | t]; simpl; intros H; inversion H; reflexivity.
Qed.

(** An error of the install-agent request is handed to [cb] and not
    pushed onto [errs]. *)
Lemma post_error_is_not_pushed (change : Change) (w : World) (n : nat) (arg : Inst)
  (pushed cbarg : option JsError) :
  resume change w n (AwaitPost arg) = Ok (Finish pushed cbarg) ->
  pushed = None /\
  exists er2 e, post w n = PostErr er2 /\
    SDCClientError (VObject er2) (VString "cnapi") = Ok e /\ cbarg = Some e.
Proof.
  simpl. unfold cnapiCb. destruct (post w n) as [er2 | res].
  - destruct (SDCClientError (VObject er2) (VString "cnapi")) as [e |] eqn:He;
      simpl; intros H; inversion H; subst.
    split; [reflexivity |]. exists er2, e. now repeat split.
  - destruct (service arg =? "cn-agent"); intros H; discriminate.
Qed.

(** C1, where the code departs from it: when the install-agent request
    of an instance is answered with an error, the [SDCClientError] is
    handed to the queue's [cb] and never pushed onto [errs]; the Change,
    and with it [execute], ends without any error although the dispatch
    failed. *)
Theorem dispatch_error_is_dropped (fuel : nat) (sched : nat -> nat)
  (scheds : nat -> nat -> nat) :
  (exists e,
     SDCClientError (VObject refused) (VString "cnapi") = Ok e /\
     cbargs (fanOut one_node [node_a] refusing_world (S fuel) sched []) = [e] /\
     errs (fanOut one_node [node_a] refusing_world (S fuel) sched []) = []) /\
  execute [one_node] (fun _ => refusing_world) (S fuel) scheds
  = mkExecution (Callback None) []
      [(0, EvListInsts); (0, EvPost 1 "node-a" "img-1")].
Proof.
  assert (Hrun : forall s, 
            fanOut one_node [node_a] refusing_world (S fuel) s []
            = mkQueue [] [] []
                [MkSdcAdmError "SDCClient"
                   "cnapi client error (InternalError): connect ECONNREFUSED"
                   (Some 1%Z)]
                [EvPost 1 "node-a" "img-1"] None).
  { intros s. unfold fanOut.
    replace (push one_node [node_a] refusing_world CN_CONCUR [] (insts one_node))
      with (mkQueue [] [(1, AwaitPost node_a)] [] [] [EvPost 1 "node-a" "img-1"] None)
      by (vm_compute; reflexivity).
    cbn [run idle thrown pending]. unfold step. cbn [idle thrown pending length].
    rewrite Nat.mod_1_r. cbn [nth_error].
    replace (resume one_node refusing_world 1 (AwaitPost node_a))
      with (Ok (Finish None
                  (Some (MkSdcAdmError "SDCClient"
                           "cnapi client error (InternalError): connect ECONNREFUSED"
                           (Some 1%Z)))))
      by (vm_compute; reflexivity).
    rewrite run_idle; reflexivity. }
  split.
  - eexists. split; [reflexivity |]. rewrite Hrun. split; reflexivity.
  - unfold execute. cbn [forEachPipeline]. unfold updateAgent.
    replace (checkMinCNAPIVersion (listInsts refusing_world))
      with (Ok (NextOk, [node_a])) by (vm_compute; reflexivity).
    unfold updateAgentOnServers. rewrite Hrun. reflexivity.
Qed.

End PipelineTheorems.

Import ErrorHelpers Common Vocabulary2 Vocabulary3.

(** * Properties of the helpers *)

Section LineFacts.

Lemma string_length_append (s t : string) :
  String.length (s ++ t) = String.length s + String.length t.
Proof.
  induction s as [| c s IH]; simpl; [reflexivity | now rewrite IH].
Qed.

Lemma no_char_append (c : ascii) (s t : string) :
  no_char c (s ++ t) = andb (no_char c s) (no_char c t).
Proof.
  induction s as [| d s IH]; simpl; [reflexivity |].
  rewrite IH. now rewrite andb_assoc.
Qed.

Lemma one_line_append (s t : string) :
  one_line s = true -> one_line t = true -> one_line (s ++ t) = true.
Proof.
  unfold one_line. rewrite !no_char_append. intros Hs Ht.
  apply andb_prop in Hs. apply andb_prop in Ht.
  destruct Hs as [-> ->], Ht as [-> ->]. reflexivity.
Qed.

(** A character that is no part of a line end stays in its field. *)
Lemma split_lines_cons (c : ascii) (s : string) :
  Ascii.eqb c LF = false -> Ascii.eqb c CR = false ->
  split_lines (String c s) = cons_head c (split_lines s).
Proof.
  intros Hlf Hcr. cbn [split_lines]. rewrite Hlf, Hcr.
  destruct s; reflexivity.
Qed.

Lemma one_line_cons (c : ascii) (l : string) :
  one_line (String c l) = true ->
  Ascii.eqb c LF = false /\ Ascii.eqb c CR = false /\ one_line l = true.
Proof.
  unfold one_line. simpl. intros H. apply andb_prop in H. destruct H as [Hlf Hcr].
  apply andb_prop in Hlf. apply andb_prop in Hcr.
  destruct Hlf as [Hc1 Hlf], Hcr as [Hc2 Hcr].
  apply negb_true_iff in Hc1. apply negb_true_iff in Hc2.
  now rewrite Hlf, Hcr.
Qed.

(** A text of one line is its own only field. *)
Lemma split_lines_one_line (l : string) :
  one_line l = true -> split_lines l = [l].
Proof.
  induction l as [| c l IH]; [reflexivity |].
  intros H. apply one_line_cons in H. destruct H as (Hlf & Hcr & Hl).
  rewrite split_lines_cons, IH by assumption. reflexivity.
Qed.

(** The first field of a text that starts with a line and a line feed. *)
Lemma split_lines_first (l r : string) :
  one_line l = true ->
  split_lines (l ++ String LF r) = l :: split_lines r.
Proof.
  induction l as [| c l IH]; [reflexivity |].
  intros H. apply one_line_cons in H. destruct H as (Hlf & Hcr & Hl).
  change ((String c l) ++ String LF r) with (String c (l ++ String LF r)).
  rewrite split_lines_cons, IH by assumption. reflexivity.
Qed.

(** Joining lines with line feeds and splitting again gives the lines. *)
Lemma split_lines_concat (ls : list string) :
  ls <> [] -> Forall (fun l => one_line l = true) ls ->
  split_lines (String.concat nl ls) = ls.
Proof.
  induction ls as [| l ls IH]; [intros H; now contradiction H |].
  intros _ Hall. inversion Hall as [| ? ? Hl Hls]; subst.
  destruct ls as [| l' ls'].
  - simpl. now apply split_lines_one_line.
  - change (String.concat nl (l :: l' :: ls'))
      with (l ++ String LF (String.concat nl (l' :: ls'))).
    rewrite split_lines_first by assumption.
    rewrite IH; [reflexivity | discriminate | assumption].
Qed.

(** The fields of a text without carriage returns are lines. *)
Lemma split_lines_fields (s : string) :
  no_char CR s = true -> Forall (fun l => one_line l = true) (split_lines s).
Proof.
  induction s as [| c s IH]; [intros _; repeat constructor |].
  intros H. simpl in H. apply andb_prop in H. destruct H as [Hc Hs].
  apply negb_true_iff in Hc. specialize (IH Hs).
  cbn [split_lines]. destruct (Ascii.eqb c LF) eqn:Hlf.
  - constructor; [reflexivity | assumption].
  - rewrite Hc. cbn [andb].
    assert (G : Forall (fun l => one_line l = true) (cons_head c (split_lines s))).
    { destruct (split_lines s) as [| h t]; simpl.
      - constructor; [| constructor]. unfold one_line. simpl.
        now rewrite Hlf, Hc.
      - inversion IH; subst. constructor; [| assumption].
        unfold one_line in *. simpl. now rewrite Hlf, Hc. }
    destruct s; exact G.
Qed.

Lemma split_lines_nonempty (s : string) : split_lines s <> [].
Proof.
  induction s as [| c s IH]; [discriminate |].
  cbn [split_lines]. destruct (Ascii.eqb c LF); [discriminate |].
  assert (G : cons_head c (split_lines s) <> [])
    by (destruct (split_lines s); discriminate).
  destruct s as [| d s']; [exact G |].
  destruct (andb _ _); [discriminate | exact G].
Qed.

(** A prefix in front of every line. *)
Lemma concat_prefixed (p : string) (ls : list string) :
  ls <> [] ->
  p ++ String.concat (nl ++ p) ls = String.concat nl (map (append p) ls).
Proof.
  induction ls as [| l ls IH]; [intros H; now contradiction H |].
  intros _. destruct ls as [| l' ls']; [reflexivity |].
  cbn [String.concat map] in *.
  rewrite <- (IH ltac:(discriminate)).
  now rewrite !append_assoc.
Qed.

Lemma indentation_nonempty (indent : option string) :
  indentation indent <> "".
Proof.
  unfold indentation, truthy. destruct indent as [s |]; [| discriminate].
  destruct (s =? "") eqn:He; simpl; [discriminate |].
  now apply String.eqb_neq in He.
Qed.

Lemma indentation_idem (p : string) : p <> "" -> indentation (Some p) = p.
Proof.
  intros Hp. unfold indentation, truthy.
  apply String.eqb_neq in Hp. now rewrite Hp.
Qed.

End LineFacts.

Section IndentTheorems.

Lemma indent_is__indent (s : string) (ind : option string) :
  Common.indent s ind = _indent s ind.
Proof. reflexivity. Qed.

Lemma _indent_concat (s : string) (ind : option string) :
  _indent s ind
  = String.concat nl (map (append (indentation ind)) (split_lines s)).
Proof.
  unfold _indent. apply concat_prefixed, split_lines_nonempty.
Qed.

Lemma split_lines__indent (s : string) (ind : option string) :
  no_char CR s = true ->
  one_line (indentation ind) = true ->
  split_lines (_indent s ind)
  = map (append (indentation ind)) (split_lines s).
Proof.
  intros Hs Hind.
  rewrite _indent_concat. apply split_lines_concat.
  - destruct (split_lines s) eqn:E; [now apply split_lines_nonempty in E |].
    discriminate.
  - apply Forall_map. eapply Forall_impl; [| apply split_lines_fields, Hs].
    intros l Hl. now apply one_line_append.
Qed.

(** X1: indenting a text without carriage returns by an indentation of one
    line keeps the number of lines and puts the indentation in front of
    each; an empty or missing indentation stands for four spaces.  The
    same holds of [indent] of common.js. *)
Theorem indent_prefixes_every_line (s : string) (ind : option string) :
  no_char CR s = true ->
  one_line (indentation ind) = true ->
  split_lines (_indent s ind)
  = map (append (indentation ind)) (split_lines s) /\
  split_lines (Common.indent s ind)
  = map (append (indentation ind)) (split_lines s) /\
  length (split_lines (_indent s ind)) = length (split_lines s) /\
  indentation (Some "") = "    " /\ indentation None = "    ".
Proof.
  intros Hs Hind.
  pose proof (split_lines__indent s ind Hs Hind) as H.
  split; [exact H |]. split; [exact H |].
  split; [now rewrite H, length_map |]. split; reflexivity.
Qed.

Lemma indent_prefixes_every_line_witness :
  split_lines (_indent ("a" ++ nl ++ "b") (Some "  ")) = ["  a"; "  b"].
Proof.
  exact (proj1 (indent_prefixes_every_line ("a" ++ nl ++ "b") (Some "  ")
                  eq_refl eq_refl)).
Defined.

(** X2: indenting twice is indenting once by both indentations, the
    second in front of the first. *)
Theorem indent_twice (s : string) (a b : option string) :
  no_char CR s = true ->
  one_line (indentation a) = true ->
  _indent (_indent s a) b = _indent s (Some (indentation b ++ indentation a)).
Proof.
  intros Hs Ha.
  assert (Hne : indentation b ++ indentation a <> "").
  { pose proof (indentation_nonempty b). destruct (indentation b); [contradiction |].
    discriminate. }
  rewrite (_indent_concat (_indent s a) b).
  rewrite (split_lines__indent s a Hs Ha).
  rewrite (_indent_concat s (Some _)), (indentation_idem _ Hne).
  rewrite map_map. f_equal. apply map_ext. intros l. now rewrite append_assoc.
Qed.

Lemma indent_twice_witness :
  _indent (_indent ("a" ++ nl ++ "b") None) (Some "> ")
  = _indent ("a" ++ nl ++ "b") (Some ">     ").
Proof.
  exact (indent_twice ("a" ++ nl ++ "b") None (Some "> ") eq_refl eq_refl).
Defined.

End IndentTheorems.

Section WrapTheorems.

(** X3: the callback wrapped by [sdcClientErrWrap] gets as many arguments
    as the wrapper, the same ones after the first; a first argument that
    is not truthy is passed unchanged; a first argument that is a client
    error with a well-shaped body is replaced by the [SDCClientError] built
    from it; any other truthy first argument makes the wrapper throw, and
    the callback is not called. *)
Theorem sdcClientErrWrap_cases (clientName : string) (a0 : JsValue)
  (rest : list JsValue) :
  (truthy_value a0 = false ->
   sdcClientErrWrap (VString clientName) (a0 :: rest) = Ok (a0 :: rest)) /\
  (forall b, a0 = VObject (ClientError (Some b)) -> well_shaped b ->
   exists e, sdcClientErrWrap (VString clientName) (a0 :: rest) = Ok (VObject e :: rest) /\
             SDCClientError a0 (VString clientName) = Ok e /\
             err_code e = Some "SDCClient" /\
             err_exitStatus e = Some 1%Z) /\
  (truthy_value a0 = true ->
   (forall b, a0 = VObject (ClientError (Some b)) -> ~ well_shaped b) ->
   exists t, sdcClientErrWrap (VString clientName) (a0 :: rest) = Throw t) /\
  (forall args, sdcClientErrWrap (VString clientName) (a0 :: rest) = Ok args ->
   length args = length (a0 :: rest) /\ tl args = rest) /\
  sdcClientErrWrap (VString clientName) [] = Ok [].
Proof.
  split; [| split; [| split; [| split]]].
  - intros H. simpl. now rewrite H.
  - intros b -> ((m & Hm) & Hc & (l & Hl)). simpl.
    rewrite (SDCClientError_ok b m clientName l Hm Hc Hl). simpl.
    eexists. repeat split.
  - intros Ht Hbad. simpl. rewrite Ht.
    destruct (SDCClientError a0 (VString clientName)) as [e |] eqn:He; simpl; eauto.
    exfalso. unfold SDCClientError in He.
    destruct a0 as [| | | c]; simpl in He; try discriminate.
    destruct c as [[b |] |]; simpl in He; try discriminate.
    apply (Hbad b eq_refl). unfold well_shaped.
    destruct (b_code b), (b_message b); simpl in He; try discriminate;
      destruct (field_lines (b_errors b) _) as [r |] eqn:Hf; try discriminate;
      apply field_lines_Ok in Hf; eauto 6.
  - intros args. simpl. destruct (truthy_value a0).
    + destruct (SDCClientError a0 (VString clientName)); simpl; intros H;
        inversion H; split; reflexivity.
    + intros H; inversion H; split; reflexivity.
  - reflexivity.
Qed.

Lemma sdcClientErrWrap_cases_witness :
  exists e,
    sdcClientErrWrap (VString "sapi") [VObject refused; VString "data"]
    = Ok [VObject e; VString "data"] /\
    err_code e = Some "SDCClient".
Proof.
  destruct (proj1 (proj2 (sdcClientErrWrap_cases "sapi" (VObject refused)
                            [VString "data"]))
              {| b_code := JString "InternalError";
                 b_message := JString "connect ECONNREFUSED";
                 b_errors := ErrorsFalsy |}
              eq_refl
              (conj (ex_intro _ "connect ECONNREFUSED" eq_refl)
                    (conj (or_intror (ex_intro _ "InternalError" eq_refl))
                          (ex_intro _ [] eq_refl))))
    as (e & Hwrap & _ & Hcode & _).
  exists e. split; [exact Hwrap | exact Hcode].
Defined.

End WrapTheorems.

Section CommonTheorems.

Lemma zeros_shift (k : nat) (s : string) :
  zeros k ++ String "0"%char s = String "0"%char (zeros k ++ s).
Proof.
  induction k as [| k IH]; simpl; [reflexivity | now rewrite IH].
Qed.

Lemma length_zeros (k : nat) : String.length (zeros k) = k.
Proof.
  induction k as [| k IH]; simpl; [reflexivity | now rewrite IH].
Qed.

Lemma zeroPad_loop_spec (fuel : nat) (s : string) (width : Z) :
  Z.to_nat (width - Z.of_nat (String.length s)) <= fuel ->
  zeroPad_loop fuel s width
  = Some (zeros (Z.to_nat (width - Z.of_nat (String.length s))) ++ s).
Proof.
  revert s. induction fuel as [| fuel IH]; intros s Hfuel.
  - simpl. destruct (Z.ltb_spec (Z.of_nat (String.length s)) width) as [Hlt | Hge];
      [lia |].
    replace (Z.to_nat (width - Z.of_nat (String.length s))) with 0 by lia.
    reflexivity.
  - cbn [zeroPad_loop].
    destruct (Z.ltb_spec (Z.of_nat (String.length s)) width) as [Hlt | Hge].
    + rewrite IH by (simpl; lia). simpl String.length.
      replace (Z.to_nat (width - Z.of_nat (String.length s)))
        with (S (Z.to_nat (width - Z.of_nat (S (String.length s))))) by lia.
      simpl. now rewrite zeros_shift.
    + replace (Z.to_nat (width - Z.of_nat (String.length s))) with 0 by lia.
      reflexivity.
Qed.

(** X4: for a safe integer [n], given fuel for the missing length,
    [zeroPad] ends and returns [String(n)] with zeros in front up to the
    width: its length is the larger of the width and the length of
    [String(n)], so nothing is ever cut off, and for a negative [n] the
    zeros come before the sign. *)
Theorem zeroPad_pads (fuel : nat) (n width : Z) :
  (Z.abs n <= MAX_SAFE_INTEGER)%Z ->
  exists s,
    String_of n = Some s /\
    (Z.to_nat (width - Z.of_nat (String.length s)) <= fuel ->
     exists r,
       zeroPad fuel n width = Some r /\
       r = zeros (Z.to_nat (width - Z.of_nat (String.length s))) ++ s /\
       Z.of_nat (String.length r) = Z.max width (Z.of_nat (String.length s)) /\
       (width <= Z.of_nat (String.length s) -> r = s)%Z).
Proof.
  intros Hn. unfold zeroPad, String_of.
  apply Z.leb_le in Hn. rewrite Hn. eexists. split; [reflexivity |].
  intros Hfuel. rewrite zeroPad_loop_spec by assumption.
  eexists. split; [reflexivity |]. split; [reflexivity |]. split.
  - rewrite string_length_append, length_zeros. lia.
  - intros Hw.
    match goal with
    | |- zeros (Z.to_nat ?d) ++ _ = _ => replace (Z.to_nat d) with 0 by lia
    end.
    reflexivity.
Qed.

Lemma zeroPad_pads_witness :
  zeroPad 3 7 3 = Some "007" /\ zeroPad 3 (-5) 4 = Some "00-5".
Proof.
  destruct (zeroPad_pads 3 7 3 ltac:(vm_compute; discriminate))
    as (s & Hs & H).
  destruct (zeroPad_pads 3 (-5) 4 ltac:(vm_compute; discriminate))
    as (s' & Hs' & H').
  injection Hs as <-. injection Hs' as <-.
  destruct (H ltac:(vm_compute; lia)) as (r & H1 & -> & _).
  destruct (H' ltac:(vm_compute; lia)) as (r' & H2 & -> & _).
  split; [exact H1 | exact H2].
Defined.

Lemma get_set_same {V : Type} (k : string) (v : V) (o : Obj V) :
  get k (set k v o) = Some v.
Proof.
  induction o as [| [k' v'] o IH]; simpl.
  - now rewrite String.eqb_refl.
  - destruct (k' =? k) eqn:E; simpl; [now rewrite String.eqb_refl |].
    now rewrite E.
Qed.

Lemma get_set_other {V : Type} (k k' : string) (v : V) (o : Obj V) :
  k' <> k -> get k (set k' v o) = get k o.
Proof.
  intros Hne. apply String.eqb_neq in Hne.
  induction o as [| [k0 v0] o IH]; simpl.
  - now rewrite Hne.
  - destruct (k0 =? k') eqn:E; simpl.
    + apply String.eqb_eq in E. subst k0. now rewrite Hne.
    + now rewrite IH.
Qed.

Lemma get_None_keys {V : Type} (k : string) (o : Obj V) :
  get k o = None <-> ~ In k (keys o).
Proof.
  induction o as [| [k' v'] o IH]; simpl; [tauto |].
  destruct (String.eqb_spec k' k) as [-> | Hne].
  - split; [discriminate | intros H; exfalso; apply H; now left].
  - rewrite IH. tauto.
Qed.

Lemma keys_set {V : Type} (k : string) (v : V) (o : Obj V) (k0 : string) :
  In k0 (keys (set k v o)) <-> k0 = k \/ In k0 (keys o).
Proof.
  induction o as [| [k' v'] o IH]; simpl; [intuition |].
  destruct (String.eqb_spec k' k) as [-> | Hne]; simpl; [intuition |].
  rewrite IH. intuition.
Qed.

Lemma objCopy_fold {V : Type} (obj : Obj V) (ks : list string) (t : Obj V)
  (k : string) :
  let copy := fold_left (fun t k => match get k obj with
                                    | Some v => set k v t
                                    | None => t
                                    end) ks t in
  (In k ks -> get k obj <> None -> get k copy = get k obj) /\
  (~ In k ks -> get k copy = get k t) /\
  (In k (keys copy) -> In k (keys t) \/ In k ks).
Proof.
  revert t. induction ks as [| k' ks IH]; intros t; simpl.
  - repeat split; try tauto.
  - destruct (IH (match get k' obj with Some v => set k' v t | None => t end))
      as (Hin & Hout & Hkeys).
    destruct (in_dec string_dec k ks) as [Hk | Hk].
    + split; [intros _ Hsome; now apply Hin |]. split; [tauto |].
      intros _. now right; right.
    + split; [| split].
      * intros [-> | Hk'] Hsome; [| contradiction]. rewrite (Hout Hk).
        destruct (get k obj) as [v |] eqn:E; [| contradiction].
        apply get_set_same.
      * intros Hno. rewrite (Hout Hk).
        destruct (get k' obj) as [v |]; [| reflexivity].
        apply get_set_other. tauto.
      * intros Hc. destruct (Hkeys Hc) as [Ht | Hks]; [| now right; right].
        destruct (get k' obj) as [v |]; [| now left].
        apply keys_set in Ht. destruct Ht as [-> | Ht]; [right; now left | now left].
Qed.

(** X6: after [objCopy(obj, target)] every property of [obj] has, in the
    result, the value it has in [obj], every other property of [target]
    keeps its value, and the result has no property that neither of them
    has; without a target the result agrees with [obj] on every
    property. *)
Theorem objCopy_lookup {V : Type} (obj : Obj V) (target : option (Obj V))
  (k : string) :
  get k (objCopy obj target)
  = match get k obj with
    | Some v => Some v
    | None => get k (match target with Some t => t | None => [] end)
    end /\
  get k (objCopy obj None) = get k obj /\
  (In k (keys (objCopy obj target)) ->
   In k (keys obj) \/ In k (keys (match target with Some t => t | None => [] end))).
Proof.
  assert (G : forall t : Obj V,
            get k (objCopy obj (Some t))
            = match get k obj with Some v => Some v | None => get k t end).
  { intros t. unfold objCopy.
    destruct (objCopy_fold obj (keys obj) t k) as (Hin & Hout & _).
    destruct (get k obj) as [v |] eqn:E.
    - apply Hin; [| discriminate].
      destruct (in_dec string_dec k (keys obj)) as [Hk | Hk]; [assumption |].
      apply get_None_keys in Hk. congruence.
    - apply Hout. now apply get_None_keys. }
  split; [| split].
  - destruct target as [t |]; [apply G |]. apply (G []).
  - change (objCopy obj None) with (objCopy obj (Some [])).
    rewrite G. now destruct (get k obj).
  - unfold objCopy. intros Hk.
    destruct (objCopy_fold obj (keys obj)
                (match target with Some t => t | None => [] end) k) as (_ & _ & Hkeys).
    destruct (Hkeys Hk); [now right | now left].
Qed.

End CommonTheorems.

Section SummaryTheorems.

(** X7: a procedure may be constructed with an empty list of changes; on
    it [summarize] throws a [TypeError], while [execute] calls back with no
    error without calling any collaborator.  On a list that is not empty
    [summarize] describes the first change and no other. *)
Theorem empty_plan_and_summary :
  Summary.UpdateAgentV1 (Some []) = Ok [] /\
  Summary.summarize [] = Throw TypeError /\
  (forall worlds fuel scheds,
     execute [] worlds fuel scheds = mkExecution (Callback None) [] []) /\
  (forall c rest, exists text,
     Summary.summarize (c :: rest) = Ok text /\
     Summary.summarize [c] = Ok text /\
     text = "update " ++ dq ++ c_service c ++ dq ++ " service to image "
              ++ uuid (c_image c) ++ " (" ++ img_name (c_image c) ++ "@"
              ++ img_version (c_image c) ++ ")").
Proof.
  repeat split. intros c rest. eexists. repeat split.
Qed.

End SummaryTheorems.

(** * Further properties of the fan-out *)

Section ChainFacts.

Variable change : Change.
Variable w : World.

Lemma chain_result_more_fuel (fuel : nat) (n : nat) (c : Chain)
  (r : Outcome (list JsError)) :
  chain_result change w fuel n c = Some r ->
  chain_result change w (S fuel) n c = Some r.
Proof.
  revert c. induction fuel as [| fuel IH]; intros c; [discriminate |].
  cbn [chain_result]. destruct (resume change w n c) as [[c' evs | p a] | t];
    try (intros H; exact H).
  intros H. apply IH in H. exact H.
Qed.

Lemma chain_result_fuel_le (f f' : nat) (n : nat) (c : Chain)
  (r : Outcome (list JsError)) :
  f <= f' -> chain_result change w f n c = Some r ->
  chain_result change w f' n c = Some r.
Proof.
  induction 1 as [| f' Hle IH]; [trivial |].
  intros H. now apply chain_result_more_fuel, IH.
Qed.

(** [cost c] answers finish the chain [c]. *)
Lemma chain_result_total (fuel : nat) (n : nat) (c : Chain) :
  cost c <= fuel -> chain_result change w fuel n c <> None.
Proof.
  revert c. induction fuel as [| fuel IH]; intros c Hc.
  - pose proof (cost_pos c). lia.
  - cbn [chain_result].
    destruct (resume change w n c) as [[c' evs | p a] | t] eqn:Hres;
      try discriminate.
    apply IH. pose proof (proj1 (resume_continue change w n c c' evs Hres)). lia.
Qed.

(** The result of a chain does not depend on the fuel that finishes it. *)
Lemma chain_result_at_cost (fuel : nat) (n : nat) (c : Chain)
  (r : Outcome (list JsError)) :
  chain_result change w fuel n c = Some r ->
  chain_result change w (cost c) n c = Some r.
Proof.
  intros H.
  destruct (chain_result change w (cost c) n c) as [r' |] eqn:E;
    [| now apply chain_result_total in E].
  destruct (Nat.le_ge_cases fuel (cost c)) as [Hle | Hge].
  - rewrite (chain_result_fuel_le _ _ _ _ _ Hle H) in E. now symmetry.
  - rewrite (chain_result_fuel_le _ _ _ _ _ Hge E) in H. exact H.
Qed.

(** One answer of a safe chain. *)
Lemma chain_safe_step (n : nat) (c : Chain) :
  chain_safe change w (n, c) ->
  (exists c' evs, resume change w n c = Ok (Continue c' evs) /\
                  chain_safe change w (n, c') /\
                  chain_errs change w (n, c') = chain_errs change w (n, c)) \/
  (exists pushed cbarg, resume change w n c = Ok (Finish pushed cbarg) /\
                        chain_errs change w (n, c) = opt_list pushed).
Proof.
  unfold chain_safe, chain_errs. simpl. intros [l Hl].
  pose proof (cost_pos c) as Hpos.
  destruct (cost c) as [| k] eqn:Hk; [lia |].
  cbn [chain_result] in Hl |- *.
  destruct (resume change w n c) as [[c' evs | pushed cbarg] | t] eqn:Hres.
  - left. exists c', evs. split; [reflexivity |].
    pose proof (chain_result_at_cost _ _ _ _ Hl) as Hl'. rewrite Hl, Hl'.
    split; [now exists l | reflexivity].
  - right. exists pushed, cbarg. split; [reflexivity |]. reflexivity.
  - discriminate.
Qed.

End ChainFacts.

Section FairFacts.

Variable change : Change.
Variable cnAgentInsts : list Inst.
Variable w : World.
Variable c : nat.

Lemma perm_move {A : Type} (e x f1 f2 q : list A) :
  Permutation ((e ++ x) ++ (f1 ++ f2) ++ q) (e ++ (f1 ++ x ++ f2) ++ q).
Proof.
  rewrite <- !app_assoc. apply Permutation_app_head.
  rewrite !app_assoc. apply Permutation_app_tail, Permutation_app_tail.
  apply Permutation_app_comm.
Qed.

(** Starting waiting entries keeps what is owed. *)
Lemma dispatchLoop_owed (todo : list (nat * Inst)) (q : Queue) :
  thrown q = None ->
  Forall (entry_safe change cnAgentInsts w) todo ->
  Forall (chain_safe change w) (pending q) ->
  sound change cnAgentInsts w (dispatchLoop change cnAgentInsts w c todo q) /\
  Permutation (owed change cnAgentInsts w (dispatchLoop change cnAgentInsts w c todo q))
    (errs q ++ flat_map (chain_errs change w) (pending q)
            ++ flat_map (entry_errs change cnAgentInsts w) todo).
Proof.
  revert q. induction todo as [| [n arg] rest IH]; intros q Hth Htodo Hpend.
  - split.
    + unfold sound. cbn [dispatchLoop thrown queued pending].
      split; [assumption |]. split; [constructor | assumption].
    + unfold owed. cbn [dispatchLoop errs queued pending]. apply Permutation_refl.
  - inversion Htodo as [| ? ? Hsafe Hrest]; subst.
    cbn [dispatchLoop]. destruct (length (pending q) <? c)%nat.
    + destruct Hsafe as [l Hl].
      assert (Hee : entry_errs change cnAgentInsts w (n, arg) = l)
        by (unfold entry_errs; now rewrite Hl).
      cbn [flat_map]. rewrite Hee.
      unfold entry_result in Hl. cbn [fst snd] in Hl.
      destruct (upAgent cnAgentInsts w arg) as [[e |] | t] eqn:Hup.
      * inversion Hl; subst l.
        destruct (IH (mkQueue rest (pending q) (errs q ++ [e]) (cbargs q) (log q)
                        (thrown q)) Hth Hrest Hpend) as [Hs Hp].
        split; [exact Hs |]. etransitivity; [exact Hp |].
        cbn [errs pending]. rewrite <- !app_assoc. apply Permutation_app_head.
        cbn [app]. apply (Permutation_middle _ _ e).
      * assert (Hsafe' : chain_safe change w (n, AwaitPost arg)) by now exists l.
        assert (Hce : chain_errs change w (n, AwaitPost arg) = l).
        { unfold chain_errs. cbn [fst snd cost]. now rewrite Hl. }
        destruct (IH (mkQueue rest (pending q ++ [(n, AwaitPost arg)]) (errs q)
                        (cbargs q)
                        (log q ++ [EvPost n (server arg) (uuid (c_image change))])
                        (thrown q)) Hth Hrest) as [Hs Hp].
        { cbn [pending]. apply Forall_app. split; [assumption |]. now constructor. }
        split; [exact Hs |]. etransitivity; [exact Hp |].
        cbn [errs pending]. rewrite flat_map_app. cbn [flat_map].
        rewrite Hce, app_nil_r, <- !app_assoc. apply Permutation_refl.
      * discriminate.
    + split.
      * unfold sound. cbn [thrown queued pending].
        split; [assumption |]. split; assumption.
      * unfold owed. cbn [errs queued pending]. apply Permutation_refl.
Qed.

(** A step keeps what is owed. *)
Lemma step_owed (choice : nat) (q : Queue) :
  sound change cnAgentInsts w q ->
  sound change cnAgentInsts w (step change cnAgentInsts w c choice q) /\
  Permutation (owed change cnAgentInsts w (step change cnAgentInsts w c choice q))
    (owed change cnAgentInsts w q).
Proof.
  intros (Hth & Hq & Hp). unfold step.
  destruct (idle q) eqn:Hidle; [split; [now repeat split | apply Permutation_refl] |].
  destruct (idle_false q Hidle) as [_ Hne].
  destruct (step_picks choice q Hne) as (n & ch & Hnth). rewrite Hnth.
  destruct (nth_error_pieces _ _ _ Hnth) as (l1 & l2 & Hl & Hrep & Hrem).
  rewrite Hl in Hp. apply Forall_app in Hp. destruct Hp as [Hp1 Hp2].
  inversion Hp2 as [| ? ? Hch Hp2']; subst.
  destruct (chain_safe_step change w n ch Hch)
    as [(c' & evs & Hres & Hsafe' & Herrs) | (pushed & cbarg & Hres & Herrs)];
    rewrite Hres.
  - split.
    + unfold sound. cbn [thrown queued pending]. rewrite Hrep.
      split; [assumption |]. split; [assumption |].
      apply Forall_app. split; [assumption |]. now constructor.
    + unfold owed. cbn [errs queued pending]. rewrite Hrep, Hl, !flat_map_app.
      cbn [flat_map]. rewrite Herrs. apply Permutation_refl.
  - unfold dispatchNext. cbn [queued].
    destruct (dispatchLoop_owed (queued q)
                (mkQueue (queued q) (remove_nth (choice mod length (pending q)) (pending q))
                   (errs q ++ opt_list pushed) (cbargs q ++ opt_list cbarg)
                   (log q) (thrown q)) Hth Hq) as [Hs Hperm].
    { cbn [pending]. rewrite Hrem. apply Forall_app. now split. }
    split; [exact Hs |]. etransitivity; [exact Hperm |].
    unfold owed. cbn [errs queued pending]. rewrite Hrem, Hl, !flat_map_app.
    cbn [flat_map]. rewrite Herrs. apply perm_move.
Qed.

Lemma run_owed (fuel : nat) (sched : nat -> nat) (t : nat) (q : Queue) :
  sound change cnAgentInsts w q ->
  sound change cnAgentInsts w (run change cnAgentInsts w c fuel sched t q) /\
  Permutation (owed change cnAgentInsts w (run change cnAgentInsts w c fuel sched t q))
    (owed change cnAgentInsts w q).
Proof.
  revert t q. induction fuel as [| fuel IH]; intros t q Hs; simpl.
  - split; [assumption | apply Permutation_refl].
  - destruct (idle q); [split; [assumption | apply Permutation_refl] |].
    destruct (step_owed (sched t) q Hs) as [Hs' Hp'].
    destruct (IH (S t) _ Hs') as [Hs'' Hp''].
    split; [assumption |]. etransitivity; eassumption.
Qed.

(** [errs] only grows, at its end. *)
Lemma dispatchLoop_errs (todo : list (nat * Inst)) (q : Queue) :
  exists more, errs (dispatchLoop change cnAgentInsts w c todo q) = (errs q ++ more)%list.
Proof.
  revert q. induction todo as [| [n arg] rest IH]; intros q.
  - exists []. simpl. now rewrite app_nil_r.
  - cbn [dispatchLoop]. destruct (length (pending q) <? c)%nat.
    + destruct (upAgent cnAgentInsts w arg) as [[e |] | t].
      * destruct (IH (mkQueue rest (pending q) (errs q ++ [e]) (cbargs q) (log q)
                        (thrown q))) as [more Hm].
        exists (e :: more). rewrite Hm. simpl. now rewrite <- app_assoc.
      * destruct (IH (mkQueue rest (pending q ++ [(n, AwaitPost arg)]) (errs q)
                        (cbargs q)
                        (log q ++ [EvPost n (server arg) (uuid (c_image change))])
                        (thrown q))) as [more Hm].
        exists more. exact Hm.
      * exists []. simpl. now rewrite app_nil_r.
    + exists []. simpl. now rewrite app_nil_r.
Qed.

Lemma step_errs (choice : nat) (q : Queue) :
  exists more, errs (step change cnAgentInsts w c choice q) = (errs q ++ more)%list.
Proof.
  unfold step. destruct (idle q); [exists []; now rewrite app_nil_r |].
  destruct (nth_error _ _) as [[n ch] |]; [| exists []; now rewrite app_nil_r].
  destruct (resume change w n ch) as [[c' evs | pushed cbarg] | t];
    try (exists []; simpl; now rewrite app_nil_r).
  unfold dispatchNext. cbn [queued].
  destruct (dispatchLoop_errs (queued q)
              (mkQueue (queued q) (remove_nth (choice mod length (pending q)) (pending q))
                 (errs q ++ opt_list pushed) (cbargs q ++ opt_list cbarg)
                 (log q) (thrown q))) as [more Hm].
  exists (opt_list pushed ++ more)%list. rewrite Hm. cbn [errs].
  now rewrite app_assoc.
Qed.

Lemma run_errs (fuel : nat) (sched : nat -> nat) (t : nat) (q : Queue) :
  exists more,
    errs (run change cnAgentInsts w c fuel sched t q) = (errs q ++ more)%list.
Proof.
  revert t q. induction fuel as [| fuel IH]; intros t q; simpl.
  - exists []. now rewrite app_nil_r.
  - destruct (idle q); [exists []; now rewrite app_nil_r |].
    destruct (IH (S t) (step change cnAgentInsts w c (sched t) q)) as [m1 H1].
    destruct (step_errs (sched t) q) as [m2 H2].
    exists (m2 ++ m1)%list. rewrite H1, H2. now rewrite app_assoc.
Qed.

(** A run at rest stays as it is. *)
Lemma run_stable (a b : nat) (sched : nat -> nat) (t : nat) (q : Queue) :
  idle (run change cnAgentInsts w c a sched t q) = true ->
  run change cnAgentInsts w c (a + b) sched t q
  = run change cnAgentInsts w c a sched t q.
Proof.
  revert t q. induction a as [| a IH]; intros t q Hidle; simpl in *.
  - now apply run_idle.
  - destruct (idle q); [reflexivity |]. now apply IH.
Qed.

End FairFacts.

Section PostOrderFacts.

Variable change : Change.
Variable cnAgentInsts : list Inst.
Variable w : World.
Variable c : nat.

Lemma post_entries_app (l1 l2 : list Event) :
  post_entries (l1 ++ l2) = (post_entries l1 ++ post_entries l2)%list.
Proof.
  induction l1 as [| ev l1 IH]; [reflexivity |].
  destruct ev; simpl; now rewrite IH.
Qed.

Lemma post_entries_none (evs : list Event) :
  (forall m s i, ~ In (EvPost m s i) evs) -> post_entries evs = [].
Proof.
  induction evs as [| ev evs IH]; intros H; [reflexivity |].
  destruct ev; simpl; try (apply IH; intros m s i Hin; apply (H m s i); now right).
  exfalso. eapply H. now left.
Qed.

Lemma filter_snoc {A : Type} (p : A -> bool) (l : list A) (a : A) :
  filter p (l ++ [a]) = if p a then (filter p l ++ [a])%list else filter p l.
Proof.
  rewrite filter_app. simpl. destruct (p a); [reflexivity | apply app_nil_r].
Qed.

Lemma dispatchLoop_posts (all todo started : list (nat * Inst)) (q : Queue) :
  all = (started ++ todo)%list ->
  post_entries (log q) = map fst (filter (is_dispatched cnAgentInsts w) started) ->
  posts_in_order cnAgentInsts w all (dispatchLoop change cnAgentInsts w c todo q).
Proof.
  revert started q. induction todo as [| [n arg] rest IH]; intros started q Hall Hlog.
  - exists started. cbn [dispatchLoop queued log]. now split.
  - cbn [dispatchLoop]. destruct (length (pending q) <? c)%nat.
    + assert (Hall' : all = ((started ++ [(n, arg)]) ++ rest)%list)
        by now rewrite <- app_assoc.
      destruct (upAgent cnAgentInsts w arg) as [[e |] | t] eqn:Hup.
      * assert (Hd : is_dispatched cnAgentInsts w (n, arg) = false)
          by (unfold is_dispatched; cbn [snd]; now rewrite Hup).
        apply (IH (started ++ [(n, arg)])%list); [exact Hall' |].
        cbn [log]. now rewrite filter_snoc, Hd.
      * assert (Hd : is_dispatched cnAgentInsts w (n, arg) = true)
          by (unfold is_dispatched; cbn [snd]; now rewrite Hup).
        apply (IH (started ++ [(n, arg)])%list); [exact Hall' |].
        cbn [log]. rewrite post_entries_app, filter_snoc, Hd, map_app, Hlog.
        reflexivity.
      * assert (Hd : is_dispatched cnAgentInsts w (n, arg) = false)
          by (unfold is_dispatched; cbn [snd]; now rewrite Hup).
        exists (started ++ [(n, arg)])%list. cbn [queued log].
        split; [exact Hall' |]. now rewrite filter_snoc, Hd.
    + exists started. cbn [queued log]. now split.
Qed.

Lemma step_posts (all : list (nat * Inst)) (choice : nat) (q : Queue) :
  posts_in_order cnAgentInsts w all q ->
  posts_in_order cnAgentInsts w all (step change cnAgentInsts w c choice q).
Proof.
  intros HP. unfold step. destruct (idle q); [assumption |].
  destruct (nth_error _ _) as [[n ch] |]; [| assumption].
  destruct HP as (started & Hall & Hlog).
  destruct (resume change w n ch) as [[c' evs | pushed cbarg] | t] eqn:Hres.
  - exists started. cbn [queued log]. split; [assumption |].
    rewrite post_entries_app,
      (post_entries_none evs (proj2 (resume_continue _ _ _ _ _ _ Hres))).
    now rewrite app_nil_r.
  - unfold dispatchNext. cbn [queued].
    now apply (dispatchLoop_posts all (queued q) started).
  - exists started. cbn [queued log]. now split.
Qed.

Lemma run_posts (all : list (nat * Inst)) (fuel : nat) (sched : nat -> nat)
  (t : nat) (q : Queue) :
  posts_in_order cnAgentInsts w all q ->
  posts_in_order cnAgentInsts w all (run change cnAgentInsts w c fuel sched t q).
Proof.
  revert t q. induction fuel as [| fuel IH]; intros t q HP; simpl; [assumption |].
  destruct (idle q); [assumption |]. now apply IH, step_posts.
Qed.

Lemma map_fst_entries (items : list Inst) (s : nat) :
  map fst (combine (seq s (length items)) items) = seq s (length items).
Proof.
  revert s. induction items as [| a items IH]; intros s; [reflexivity |].
  simpl. now rewrite IH.
Qed.

Lemma kept_entries_distinct (keep : nat * Inst -> bool)
  (started : list (nat * Inst)) :
  NoDup (map fst started) -> NoDup (map fst (filter keep started)).
Proof.
  induction started as [| [n i] rest IH]; cbn [map filter fst]; intros Hnd;
    [constructor |].
  apply NoDup_cons_iff in Hnd. destruct Hnd as [Hfresh Hrest].
  destruct (keep (n, i)); [| auto]. cbn [map fst]. apply NoDup_cons; [| auto].
  rewrite in_map_iff. intros ([m j] & Heq & Hin). cbn [fst] in Heq. subst m.
  apply filter_In in Hin. apply Hfresh. apply in_map_iff. exists (n, j).
  split; [reflexivity | apply Hin].
Qed.

(** The worker chain of a task poll is the poll loop. *)
Lemma chain_result_task (arg : Inst) (taskid : string) (n fuel k : nat)
  (armed : list nat) (r : PollRun) :
  poll_loop (fun j => _waitTask_cb taskid j (getTask w n j)) fuel k armed = Some r ->
  chain_result change w fuel n (AwaitTask arg taskid (k + 1))
  = Some (pushed_by (outcome r)).
Proof.
  revert k armed. induction fuel as [| fuel IH]; intros k armed; [discriminate |].
  cbn [poll_loop chain_result resume].
  destruct (_waitTask_cb taskid (k + 1) (getTask w n (k + 1))) as [[| er] | t];
    cbn [bind].
  - apply IH.
  - intros H. inversion H. reflexivity.
  - intros H. inversion H. reflexivity.
Qed.

Lemma chain_result_server (arg : Inst) (n fuel k : nat) (armed : list nat)
  (r : PollRun) :
  poll_loop (fun j => _waitServer_cb change (server arg) j (getServer w n j))
    fuel k armed = Some r ->
  chain_result change w fuel n (AwaitServer arg (k + 1))
  = Some (pushed_by (outcome r)).
Proof.
  revert k armed. induction fuel as [| fuel IH]; intros k armed; [discriminate |].
  cbn [poll_loop chain_result resume].
  destruct (_waitServer_cb change (server arg) (k + 1) (getServer w n (k + 1)))
    as [[| er] | t]; cbn [bind].
  - apply IH.
  - intros H. inversion H. reflexivity.
  - intros H. inversion H. reflexivity.
Qed.

End PostOrderFacts.

Section FanOutExtraTheorems.

Variable change : Change.
Variable cnAgentInsts : list Inst.
Variable w : World.

(** [errs] of a fan-out starts with what it held before. *)
Lemma fan_out_errs_grow (fuel : nat) (sched : nat -> nat) (errs0 : list JsError) :
  exists more,
    errs (fanOut change cnAgentInsts w fuel sched errs0) = (errs0 ++ more)%list.
Proof.
  unfold fanOut.
  destruct (run_errs change cnAgentInsts w CN_CONCUR fuel sched 0
              (push change cnAgentInsts w CN_CONCUR errs0 (insts change)))
    as [m1 H1].
  unfold push, dispatchNext in H1 |- *. cbn [queued] in H1 |- *.
  destruct (dispatchLoop_errs change cnAgentInsts w CN_CONCUR
              (combine (seq 1 (length (insts change))) (insts change))
              (mkQueue (combine (seq 1 (length (insts change))) (insts change))
                 [] errs0 [] [] None)) as [m2 H2].
  exists (m2 ++ m1)%list. rewrite H1, H2. cbn [errs]. now rewrite app_assoc.
Qed.

(** X8: whatever the answers and the schedule, the fan-out of a Change
    with N instances is at rest after 62 N steps: its continuation has been
    called or an exception has escaped, and further steps change nothing. *)
Theorem fan_out_comes_to_rest (fuel : nat) (sched : nat -> nat)
  (errs0 : list JsError) :
  S (S limit) * length (insts change) <= fuel ->
  queue_result (fanOut change cnAgentInsts w fuel sched errs0) <> Unfinished /\
  forall more,
    fanOut change cnAgentInsts w (fuel + more) sched errs0
    = fanOut change cnAgentInsts w fuel sched errs0.
Proof.
  intros Hfuel. split; [now apply fanOut_drains |].
  intros more. unfold fanOut. apply run_stable, run_rests.
  etransitivity; [apply push_measure | exact Hfuel].
Qed.

(** X9: [errs] only grows at its end; the continuation of a fan-out gets
    no error exactly when [errs] is empty, and otherwise the [MultiError]
    of [errs], whose message is the digest of all the errors recorded. *)
Theorem fan_out_aggregates (fuel : nat) (sched : nat -> nat) (errs0 : list JsError) :
  (exists more,
     errs (fanOut change cnAgentInsts w fuel sched errs0) = (errs0 ++ more)%list) /\
  (queue_result (fanOut change cnAgentInsts w fuel sched errs0) = Callback None ->
   errs (fanOut change cnAgentInsts w fuel sched errs0) = []) /\
  (forall e,
     queue_result (fanOut change cnAgentInsts w fuel sched errs0) = Callback (Some e) ->
     errs (fanOut change cnAgentInsts w fuel sched errs0) <> [] /\
     MultiError (errs (fanOut change cnAgentInsts w fuel sched errs0)) = Ok e /\
     err_code e = Some "MultiError" /\
     err_exitStatus e = Some 1%Z /\
     err_message e
     = Some (digest (errs (fanOut change cnAgentInsts w fuel sched errs0)))).
Proof.
  split; [| split].
  - exact (fan_out_errs_grow fuel sched errs0).
  - intros H. apply queue_result_callback in H. destruct H as (_ & _ & _ & Hr).
    destruct (errs _); [reflexivity | discriminate].
  - intros e H. apply queue_result_callback in H. destruct H as (_ & _ & _ & Hr).
    destruct (errs (fanOut change cnAgentInsts w fuel sched errs0)) as [| e0 l] eqn:E;
      [discriminate |].
    inversion Hr; subst e. rewrite MultiError_ok.
    repeat split. discriminate.
Qed.

(** X10: the install-agent requests of a fan-out are made in the order of
    [change.insts], for exactly the started instances that passed the
    checks of [upAgent], and never twice for one instance. *)
Theorem requests_in_order_once (fuel : nat) (sched : nat -> nat)
  (errs0 : list JsError) :
  (exists started,
     entries (insts change)
     = (started ++ queued (fanOut change cnAgentInsts w fuel sched errs0))%list /\
     post_entries (log (fanOut change cnAgentInsts w fuel sched errs0))
     = map fst (filter (is_dispatched cnAgentInsts w) started)) /\
  NoDup (post_entries (log (fanOut change cnAgentInsts w fuel sched errs0))).
Proof.
  assert (H : posts_in_order cnAgentInsts w (entries (insts change))
                (fanOut change cnAgentInsts w fuel sched errs0)).
  { unfold fanOut. apply run_posts. unfold push, dispatchNext. cbn [queued].
    now apply (dispatchLoop_posts change cnAgentInsts w CN_CONCUR _ _ []). }
  destruct H as (started & Hall & Hlog).
  split; [now exists started |].
  rewrite Hlog. apply kept_entries_distinct.
  pose proof (seq_NoDup (length (insts change)) 1) as Hnd.
  rewrite <- map_fst_entries in Hnd. fold (entries (insts change)) in Hnd.
  rewrite Hall, map_app in Hnd. now apply NoDup_app_remove_r in Hnd.
Qed.

(** X11: once the install-agent request of an instance is answered
    without error, what its chain records is what its poll loop returns:
    for cn-agent the loop of [waitUntilAgentsChange] on the server of the
    instance, for any other service the loop of [waitUntilTaskCompletes]
    on the id of the answer; one answer more than the loop needs ends the
    chain. *)
Theorem chain_is_poll_loop (n fuel : nat) (arg : Inst) (res : PostRes) :
  limit <= fuel ->
  post w n = PostOk res ->
  (service arg = "cn-agent" ->
   exists r,
     waitUntilAgentsChange fuel change (server arg) (getServer w n) = Some r /\
     chain_result change w (S fuel) n (AwaitPost arg)
     = Some (pushed_by (outcome r))) /\
  (service arg <> "cn-agent" ->
   exists r,
     waitUntilTaskCompletes fuel (res_id res) (getTask w n) = Some r /\
     chain_result change w (S fuel) n (AwaitPost arg)
     = Some (pushed_by (outcome r))).
Proof.
  intros Hfuel Hpost. split.
  - intros Hsvc.
    assert (Hstep : chain_result change w (S fuel) n (AwaitPost arg)
                    = chain_result change w fuel n (AwaitServer arg 1)).
    { cbn [chain_result resume]. unfold cnapiCb. rewrite Hpost, Hsvc.
      reflexivity. }
    rewrite Hstep. unfold waitUntilAgentsChange. rewrite _waitServer_unfold.
    destruct (poll_loop_spec
                (fun k => _waitServer_cb change (server arg) k (getServer w n k))
                (fun k H => proj1 (server_cb_again _ _ _ _ H)) fuel 0 []
                ltac:(unfold limit; lia) ltac:(lia))
      as (k & o & Hrun & _).
    eexists. split; [exact Hrun |].
    now apply (chain_result_server change w arg n fuel 0 []).
  - intros Hsvc.
    assert (Hstep : chain_result change w (S fuel) n (AwaitPost arg)
                    = chain_result change w fuel n (AwaitTask arg (res_id res) 1)).
    { cbn [chain_result resume]. unfold cnapiCb. rewrite Hpost.
      apply String.eqb_neq in Hsvc. rewrite Hsvc. reflexivity. }
    rewrite Hstep. unfold waitUntilTaskCompletes. rewrite _waitTask_unfold.
    destruct (poll_loop_spec
                (fun k => _waitTask_cb (res_id res) k (getTask w n k))
                (fun k H => proj1 (task_cb_again _ _ _ H)) fuel 0 []
                ltac:(unfold limit; lia) ltac:(lia))
      as (k & o & Hrun & _).
    eexists. split; [exact Hrun |].
    now apply (chain_result_task change w arg (res_id res) n fuel 0 []).
Qed.

(** X12: when no instance, handled on its own, makes an exception escape,
    the fan-out ends with its continuation called, whatever the schedule,
    and the errors it has recorded are, up to their order, those the
    instances record when handled one after the other. *)
Theorem fan_out_schedule_independent (fuel : nat) (sched : nat -> nat)
  (errs0 : list JsError) :
  Forall (entry_safe change cnAgentInsts w) (entries (insts change)) ->
  S (S limit) * length (insts change) <= fuel ->
  exists more,
    errs (fanOut change cnAgentInsts w fuel sched errs0) = (errs0 ++ more)%list /\
    Permutation more
      (flat_map (entry_errs change cnAgentInsts w) (entries (insts change))) /\
    queue_result (fanOut change cnAgentInsts w fuel sched errs0)
    = result_of_next (done (errs0 ++ more)).
Proof.
  intros Hsafe Hfuel.
  destruct (dispatchLoop_owed change cnAgentInsts w CN_CONCUR
              (entries (insts change))
              (mkQueue (entries (insts change)) [] errs0 [] [] None)
              eq_refl Hsafe (Forall_nil _)) as [Hs0 Hp0].
  destruct (run_owed change cnAgentInsts w CN_CONCUR fuel sched 0 _ Hs0)
    as [(Hth & _ & _) Hp].
  assert (Heq : run change cnAgentInsts w CN_CONCUR fuel sched 0
                  (dispatchLoop change cnAgentInsts w CN_CONCUR (entries (insts change))
                     (mkQueue (entries (insts change)) [] errs0 [] [] None))
                = fanOut change cnAgentInsts w fuel sched errs0) by reflexivity.
  rewrite Heq in Hp, Hth. clear Heq.
  pose proof (fanOut_drains change cnAgentInsts w fuel sched errs0 Hfuel) as Hdone.
  unfold queue_result in Hdone |- *. rewrite Hth in Hdone |- *.
  destruct (fan_out_errs_grow fuel sched errs0) as [more Hmore].
  destruct (pending (fanOut change cnAgentInsts w fuel sched errs0)) eqn:Hpend;
    [| now contradiction Hdone].
  destruct (queued (fanOut change cnAgentInsts w fuel sched errs0)) eqn:Hq;
    [| now contradiction Hdone].
  exists more. split; [exact Hmore |]. split; [| now rewrite Hmore].
  apply (Permutation_app_inv_l errs0).
  rewrite <- Hmore. etransitivity; [| exact Hp0].
  etransitivity; [| exact Hp].
  unfold owed. rewrite Hpend, Hq. cbn [flat_map]. now rewrite !app_nil_r.
Qed.

End FanOutExtraTheorems.

Lemma fan_out_comes_to_rest_witness :
  queue_result (fanOut two_nodes [node_a; node_b] good_world 124 (fun t => t) [])
  <> Unfinished.
Proof.
  apply (fan_out_comes_to_rest two_nodes [node_a; node_b] good_world 124
           (fun t => t) []).
  unfold limit. simpl. lia.
Defined.

Lemma chain_is_poll_loop_witness :
  exists r,
    waitUntilAgentsChange 60 two_nodes "node-a" (getServer good_world 1) = Some r /\
    chain_result two_nodes good_world 61 1 (AwaitPost node_a)
    = Some (pushed_by (outcome r)).
Proof.
  exact (proj1 (chain_is_poll_loop two_nodes good_world 1 60 node_a
                  {| res_id := "t1" |} (le_n 60) eq_refl) eq_refl).
Defined.

Lemma fan_out_schedule_independent_witness :
  exists more,
    errs (fanOut two_nodes [node_a; node_b] good_world 124 (fun t => t) []) = more /\
    Permutation more
      (flat_map (entry_errs two_nodes [node_a; node_b] good_world)
         (entries (insts two_nodes))).
Proof.
  destruct (fan_out_schedule_independent two_nodes [node_a; node_b] good_world 124
              (fun t => t) []) as (more & Herrs & Hperm & _).
  - repeat constructor; eexists; vm_compute; reflexivity.
  - unfold limit. simpl. lia.
  - exists more. split; [exact Herrs | exact Hperm].
Defined.

(** * The nfs-volumes subcommand *)

Section NfsFacts.
Import Common NfsVolumes NfsVocabulary.

Lemma UsageError_ok (m : string) :
  UsageError (VString m) VUndefined
  = Ok (MkSdcAdmError "Usage" m (Some 2%Z)).
Proof. reflexivity. Qed.

Lemma validFeatureName_In (name : string) :
  validFeatureName name = true <-> In name VALID_FEATURE_NAMES.
Proof.
  unfold validFeatureName. rewrite existsb_exists. split.
  - intros (x & Hin & Heq). apply String.eqb_eq in Heq. now subst.
  - intros Hin. exists name. split; [exact Hin | apply String.eqb_refl].
Qed.

Lemma valid_has_flag (name : string) :
  validFeatureName name = true ->
  exists flag, get name FEATURE_NAME_TO_SAPI_FLAG = Some flag.
Proof.
  intros H. apply validFeatureName_In in H. simpl in H.
  destruct H as [<- | [<- | [<- | []]]]; eexists; reflexivity.
Qed.

Lemma validateArgs_None (args : option (list string)) :
  validateArgs args = Ok None ->
  exists name, args = Some [name] /\ validFeatureName name = true.
Proof.
  destruct args as [[| a [| b l]] |]; simpl; try discriminate.
  - destruct (validFeatureName a) eqn:E; simpl; [| discriminate].
    intros _. now exists a.
Qed.

Lemma flatten_one_spec (name : string) (imgs : list ImageInfo) (vs : list VmInfo) :
  flatten_one name imgs vs
  = if (length imgs <=? length vs)%nat
    then Ok (pair_up {| serviceName := name; images := imgs; vms := vs |})
    else Throw TypeError.
Proof.
  revert vs. induction imgs as [| i imgs IH]; intros vs; [reflexivity |].
  destruct vs as [| v vs]; [reflexivity |].
  cbn [flatten_one nth_error deref bind tl]. rewrite IH.
  cbn [length]. change (S (length imgs) <=? S (length vs))%nat
    with (length imgs <=? length vs)%nat.
  destruct (length imgs <=? length vs)%nat; reflexivity.
Qed.

Lemma flattenResults_spec (successes : list SvcImages) :
  flattenResults successes
  = if forallb enough_vms successes
    then Ok (flat_map pair_up successes)
    else Throw TypeError.
Proof.
  induction successes as [| r rest IH]; [reflexivity |].
  cbn [flattenResults forallb flat_map]. rewrite flatten_one_spec.
  unfold enough_vms at 1.
  destruct (length (images r) <=? length (vms r))%nat; [| reflexivity].
  cbn [bind andb]. rewrite IH.
  destruct (forallb enough_vms rest); [| reflexivity].
  cbn [bind]. destruct r; reflexivity.
Qed.

Lemma In_remove_nth {A : Type} (x : A) (k : nat) (l : list A) :
  In x (remove_nth k l) -> In x l.
Proof.
  unfold remove_nth. intros H. apply in_app_or in H.
  rewrite <- (firstn_skipn k l). apply in_or_app.
  destruct H as [H | H]; [now left | right].
  destruct (skipn k l) as [| y t] eqn:E.
  - assert (Hs : skipn (S k) l = skipn 1 (skipn k l)) by (now rewrite skipn_skipn).
    rewrite Hs, E in H. destruct H.
  - assert (Hs : skipn (S k) l = skipn 1 (skipn k l)) by (now rewrite skipn_skipn).
    rewrite Hs, E in H. now right.
Qed.

Lemma completion_order_In {A : Type} (choice : nat -> nat) (n k : nat)
  (l : list A) (x : A) :
  In x (completion_order choice n k l) -> In x l.
Proof.
  revert k l. induction n as [| n IH]; intros k l; [intros [] |].
  cbn [completion_order].
  destruct (nth_error l (choice k mod length l)) as [y |] eqn:E; [| intros []].
  intros [<- | H].
  - eapply nth_error_In. exact E.
  - apply IH in H. eapply In_remove_nth. exact H.
Qed.

Lemma completion_order_perm {A : Type} (choice : nat -> nat) (l : list A) :
  forall k, Permutation (completion_order choice (length l) k l) l.
Proof.
  remember (length l) as n eqn:Hn. revert l Hn.
  induction n as [| n IH]; intros l Hn k.
  - destruct l; [constructor | discriminate].
  - cbn [completion_order].
    assert (Hlt : (choice k mod length l < length l)%nat)
      by (apply Nat.mod_upper_bound; rewrite <- Hn; discriminate).
    destruct (nth_error l (choice k mod length l)) as [x |] eqn:E;
      [| apply nth_error_None in E; lia].
    destruct (nth_error_pieces _ _ _ E) as (l1 & l2 & Hl & _ & Hr).
    rewrite Hr. subst l. apply Permutation_cons_app. apply IH.
    rewrite length_app in Hn. cbn [length] in Hn. rewrite length_app. lia.
Qed.

Lemma flat_map_entries (w : World) (order : list string) :
  flat_map pair_up
    (flat_map (fun coreServiceName =>
                 match getImgsForSvcVms w coreServiceName with
                 | SvcErr _ => []
                 | SvcOk imgs vs =>
                     [{| serviceName := coreServiceName; images := imgs;
                         vms := vs |}]
                 end) order)
  = flat_map (svc_entries w) order.
Proof.
  induction order as [| n l IH]; [reflexivity |].
  cbn [flat_map]. rewrite flat_map_app, IH. f_equal.
  unfold svc_entries. destruct (getImgsForSvcVms w n); [reflexivity |].
  cbn [flat_map]. apply app_nil_r.
Qed.

Lemma forallb_enough (w : World) (order : list string) :
  forallb (answered w) order = true ->
  forallb enough_vms
    (flat_map (fun coreServiceName =>
                 match getImgsForSvcVms w coreServiceName with
                 | SvcErr _ => []
                 | SvcOk imgs vs =>
                     [{| serviceName := coreServiceName; images := imgs;
                         vms := vs |}]
                 end) order)
  = forallb (paired w) order.
Proof.
  induction order as [| n l IH]; [reflexivity |].
  cbn [flat_map forallb]. intros H. apply andb_prop in H. destruct H as [Hn Hl].
  rewrite forallb_app, (IH Hl). f_equal.
  unfold answered in Hn. unfold paired.
  destruct (getImgsForSvcVms w n); [discriminate |].
  cbn [forallb]. unfold enough_vms. cbn [images vms]. apply andb_true_r.
Qed.

Lemma forallb_perm {A : Type} (p : A -> bool) (l l' : list A) :
  Permutation l l' -> forallb p l = forallb p l'.
Proof.
  induction 1 as [| x l l' _ IH | x y l | l l' l'' _ IH1 _ IH2];
    cbn [forallb].
  - reflexivity.
  - now rewrite IH.
  - destruct (p x), (p y); reflexivity.
  - now rewrite IH1.
Qed.

Lemma no_errors (w : World) (names : list string) :
  flat_map (fun coreServiceName =>
              match getImgsForSvcVms w coreServiceName with
              | SvcErr getErr => [getErr]
              | SvcOk _ _ => []
              end) names = []
  <-> forallb (answered w) names = true.
Proof.
  induction names as [| n l IH]; [now split |].
  cbn [flat_map forallb]. unfold answered at 1.
  destruct (getImgsForSvcVms w n); cbn [app andb].
  - split; discriminate.
  - exact IH.
Qed.

Lemma filter_outdated_none (f : string) (vs : list VersionInfo)
  (r : list Event * list VersionInfo) :
  filter_outdated f vs = Ok r ->
  snd r = [] /\ Forall (fun ev => exists m, ev = Progress m) (fst r).
Proof.
  revert r. induction vs as [| v vs IH]; intros r; cbn [filter_outdated].
  - intros [= <-]. split; [reflexivity | constructor].
  - destruct (filterOutdated f v) as [[evs b] | t] eqn:E1; [| discriminate].
    cbn [bind].
    destruct (filter_outdated f vs) as [rs | t] eqn:E2; [| discriminate].
    cbn [bind fst snd]. intros [= <-].
    destruct (IH rs eq_refl) as [Hs Hp].
    assert (Hb : b = false /\ Forall (fun ev => exists m, ev = Progress m) evs).
    { unfold filterOutdated in E1.
      destruct (vi_version v); [| discriminate].
      destruct (vi_vmUuid v); [| discriminate]. cbn [bind] in E1.
      destruct (existsb _ _); [| discriminate].
      destruct (checkVersion _); injection E1 as <- <-;
        (split; [reflexivity | repeat constructor; eexists; reflexivity]). }
    destruct Hb as [-> Hevs]. cbn [fst snd]. split; [exact Hs |].
    apply Forall_app. now split.
Qed.

Lemma and_then_Ok (s : Outcome Stage) (rest : Outcome Run) (r : Run) :
  and_then s rest = Ok r ->
  exists st, s = Ok st /\
    ((exists err, failed st = Some err /\ r = mkRun (events st) (Called (Some err)))
     \/ (failed st = None /\ exists r', rest = Ok r' /\
         r = mkRun (events st ++ trace r') (ended r'))).
Proof.
  unfold and_then. destruct s as [st | t]; [| discriminate]. cbn [bind].
  intros H. exists st. split; [reflexivity |].
  destruct (failed st) as [err |].
  - left. exists err. injection H as <-. now split.
  - right. split; [reflexivity |]. destruct rest as [r' | t]; [| discriminate].
    cbn [bind] in H. injection H as <-. now exists r'.
Qed.

Lemma checkFeatureDeps_events (opts : Opts) (f : string) (w : World) (st : Stage) :
  checkFeatureDeps opts f w = Ok st -> events st = [].
Proof.
  unfold checkFeatureDeps, passes.
  destruct (force opts); [now intros [= <-] |].
  destruct (disable opts); [now intros [= <-] |].
  destruct (featureDeps f); [| now intros [= <-]].
  destruct (0 <? _)%nat; now intros [= <-].
Qed.

Lemma images_stage_events (opts : Opts) (f : string) (w : World) (st : Stage) :
  getDependenciesImageVersions opts f w = Ok st ->
  Forall (fun ev => is_update ev = false) (events st) /\
  (force opts = true \/ disable opts = true ->
   events st = [] /\ failed st = None).
Proof.
  unfold getDependenciesImageVersions, passes.
  destruct (force opts); [intros [= <-]; split; [constructor | now intros _] |].
  destruct (disable opts); [intros [= <-]; split; [constructor | now intros _] |].
  intros H. split; [| intros [? | ?]; discriminate]. revert H.
  destruct (length (imageDeps f) =? 0)%nat;
    [intros [= <-]; repeat constructor |].
  destruct (getImagesVersions (imageDeps f) w) as [got | t]; [| discriminate].
  cbn [bind]. destruct (fst got); [intros [= <-]; repeat constructor |].
  destruct (filter_outdated f (snd got)) as [r | t] eqn:E; [| discriminate].
  cbn [bind]. destruct (filter_outdated_none _ _ _ E) as [Hs Hp].
  rewrite Hs. cbn [length Nat.ltb Nat.leb]. intros [= <-]. cbn [events].
  repeat constructor. eapply Forall_impl; [| exact Hp].
  intros ev (m & ->). reflexivity.
Qed.

Lemma platform_stage_events (opts : Opts) (f : string) (w : World) (st : Stage) :
  checkPlatformDep opts f w = Ok st ->
  Forall (fun ev => is_update ev = false) (events st) /\
  (force opts = true \/ disable opts = true ->
   events st = [] /\ failed st = None).
Proof.
  unfold checkPlatformDep, passes.
  destruct (force opts); [intros [= <-]; split; [constructor | now intros _] |].
  destruct (disable opts); [intros [= <-]; split; [constructor | now intros _] |].
  intros H. split; [| intros [? | ?]; discriminate]. revert H.
  destruct (platformVersionDep f); [| intros [= <-]; repeat constructor].
  destruct (serversAnswer w); [intros [= <-]; repeat constructor |].
  destruct (0 <? _)%nat; intros [= <-]; repeat constructor.
Qed.

Lemma filter_no_update (evs : list Event) :
  Forall (fun ev => is_update ev = false) evs -> filter is_update evs = [].
Proof.
  induction 1 as [| ev evs H _ IH]; [reflexivity |].
  cbn [filter]. now rewrite H.
Qed.

Lemma filter_outdated_total (f : string) (vs : list VersionInfo) :
  Forall (fun v => existsb (String.eqb (vi_serviceName v)) (imageDeps f) = true /\
                   is_some (vi_version v) = true /\
                   is_some (vi_vmUuid v) = true) vs ->
  exists r, filter_outdated f vs = Ok r.
Proof.
  induction 1 as [| v vs (Hn & Hv & Hu) _ (r & IH)]; [now eexists |].
  cbn [filter_outdated]. unfold filterOutdated.
  destruct (vi_version v); [| discriminate].
  destruct (vi_vmUuid v); [| discriminate].
  rewrite Hn. cbn [bind].
  destruct (checkVersion _); cbn [bind]; rewrite IH; cbn [bind]; now eexists.
Qed.

Lemma pair_up_complete (name : string) (imgs : list ImageInfo) (vs : list VmInfo)
  (v : VersionInfo) :
  complete (SvcOk imgs vs) = true ->
  In v (pair_up {| serviceName := name; images := imgs; vms := vs |}) ->
  vi_serviceName v = name /\ is_some (vi_version v) = true /\
  is_some (vi_vmUuid v) = true.
Proof.
  unfold complete, pair_up. cbn [images vms serviceName].
  intros H Hin. apply andb_prop in H. destruct H as [_ H].
  apply andb_prop in H. destruct H as [Hi Hv].
  rewrite forallb_forall in Hi, Hv.
  apply in_map_iff in Hin. destruct Hin as ([i x] & <- & Hin).
  cbn [vi_serviceName vi_version vi_vmUuid fst snd].
  split; [reflexivity |]. split.
  - apply Hi. eapply in_combine_l. exact Hin.
  - apply Hv. rewrite combine_firstn_l in Hin. eapply in_combine_r. exact Hin.
Qed.

(** The shape of a run on one valid feature name. *)
Lemma run_cases (subcmd : string) (opts : Opts) (name : string) (w : World)
  (r : Run) :
  help opts = false ->
  validFeatureName name = true ->
  do_nfs_volumes subcmd opts (Some [name]) w = Ok r ->
  (filter is_update (trace r) = [] /\
   exists err, ended r = Called (Some err) /\ ~ checks_pass opts name w)
  \/
  (checks_pass opts name w /\
   exists e u,
     updateDockerNfSharedVolumesFlag opts
       (fmt_opt (get name FEATURE_NAME_TO_SAPI_FLAG)) w = Ok u /\
     filter is_update e = [] /\
     (force opts = true \/ disable opts = true -> e = []) /\
     trace r = (e ++ events (fst u)
                  ++ match failed (fst u) with
                     | Some _ => []
                     | None => done opts name (snd u)
                     end)%list /\
     ended r = Called (failed (fst u))).
Proof.
  intros Hh Hv. unfold do_nfs_volumes. rewrite Hh.
  cbn [validateArgs length Nat.ltb Nat.leb nth_error bind].
  rewrite Hv. cbn [negb bind deref].
  intros H.
  apply and_then_Ok in H. destruct H as (s1 & E1 & H).
  pose proof (checkFeatureDeps_events _ _ _ _ E1) as Hev1.
  destruct H as [(err & F1 & ->) | (F1 & r1 & H & ->)].
  { left. cbn [trace ended]. rewrite Hev1. split; [reflexivity |].
    exists err. split; [reflexivity |].
    intros (e1 & e2 & e3 & P1 & _). rewrite P1 in E1. injection E1 as <-.
    discriminate. }
  apply and_then_Ok in H. destruct H as (s2 & E2 & H).
  destruct (images_stage_events _ _ _ _ E2) as [Hev2 Hskip2].
  destruct H as [(err & F2 & ->) | (F2 & r2 & H & ->)].
  { left. cbn [trace ended]. rewrite Hev1. cbn [app].
    split; [now apply filter_no_update |].
    exists err. split; [reflexivity |].
    intros (e1 & e2 & e3 & _ & P2 & _). rewrite P2 in E2. injection E2 as <-.
    discriminate. }
  apply and_then_Ok in H. destruct H as (s3 & E3 & H).
  destruct (platform_stage_events _ _ _ _ E3) as [Hev3 Hskip3].
  destruct H as [(err & F3 & ->) | (F3 & r3 & H & ->)].
  { left. cbn [trace ended]. rewrite Hev1. cbn [app].
    split; [rewrite filter_app, !filter_no_update by assumption; reflexivity |].
    exists err. split; [reflexivity |].
    intros (e1 & e2 & e3 & _ & _ & P3). rewrite P3 in E3. injection E3 as <-.
    discriminate. }
  right. split.
  { exists (events s1), (events s2), (events s3).
    destruct s1, s2, s3. cbn [failed events] in *. now subst. }
  destruct (updateDockerNfSharedVolumesFlag opts _ w) as [u | t] eqn:Eu;
    [| discriminate].
  cbn [bind] in H. exists (events s2 ++ events s3)%list, u.
  split; [reflexivity |].
  split; [rewrite filter_app, !filter_no_update by assumption; reflexivity |].
  split.
  { intros Hf. destruct (Hskip2 Hf) as [-> _]. destruct (Hskip3 Hf) as [-> _].
    reflexivity. }
  unfold and_then in H. cbn [bind] in H. rewrite Hev1. cbn [app trace ended].
  destruct (failed (fst u)) as [err |]; injection H as <-; cbn [trace ended].
  - rewrite app_nil_r. split; [| reflexivity]. now rewrite <- !app_assoc.
  - split; [| reflexivity]. now rewrite <- !app_assoc.
Qed.

End NfsFacts.

Section NfsTheorems.
Import Common NfsVolumes NfsVocabulary NfsSamples.

(** X13 (validateArgs, validFeatureName): the arguments are accepted
    exactly when they are one of the three feature names and nothing
    else; every other argument list, a missing one included, gets a
    usage error with code [Usage] and exit status 2, never an exception;
    and every accepted name has its flag in FEATURE_NAME_TO_SAPI_FLAG. *)
Theorem validateArgs_accepts_one_feature_name (args : option (list string)) :
  (validateArgs args = Ok None <->
   exists name, args = Some [name] /\
     In name ["docker"; "docker-automount"; "cloudapi"]) /\
  (exists r, validateArgs args = Ok r /\
     forall e, r = Some e ->
       err_code e = Some "Usage" /\ err_exitStatus e = Some 2%Z) /\
  (forall name, validateArgs (Some [name]) = Ok None ->
     exists flag, get name FEATURE_NAME_TO_SAPI_FLAG = Some flag).
Proof.
  split; [| split].
  - split.
    + intros H. destruct (validateArgs_None _ H) as (name & -> & Hv).
      exists name. split; [reflexivity |]. now apply validFeatureName_In.
    + intros (name & -> & Hin). apply validFeatureName_In in Hin.
      simpl. now rewrite Hin.
  - destruct args as [[| a [| b l]] |]; simpl.
    + eexists. split; [reflexivity |]. now intros e [= <-].
    + destruct (validFeatureName a); simpl.
      * eexists. split; [reflexivity |]. discriminate.
      * eexists. split; [reflexivity |]. now intros e [= <-].
    + eexists. split; [reflexivity |]. now intros e [= <-].
    + eexists. split; [reflexivity |]. now intros e [= <-].
  - intros name H. destruct (validateArgs_None _ H) as (n & [= <-] & Hv).
    now apply valid_has_flag.
Qed.

(** X14 (getImagesVersions, onImagesVersions, flattenResults): what the
    callback of [getImagesVersions] gets.  If a service was answered with
    an error: the error of the parallel lookup, made of the errors
    answered, in the order of the services asked for, and an empty list.
    If every service was answered with a VM for each of its images: no
    error and one entry per image, labelled with its service and paired
    with the VM at the same index, service after service in the order
    their answers came in, which is some order of the services asked
    for.  If all were answered but one has fewer VMs than images, reading
    the uuid of the missing VM throws a TypeError and the callback is
    never called. *)
Theorem getImagesVersions_cases (names : list string) (w : World) :
  (forallb (answered w) names = false ->
   lookup_errors w names <> [] /\
   getImagesVersions names w = Ok (Some (Several (lookup_errors w names)), [])) /\
  (forallb (paired w) names = true ->
   getImagesVersions names w
   = Ok (None, flat_map (svc_entries w) (arrival w names))) /\
  Permutation (arrival w names) names /\
  (forallb (answered w) names = true -> forallb (paired w) names = false ->
   getImagesVersions names w = Throw TypeError).
Proof.
  pose proof (completion_order_perm (completion w) names 0) as Hperm.
  fold (arrival w names) in Hperm.
  unfold getImagesVersions, forEachParallel. cbn [fst snd].
  fold (lookup_errors w names). fold (arrival w names).
  assert (Hans : forallb (answered w) names = true -> lookup_errors w names = [])
    by (apply no_errors).
  split; [| split; [| split]].
  - intros Hf. destruct (lookup_errors w names) as [| e errors'] eqn:E.
    + rewrite (proj1 (no_errors w names)) in Hf by exact E. discriminate.
    + split; [discriminate | reflexivity].
  - intros Hp.
    assert (Ha : forallb (answered w) names = true).
    { rewrite forallb_forall in Hp. apply forallb_forall. intros n Hn.
      specialize (Hp n Hn). unfold paired in Hp. unfold answered.
      destruct (getImgsForSvcVms w n); [discriminate | reflexivity]. }
    rewrite (Hans Ha). cbn [length Nat.ltb Nat.leb onImagesVersions].
    rewrite flattenResults_spec, forallb_enough
      by (now rewrite (forallb_perm _ _ _ Hperm)).
    rewrite (forallb_perm _ _ _ Hperm), Hp. cbn [bind].
    now rewrite flat_map_entries.
  - exact Hperm.
  - intros Ha Hp. rewrite (Hans Ha).
    cbn [length Nat.ltb Nat.leb onImagesVersions].
    rewrite flattenResults_spec, forallb_enough
      by (now rewrite (forallb_perm _ _ _ Hperm)).
    rewrite (forallb_perm _ _ _ Hperm), Hp. reflexivity.
Qed.

(** X15 (getDependenciesImageVersions, filterOutdated): the image check
    never reports an outdated service.  Whatever the versions are, the
    only error the stage hands on is the one of the parallel lookup, made
    of the errors [getImgsForSvcVms] answered for the dependencies of the
    feature: [filterOutdated] returns nothing, so no entry is kept. *)
Theorem image_check_never_finds_outdated (opts : Opts) (f : string) (w : World)
  (st : Stage) :
  getDependenciesImageVersions opts f w = Ok st ->
  failed st = None \/
  exists errors,
    failed st = Some (Several errors) /\ errors <> [] /\
    Forall (fun e => exists name,
                In name (imageDeps f) /\ getImgsForSvcVms w name = SvcErr e)
           errors.
Proof.
  unfold getDependenciesImageVersions, passes.
  destruct (force opts); [intros [= <-]; now left |].
  destruct (disable opts); [intros [= <-]; now left |].
  destruct (length (imageDeps f) =? 0)%nat; [intros [= <-]; now left |].
  unfold getImagesVersions, forEachParallel, onImagesVersions. cbn [fst snd].
  set (errors := flat_map _ (imageDeps f)).
  destruct (0 <? length errors)%nat eqn:El.
  - cbn [bind fst]. intros [= <-]. right. exists errors.
    split; [reflexivity |]. split.
    + intros E. rewrite E in El. discriminate.
    + apply Forall_forall. intros e Hin. apply in_flat_map in Hin.
      destruct Hin as (name & Hname & He). exists name. split; [exact Hname |].
      destruct (getImgsForSvcVms w name); [| destruct He].
      destruct He as [-> | []]. reflexivity.
  - destruct (flattenResults _) as [infos | t]; [| discriminate].
    cbn [bind fst snd].
    destruct (filter_outdated f infos) as [r | t] eqn:E; [| discriminate].
    cbn [bind]. destruct (filter_outdated_none _ _ _ E) as [Hs _].
    rewrite Hs. cbn [length Nat.ltb Nat.leb]. intros [= <-]. now left.
Qed.

(** X16 (getDependenciesImageVersions, getImagesVersions): when every
    dependency of the feature is answered without error, with a version
    for every image and a VM with a uuid for each of them, the image
    check hands no error to [next], in whatever order the answers come in
    and whether or not a version matches [/tritonnfs/]. *)
Theorem image_check_passes_on_complete_answers (opts : Opts) (f : string)
  (w : World) :
  (forall name, In name (imageDeps f) ->
     complete (getImgsForSvcVms w name) = true) ->
  exists evs, getDependenciesImageVersions opts f w = Ok (mkStage evs None).
Proof.
  intros Hc. unfold getDependenciesImageVersions, passes.
  destruct (force opts); [now eexists |].
  destruct (disable opts); [now eexists |].
  destruct (length (imageDeps f) =? 0)%nat; [now eexists |].
  unfold getImagesVersions, forEachParallel. cbn [fst snd].
  set (order := completion_order _ _ _ _).
  assert (Ho : forall name, In name order -> In name (imageDeps f)).
  { intros name. apply completion_order_In. }
  clearbody order.
  assert (He : forall l,
             (forall name, In name l -> complete (getImgsForSvcVms w name) = true) ->
             flat_map (fun coreServiceName =>
                         match getImgsForSvcVms w coreServiceName with
                         | SvcErr getErr => [getErr]
                         | SvcOk _ _ => []
                         end) l = []).
  { induction l as [| n l IH]; intros Hl; [reflexivity |].
    cbn [flat_map]. rewrite IH by (intros; apply Hl; now right).
    specialize (Hl n (or_introl eq_refl)).
    destruct (getImgsForSvcVms w n); [discriminate | reflexivity]. }
  rewrite (He _ Hc). cbn [length Nat.ltb Nat.leb onImagesVersions].
  set (successes := flat_map _ order).
  assert (Hs : forall r, In r successes ->
             In (serviceName r) (imageDeps f) /\
             complete (SvcOk (images r) (vms r)) = true).
  { intros r Hin. apply in_flat_map in Hin. destruct Hin as (n & Hn & Hr).
    specialize (Hc n (Ho n Hn)).
    destruct (getImgsForSvcVms w n) as [| imgs vs]; [destruct Hr |].
    destruct Hr as [<- | []]. cbn [serviceName images vms]. split; auto. }
  clearbody successes.
  rewrite flattenResults_spec.
  assert (Hf : forallb enough_vms successes = true).
  { apply forallb_forall. intros r Hin. destruct (Hs r Hin) as [_ H].
    unfold complete in H. apply andb_prop in H. apply H. }
  rewrite Hf. cbn [bind fst snd].
  destruct (filter_outdated_total f (flat_map pair_up successes)) as (r & Hr).
  { apply Forall_forall. intros v Hin. apply in_flat_map in Hin.
    destruct Hin as (s & Hsin & Hv). destruct (Hs s Hsin) as [Hname Hcomp].
    destruct s as [n imgs vs]. cbn [serviceName images vms] in *.
    destruct (pair_up_complete _ _ _ _ Hcomp Hv) as (-> & H1 & H2).
    split; [| now split]. apply existsb_exists. exists n.
    split; [exact Hname | apply String.eqb_refl]. }
  rewrite Hr. cbn [bind]. destruct (filter_outdated_none _ _ _ Hr) as [-> _].
  cbn [length Nat.ltb Nat.leb]. now eexists.
Qed.

(** X17 (checkPlatformDep): without --force and --disable, only
    docker-automount asks CNAPI for the servers; with the list in hand the
    check passes exactly when no server boots a platform that sorts, as a
    string, before 20160613T123039Z, and otherwise its error names every
    such server. *)
Theorem platform_check_outcome (opts : Opts) (f : string) (w : World) :
  force opts = false -> disable opts = false ->
  (f <> "docker-automount" ->
   exists evs, checkPlatformDep opts f w = Ok (mkStage evs None) /\
               filter asks evs = []) /\
  (forall servers,
     f = "docker-automount" -> serversAnswer w = ServersOk servers ->
     exists st, checkPlatformDep opts f w = Ok st /\
       In ListServers (events st) /\
       (failed st = None <-> Forall (fun s => outdated s = false) servers) /\
       (failed st <> None ->
        failed st = Some (Plain ("Found outdated servers: "
                                 ++ join "," (map renderServerInfo
                                                  (filter outdated servers)))))).
Proof.
  intros Hf Hd. unfold checkPlatformDep, passes. rewrite Hf, Hd. split.
  - intros Hn. unfold platformVersionDep.
    destruct (f =? "docker-automount") eqn:E;
      [apply String.eqb_eq in E; contradiction |].
    eexists. split; reflexivity.
  - intros servers -> ->. cbn [platformVersionDep String.eqb Ascii.eqb Bool.eqb].
    change (filter _ servers) with (filter outdated servers).
    destruct (filter outdated servers) as [| s l] eqn:E.
    + cbn [length Nat.ltb Nat.leb]. eexists. split; [reflexivity |].
      cbn [events failed]. split; [right; right; now left |]. split.
      * split; [| reflexivity]. intros _. apply Forall_forall. intros s Hs.
        destruct (outdated s) eqn:Es; [| reflexivity].
        assert (Hin : In s (filter outdated servers))
          by (apply filter_In; now split).
        rewrite E in Hin. destruct Hin.
      * intros H. now contradiction H.
    + cbn [length Nat.ltb Nat.leb]. eexists. split; [reflexivity |].
      cbn [events failed]. split; [right; right; now left |]. split.
      * split; [discriminate |]. intros H. rewrite Forall_forall in H.
        assert (Hin : In s (filter outdated servers)) by (rewrite E; now left).
        apply filter_In in Hin. destruct Hin as [Hin Ho].
        rewrite (H s Hin) in Ho. discriminate.
      * intros _. reflexivity.
Qed.

(** X18 (do_nfs_volumes, updateDockerNfSharedVolumesFlag): the one write
    the subcommand makes.  An update of the SDC application is sent at
    most once, for the flag of the feature named, with the value [true]
    unless --disable was given; it is sent only when the flag in the
    application is not already that boolean, and only after the three
    checks handed no error on. *)
Theorem update_is_sent_only_when_needed (subcmd : string) (opts : Opts)
  (args : option (list string)) (w : World) (r : Run)
  (u fl : string) (v : bool) :
  do_nfs_volumes subcmd opts args w = Ok r ->
  In (UpdateApplication u fl v) (trace r) ->
  u = app_uuid (sdc w) /\ v = negb (disable opts) /\
  filter is_update (trace r) = [UpdateApplication u fl v] /\
  differs (get fl (metadata (sdc w))) v = true /\
  exists name,
    args = Some [name] /\ get name FEATURE_NAME_TO_SAPI_FLAG = Some fl /\
    checks_pass opts name w.
Proof.
  intros Hr Hin.
  assert (Hh : help opts = false).
  { destruct (help opts) eqn:E; [| reflexivity]. unfold do_nfs_volumes in Hr.
    rewrite E in Hr. injection Hr as <-. destruct Hin as [[=] | []]. }
  assert (Ha : exists name, args = Some [name] /\ validFeatureName name = true).
  { unfold do_nfs_volumes in Hr. rewrite Hh in Hr.
    destruct (validateArgs args) as [[e |] | t] eqn:E; [| | discriminate].
    - injection Hr as <-. destruct Hin.
    - now apply validateArgs_None. }
  destruct Ha as (name & -> & Hv).
  destruct (valid_has_flag _ Hv) as (flag & Hflag).
  destruct (run_cases _ _ _ _ _ Hh Hv Hr)
    as [(Hnone & _) | (Hpass & e & st & Hu & He & _ & Ht & _)].
  { assert (H : In (UpdateApplication u fl v) (filter is_update (trace r)))
      by (apply filter_In; now split).
    rewrite Hnone in H. destruct H. }
  rewrite Hflag in Hu. cbn [fmt_opt] in Hu.
  assert (Hupd : In (UpdateApplication u fl v) (filter is_update (trace r)))
    by (apply filter_In; now split).
  rewrite Ht, !filter_app, He in Hupd. rewrite Ht, !filter_app, He.
  cbn [app] in *.
  assert (Hdone : filter is_update
                    match failed (fst st) with
                    | Some _ => []
                    | None => done opts name (snd st)
                    end = []).
  { destruct (failed (fst st)); [reflexivity |]. unfold done.
    destruct (snd st), (disable opts); reflexivity. }
  rewrite Hdone, app_nil_r in *.
  unfold updateDockerNfSharedVolumesFlag in Hu.
  destruct (differs (get flag (metadata (sdc w))) (negb (disable opts))) eqn:Ed.
  - destruct (updateSdcFlagInSapi flag (updateAnswer w)) as [a | t];
      [| discriminate].
    cbn [bind] in Hu.
    assert (Hf : filter is_update (events (fst st))
                 = [UpdateApplication (app_uuid (sdc w)) flag (negb (disable opts))]).
    { destruct (fst a); [injection Hu as <-; reflexivity |].
      destruct (negb (differs (snd a) (negb (disable opts))));
        injection Hu as <-; reflexivity. }
    rewrite Hf in *. destruct Hupd as [[= <- <- <-] | []].
    repeat split; try assumption. exists name. now repeat split.
  - injection Hu as <-. destruct Hupd.
Qed.

(** X19 (do_nfs_volumes): with --force or --disable no dependency is
    looked at: neither the images nor the servers are asked for, no check
    can fail, and whatever ends the run comes from the update of the
    flag. *)
Theorem force_or_disable_skip_the_checks (subcmd : string) (opts : Opts)
  (name : string) (w : World) (r : Run) :
  force opts = true \/ disable opts = true ->
  help opts = false ->
  validFeatureName name = true ->
  do_nfs_volumes subcmd opts (Some [name]) w = Ok r ->
  filter asks (trace r) = [] /\
  exists st,
    updateDockerNfSharedVolumesFlag opts
      (fmt_opt (get name FEATURE_NAME_TO_SAPI_FLAG)) w = Ok st /\
    ended r = Called (failed (fst st)).
Proof.
  intros Hf Hh Hv Hr.
  assert (Hpass : checks_pass opts name w).
  { unfold checks_pass, checkFeatureDeps, getDependenciesImageVersions,
      checkPlatformDep, passes.
    destruct Hf as [-> | ->]; destruct (force opts); now exists [], [], []. }
  destruct (run_cases _ _ _ _ _ Hh Hv Hr)
    as [(_ & err & _ & Hn) | (_ & e & st & Hu & _ & He & Ht & Hend)];
    [contradiction |].
  rewrite (He Hf) in Ht. cbn [app] in Ht. split.
  - rewrite Ht, filter_app.
    assert (H1 : filter asks (events (fst st)) = []).
    { unfold updateDockerNfSharedVolumesFlag in Hu.
      destruct (differs _ _); [| injection Hu as <-; reflexivity].
      destruct (updateSdcFlagInSapi _ _) as [a | t]; [| discriminate].
      cbn [bind] in Hu. destruct (fst a); [injection Hu as <-; reflexivity |].
      destruct (negb _); injection Hu as <-; reflexivity. }
    rewrite H1. destruct (failed (fst st)); [reflexivity |].
    unfold done. destruct (snd st), (disable opts); reflexivity.
  - now exists st.
Qed.

(** X20 (checkFeatureDeps, updateDockerNfSharedVolumesFlag): the feature
    dependency of docker-automount is met only by the string 'true' in
    the docker flag, while the subcommand itself writes and recognises
    the boolean [true]: with the docker flag at the boolean [true],
    enabling docker finds nothing to do, and enabling docker-automount
    without --force ends with 'Missing feature deps: docker'. *)
Theorem automount_wants_the_string_true (subcmd : string) (opts : Opts)
  (w : World) :
  help opts = false -> force opts = false -> disable opts = false ->
  (exists st, checkFeatureDeps opts "docker-automount" w = Ok st /\
     (failed st = None <->
      get docker_flag (metadata (sdc w)) = Some (MStr "true"))) /\
  (get docker_flag (metadata (sdc w)) = Some (MBool true) ->
   (exists evs, updateDockerNfSharedVolumesFlag opts docker_flag w
                = Ok (mkStage evs None, false)) /\
   do_nfs_volumes subcmd opts (Some ["docker-automount"]) w
   = Ok (mkRun [] (Called (Some (Plain "Missing feature deps: docker"))))).
Proof.
  intros Hh Hf Hd. split.
  - unfold checkFeatureDeps, passes. rewrite Hf, Hd.
    cbn [featureDeps String.eqb Ascii.eqb Bool.eqb filter].
    change (get "docker" FEATURE_NAME_TO_SAPI_FLAG) with (Some docker_flag).
    cbv beta iota.
    destruct (get docker_flag (metadata (sdc w))) as [[b | s] |] eqn:E.
    + eexists. split; [reflexivity |]. split; discriminate.
    + destruct (String.eqb s "true") eqn:Es.
      * apply String.eqb_eq in Es. subst s. eexists.
        split; [reflexivity |]. now split.
      * assert (Hs : s <> "true") by (now apply String.eqb_neq).
        assert (Hm : match s with
                     | "true" => false
                     | _ => true
                     end = true).
        { clear -Hs.
          repeat (match goal with
                  | |- context [match ?x with _ => _ end] =>
                      destruct x; try reflexivity
                  end).
          now contradiction Hs. }
        rewrite Hm. eexists. split; [reflexivity |].
        split; [discriminate |]. intros [= ->]. now contradiction Hs.
    + eexists. split; [reflexivity |]. split; discriminate.
  - intros E. split.
    + unfold updateDockerNfSharedVolumesFlag. rewrite Hd, E. now eexists.
    + unfold do_nfs_volumes. rewrite Hh.
      cbn [validateArgs length Nat.ltb Nat.leb nth_error bind].
      change (validFeatureName "docker-automount") with true.
      cbn [negb bind deref]. unfold checkFeatureDeps. rewrite Hf, Hd.
      cbn [featureDeps String.eqb Ascii.eqb Bool.eqb filter].
      change (get "docker" FEATURE_NAME_TO_SAPI_FLAG) with (Some docker_flag).
      cbv beta iota.
    cbv beta iota.
      rewrite E. reflexivity.
Qed.

(** X21 (updateSdcFlagInSapi, do_nfs_volumes): when SAPI calls back
    without an application object, as it does with an error, reading its
    metadata throws a TypeError: the run that got as far as the update
    never calls [cb], and the error of SAPI is lost. *)
Theorem update_without_application_throws (subcmd : string) (opts : Opts)
  (name flag : string) (w : World) :
  help opts = false ->
  force opts = true \/ disable opts = true ->
  get name FEATURE_NAME_TO_SAPI_FLAG = Some flag ->
  differs (get flag (metadata (sdc w))) (negb (disable opts)) = true ->
  updatedSdcApp (updateAnswer w) = None ->
  do_nfs_volumes subcmd opts (Some [name]) w = Throw TypeError.
Proof.
  intros Hh Hf Hflag Hdiff Hnone.
  assert (Hv : validFeatureName name = true).
  { unfold FEATURE_NAME_TO_SAPI_FLAG in Hflag. cbn [get] in Hflag.
    destruct ("docker" =? name) eqn:E1;
      [apply String.eqb_eq in E1; now subst |].
    destruct ("docker-automount" =? name) eqn:E2;
      [apply String.eqb_eq in E2; now subst |].
    destruct ("cloudapi" =? name) eqn:E3;
      [apply String.eqb_eq in E3; now subst | discriminate]. }
  unfold do_nfs_volumes. rewrite Hh.
  cbn [validateArgs length Nat.ltb Nat.leb nth_error bind].
  rewrite Hv. cbn [negb bind deref]. rewrite Hflag. cbn [fmt_opt].
  assert (H1 : checkFeatureDeps opts name w = Ok (mkStage [] None)).
  { unfold checkFeatureDeps, passes.
    destruct Hf as [-> | ->]; destruct (force opts); reflexivity. }
  assert (H2 : getDependenciesImageVersions opts name w = Ok (mkStage [] None)).
  { unfold getDependenciesImageVersions, passes.
    destruct Hf as [-> | ->]; destruct (force opts); reflexivity. }
  assert (H3 : checkPlatformDep opts name w = Ok (mkStage [] None)).
  { unfold checkPlatformDep, passes.
    destruct Hf as [-> | ->]; destruct (force opts); reflexivity. }
  rewrite H1, H2, H3. unfold and_then at 1 2 3. cbn [bind failed events app].
  unfold updateDockerNfSharedVolumesFlag, updateSdcFlagInSapi.
  rewrite Hdiff, Hnone. reflexivity.
Qed.

End NfsTheorems.

Lemma image_check_never_finds_outdated_witness :
  NfsVolumes.failed
    (NfsVolumes.mkStage
       [NfsVolumes.Progress "Getting versions for image dependencies: vmapi, workflow, volapi, docker";
        NfsVolumes.GetImages ["vmapi"; "workflow"; "volapi"; "docker"]]
       (Some (NfsVolumes.Several [ClientError None; ClientError None;
                                  ClientError None; ClientError None]))) = None \/
  exists errors,
    NfsVolumes.failed
      (NfsVolumes.mkStage
         [NfsVolumes.Progress "Getting versions for image dependencies: vmapi, workflow, volapi, docker";
          NfsVolumes.GetImages ["vmapi"; "workflow"; "volapi"; "docker"]]
         (Some (NfsVolumes.Several [ClientError None; ClientError None;
                                    ClientError None; ClientError None])))
    = Some (NfsVolumes.Several errors) /\ errors <> [] /\
    Forall (fun e => exists name,
                In name (NfsVolumes.imageDeps "docker") /\
                NfsVolumes.SvcErr (ClientError None) = NfsVolumes.SvcErr e)
           errors.
Proof.
  apply (image_check_never_finds_outdated NfsSamples.plain_opts "docker"
           {| NfsVolumes.sdc := NfsSamples.fresh_app;
              NfsVolumes.getImgsForSvcVms :=
                fun _ => NfsVolumes.SvcErr (ClientError None);
              NfsVolumes.completion := fun k => k;
              NfsVolumes.serversAnswer := NfsVolumes.ServersOk [];
              NfsVolumes.updateAnswer := NfsSamples.updated |}).
  vm_compute. reflexivity.
Defined.

Lemma image_check_passes_on_complete_answers_witness :
  exists evs,
    NfsVolumes.getDependenciesImageVersions NfsSamples.plain_opts "docker"
      (NfsSamples.nfs_world NfsSamples.fresh_app NfsSamples.updated)
    = Ok (NfsVolumes.mkStage evs None).
Proof.
  apply (image_check_passes_on_complete_answers NfsSamples.plain_opts "docker"
           (NfsSamples.nfs_world NfsSamples.fresh_app NfsSamples.updated)).
  intros name _. reflexivity.
Defined.

Lemma platform_check_outcome_witness :
  exists st,
    NfsVolumes.checkPlatformDep NfsSamples.plain_opts "docker-automount"
      (NfsSamples.nfs_world NfsSamples.fresh_app NfsSamples.updated) = Ok st /\
    NfsVolumes.failed st
    = Some (NfsVolumes.Plain
              "Found outdated servers: uuid cn-1 boot platform version 20160101T000000Z").
Proof.
  destruct (platform_check_outcome NfsSamples.plain_opts "docker-automount"
              (NfsSamples.nfs_world NfsSamples.fresh_app NfsSamples.updated)
              eq_refl eq_refl) as [_ H].
  destruct (H _ eq_refl eq_refl) as (st & E & _ & Hiff & Hmsg).
  exists st. split; [exact E |]. apply Hmsg.
  intros Hn. apply Hiff in Hn. inversion Hn as [| ? ? Ho _]. discriminate Ho.
Defined.

Lemma update_is_sent_only_when_needed_witness :
  "app-1" = NfsVolumes.app_uuid NfsSamples.fresh_app /\ true = negb false /\
  exists name,
    Some ["docker"] = Some [name] /\
    Common.get name NfsVolumes.FEATURE_NAME_TO_SAPI_FLAG
    = Some NfsVocabulary.docker_flag.
Proof.
  destruct (NfsVolumes.do_nfs_volumes "nfs-volumes" NfsSamples.plain_opts
              (Some ["docker"])
              (NfsSamples.nfs_world NfsSamples.fresh_app NfsSamples.updated))
    as [r | t] eqn:E; [| vm_compute in E; discriminate E].
  destruct (update_is_sent_only_when_needed "nfs-volumes" NfsSamples.plain_opts
              (Some ["docker"])
              (NfsSamples.nfs_world NfsSamples.fresh_app NfsSamples.updated)
              r "app-1" NfsVocabulary.docker_flag true E)
    as (H1 & H2 & _ & _ & name & H3 & H4 & _).
  - vm_compute in E. injection E as <-. vm_compute.
    repeat (first [left; reflexivity | right]).
  - split; [exact H1 |]. split; [exact H2 |]. exists name. now split.
Defined.

Lemma force_or_disable_skip_the_checks_witness :
  exists r,
    NfsVolumes.do_nfs_volumes "nfs-volumes" NfsSamples.forced
      (Some ["docker-automount"])
      (NfsSamples.nfs_world NfsSamples.fresh_app NfsSamples.updated) = Ok r /\
    filter NfsVocabulary.asks (NfsVolumes.trace r) = [].
Proof.
  destruct (NfsVolumes.do_nfs_volumes "nfs-volumes" NfsSamples.forced
              (Some ["docker-automount"])
              (NfsSamples.nfs_world NfsSamples.fresh_app NfsSamples.updated))
    as [r | t] eqn:E; [| vm_compute in E; discriminate E].
  exists r. split; [reflexivity |].
  apply (force_or_disable_skip_the_checks "nfs-volumes" NfsSamples.forced
           "docker-automount"
           (NfsSamples.nfs_world NfsSamples.fresh_app NfsSamples.updated) r
           (or_introl eq_refl) eq_refl eq_refl E).
Defined.

Lemma automount_wants_the_string_true_witness :
  NfsVolumes.do_nfs_volumes "nfs-volumes" NfsSamples.plain_opts
    (Some ["docker-automount"])
    (NfsSamples.nfs_world NfsSamples.docker_on NfsSamples.updated)
  = Ok (NfsVolumes.mkRun []
          (NfsVolumes.Called
             (Some (NfsVolumes.Plain "Missing feature deps: docker")))).
Proof.
  apply (automount_wants_the_string_true "nfs-volumes" NfsSamples.plain_opts
           (NfsSamples.nfs_world NfsSamples.docker_on NfsSamples.updated)
           eq_refl eq_refl eq_refl).
  reflexivity.
Defined.

Lemma update_without_application_throws_witness :
  NfsVolumes.do_nfs_volumes "nfs-volumes" NfsSamples.forced (Some ["cloudapi"])
    (NfsSamples.nfs_world NfsSamples.fresh_app NfsSamples.sapi_down)
  = Throw TypeError.
Proof.
  apply (update_without_application_throws "nfs-volumes" NfsSamples.forced
           "cloudapi" "experimental_cloudapi_nfs_shared_volumes"
           (NfsSamples.nfs_world NfsSamples.fresh_app NfsSamples.sapi_down)
           eq_refl (or_introl eq_refl) eq_refl eq_refl eq_refl).
Defined.

(** * The prompt *)

Section PromptTheorems.
Import Prompt PromptVocabulary.

Lemma onData_plain (msg : string) (default : option string) (typed : list string) :
  forall (input : string) (rest : list string),
    forallb plain typed = true ->
    onData msg default input (typed ++ rest)
    = (map Stdout typed ++ fst (onData msg default (input ++ String.concat "" typed) rest),
       snd (onData msg default (input ++ String.concat "" typed) rest))%list.
Proof.
  induction typed as [| ch typed IH]; intros input rest Hp.
  - cbn [app map String.concat]. rewrite append_empty_r.
    now destruct (onData msg default input rest).
  - cbn [forallb] in Hp. apply andb_prop in Hp. destruct Hp as [Hch Hp].
    unfold plain, ends_line in Hch. apply andb_prop in Hch.
    destruct Hch as [H1 H2]. apply negb_true_iff in H1, H2.
    cbn [app onData]. rewrite H1, H2. rewrite (IH _ _ Hp). cbn [fst snd map app].
    assert (E : (input ++ ch) ++ String.concat "" typed
                = input ++ String.concat "" (ch :: typed)).
    { rewrite append_assoc. f_equal. destruct typed as [| c t]; cbn [String.concat].
      - now rewrite append_empty_r.
      - reflexivity. }
    now rewrite E.
Qed.

(** X22 (promptYesNo, onData): whatever is typed, when the callback is
    called it gets 'y', 'n', [false] (after Ctrl-C), or the default, and
    the default only if one was given that is not the empty string. *)
Theorem promptYesNo_answers (msg : string) (default : option string)
  (chunks : list string) (rv : Answer) :
  snd (promptYesNo msg default chunks) = Some rv ->
  rv = AString "y" \/ rv = AString "n" \/ rv = AFalse \/
  exists d, default = Some d /\ d <> "" /\ rv = AString d.
Proof.
  unfold promptYesNo. cbn [snd]. generalize "" at 1.
  induction chunks as [| ch rest IH]; intros input; cbn [onData snd];
    [discriminate |].
  destruct (orb (ch =? nl) _).
  - destruct (andb _ (truthy default)) eqn:Ed.
    + cbn [snd]. intros [= <-]. right; right; right.
      apply andb_prop in Ed. destruct Ed as [_ Ht].
      destruct default as [d |]; [| discriminate]. exists d.
      split; [reflexivity |]. split; [| reflexivity].
      intros ->. discriminate.
    + destruct (orb (_ =? "yes") _); [cbn [snd]; intros [= <-]; now left |].
      destruct (orb (_ =? "no") _);
        [cbn [snd]; intros [= <-]; right; now left |].
      cbn [snd]. apply IH.
  - destruct (ch =? ETX); [cbn [snd]; intros [= <-]; right; right; now left |].
    cbn [snd]. apply IH.
Qed.

(** X23 (promptYesNo, onData): the prompt reads one answer per line.
    Chunks that are neither a line end nor Ctrl-C are echoed and joined;
    at the line end the answer, in lower case, decides: yes or y gives
    'y', no or n gives 'n', nothing typed gives the default if there is
    one; anything else writes the reminder and the prompt starts again
    on the chunks that follow, as if called afresh. *)
Theorem promptYesNo_reads_a_line (msg : string) (default : option string)
  (typed : list string) (eol : string) (rest : list string) :
  forallb plain typed = true ->
  ends_line eol = true ->
  let answer := toLowerCase (String.concat "" typed) in
  let echo := (Stdout msg :: map Stdout typed ++ [Stdin nl])%list in
  ((answer = "yes" \/ answer = "y") ->
   promptYesNo msg default (typed ++ eol :: rest) = (echo, Some (AString "y"))) /\
  ((answer = "no" \/ answer = "n") ->
   promptYesNo msg default (typed ++ eol :: rest) = (echo, Some (AString "n"))) /\
  (forall d, answer = "" -> default = Some d -> d <> "" ->
   promptYesNo msg default (typed ++ eol :: rest) = (echo, Some (AString d))) /\
  (rejected default answer = true ->
   promptYesNo msg default (typed ++ eol :: rest)
   = ((echo ++ Stdout please :: fst (promptYesNo msg default rest))%list,
      snd (promptYesNo msg default rest))).
Proof.
  intros Hp He answer echo. unfold promptYesNo.
  rewrite (onData_plain _ _ _ _ _ Hp). cbn [fst snd append].
  cbn [onData]. unfold ends_line in He. rewrite He. fold answer.
  split; [| split; [| split]].
  - intros Ha.
    assert (E1 : andb (answer =? "") (truthy default) = false).
    { destruct Ha as [-> | ->]; reflexivity. }
    assert (E2 : orb (answer =? "yes") (answer =? "y") = true).
    { destruct Ha as [-> | ->]; reflexivity. }
    rewrite E1, E2. reflexivity.
  - intros Ha.
    assert (E1 : andb (answer =? "") (truthy default) = false).
    { destruct Ha as [-> | ->]; reflexivity. }
    assert (E2 : orb (answer =? "yes") (answer =? "y") = false).
    { destruct Ha as [-> | ->]; reflexivity. }
    assert (E3 : orb (answer =? "no") (answer =? "n") = true).
    { destruct Ha as [-> | ->]; reflexivity. }
    rewrite E1, E2, E3. reflexivity.
  - intros d -> -> Hd.
    assert (E : truthy (Some d) = true).
    { cbn [truthy]. apply negb_true_iff. now apply String.eqb_neq. }
    rewrite E. reflexivity.
  - unfold rejected. intros Hr. apply negb_true_iff in Hr.
    apply orb_false_elim in Hr. destruct Hr as [E1 Hr].
    apply orb_false_elim in Hr. destruct Hr as [E2 E3].
    rewrite E1, E2, E3. cbn [fst snd]. unfold echo.
    cbn [app]. rewrite <- app_assoc. reflexivity.
Qed.

End PromptTheorems.

Lemma promptYesNo_answers_witness :
  Prompt.AString "y" = Prompt.AString "y" \/
  Prompt.AString "y" = Prompt.AString "n" \/
  Prompt.AString "y" = Prompt.AFalse \/
  exists d, Some "n" = Some d /\ d <> "" /\ Prompt.AString "y" = Prompt.AString d.
Proof.
  apply (promptYesNo_answers "Continue? " (Some "n")
           ["o"; "k"; Prompt.CR; "Y"; "e"; "S"; nl; "n"]).
  reflexivity.
Defined.

Lemma promptYesNo_reads_a_line_witness :
  Prompt.promptYesNo "Continue? " None (["N"; "O"] ++ Prompt.CR :: ["y"])
  = ([Prompt.Stdout "Continue? "; Prompt.Stdout "N"; Prompt.Stdout "O";
      Prompt.Stdin nl],
     Some (Prompt.AString "n")).
Proof.
  destruct (promptYesNo_reads_a_line "Continue? " None ["N"; "O"] Prompt.CR ["y"]
              eq_refl eq_refl) as (_ & Hno & _).
  apply Hno. now left.
Defined.
